(** * AllCryptoTokens: the offline token catalogue builder and patcher

    A shallow embedding of the Python scripts that build and maintain
    [prebuilt_tokens.db]:

    - [src/build_prebuilt_db.py] and
      [src/token_db_builder/build_prebuilt_tokens.py]: the throttled
      fetcher [request_json], the seed phase and the enrich phase;
    - [src/token_db_builder/safe_patch_prebuilt_db.py]: the schema guard
      and [apply_patches];
    - [src/scripts/patch_descriptions.py]: the description-only patcher.

    The SQLite store is a list of rows in rowid order together with the
    [PRAGMA table_info] flags of the table and the [user_version] counter,
    a signed 32-bit header field. The network, the clock and
    [random.random()] are explicit inputs; seconds computed in floating
    point are rounded as binary64 rounds them. *)

From Stdlib Require Import QArith Qminmax Qround Qpower Lqa ZArith Lia.
From Stdlib Require Import SpecFloat.
From stdpp Require Import base tactics option list strings gmap.
From stdpp Require Import sorting.

Local Open Scope string_scope.
Local Open Scope list_scope.
Local Open Scope Z_scope.

(** ** Python values and exceptions *)

Module Py.

(** The values a JSON field of a patch entry or of an upstream answer
    carries here: [None] (absent or null) or a [str]. *)
Inductive pyval :=
| PyNone
| PyStr (s : string).

#[global] Instance pyval_eq_dec : EqDecision pyval.
Proof. solve_decision. Defined.

(** [bool(v)]: [None] and the empty string are falsy. *)
Definition truthy (v : pyval) : bool :=
  match v with
  | PyNone => false
  | PyStr s => negb (String.eqb s "")
  end.

(** [a or b]. *)
Definition por (a b : pyval) : pyval := if truthy a then a else b.

(** [v is None or v == ""]. *)
Definition is_blank (v : pyval) : bool :=
  match v with
  | PyNone => true
  | PyStr s => String.eqb s ""
  end.

(** [d.get(k)] on a dict whose values are [None] or strings. *)
Definition get (d : gmap string pyval) (k : string) : pyval :=
  default PyNone (d !! k).

(** [str.strip()], for the ASCII white space of [str.isspace]:
    TAB, LF, VT, FF, CR, FS, GS, RS, US and the space. *)
Definition is_space (c : Ascii.ascii) : bool :=
  let n := Ascii.nat_of_ascii c in
  ((9 <=? n)%nat && (n <=? 13)%nat) || ((28 <=? n)%nat && (n <=? 32)%nat).

Fixpoint lstrip (s : string) : string :=
  match s with
  | EmptyString => EmptyString
  | String c s' => if is_space c then lstrip s' else s
  end.

Definition strip (s : string) : string :=
  String.rev (lstrip (String.rev (lstrip s))).

(** The exceptions the modelled code lets escape. *)
Inductive exn :=
| ValueError
| RuntimeError
| OperationalError
| HTTPError (status : Z)
| Timeout
| ConnectionError
| JSONDecodeError.

Inductive result (A : Type) :=
| Ok (a : A)
| Raise (e : exn).
Arguments Ok {A} a.
Arguments Raise {A} e.

Definition bind {A B} (m : result A) (k : A -> result B) : result B :=
  match m with
  | Ok a => k a
  | Raise e => Raise e
  end.

End Py.
Import Py.

Notation "x <- m ;;; k" := (Py.bind m (fun x => k))
  (at level 100, m at next level, right associativity).

(** ** The SQLite store *)

Module Sql.

(** One row of [tokens]. Every column is nullable at the storage
    level; the NOT NULL constraints live in the table's schema. *)
Record token := Token {
  cgId        : option string;
  symbol      : option string;
  name        : option string;
  description : option string;
  imageUrl    : option string;
  updatedAt   : option Z
}.

#[global] Instance token_eq_dec : EqDecision token.
Proof. solve_decision. Defined.

(** One line of [PRAGMA table_info(tokens)]: name, notnull, pk. *)
Record column := Column {
  col_name    : string;
  col_notnull : Z;
  col_pk      : Z
}.

#[global] Instance column_eq_dec : EqDecision column.
Proof. solve_decision. Defined.

Record table := Table {
  info : list column;
  rows : list token
}.

(** A connection: the [tokens] table when it exists, and
    [PRAGMA user_version], the signed 32-bit integer at offset 60 of the
    file header. *)
Record store := Store {
  tokens       : option table;
  user_version : Z
}.

Definition set_rows (db : store) (rs : list token) : store :=
  match tokens db with
  | Some t => Store (Some (Table (info t) rs)) (user_version db)
  | None => db
  end.

(** What [PRAGMA user_version=N] stores: [N] when it fits the signed
    32-bit field, 0 otherwise. *)
Definition pragma_int32 (v : Z) : Z :=
  if (-2147483648 <=? v) && (v <=? 2147483647) then v else 0.

(** [conn.execute(f"PRAGMA user_version={int(v)};")]. *)
Definition set_user_version (db : store) (v : Z) : store :=
  Store (tokens db) (pragma_int32 v).

(** [x IS NULL OR x = '']. *)
Definition null_or_empty (x : option string) : bool :=
  match x with
  | None => true
  | Some s => String.eqb s ""
  end.

(** [WHERE cgId = ?]: a NULL key matches nothing. *)
Definition has_key (k : string) (r : token) : bool :=
  bool_decide (cgId r = Some k).

(** [SELECT 1 FROM tokens WHERE cgId=? LIMIT 1]. *)
Definition sql_exists (k : string) (rs : list token) : bool :=
  existsb (has_key k) rs.

(** [UPDATE tokens SET ... WHERE cgId = ?], the SET clause given as a
    function of the old row. *)
Definition sql_update (k : string) (f : token -> token) (rs : list token)
  : list token :=
  map (fun r => if has_key k r then f r else r) rs.

(** [COALESCE(a, b)]. *)
Definition coalesce {A} (a : option A) (b : option A) : option A :=
  match a with
  | Some _ => a
  | None => b
  end.

End Sql.
Import Sql.

(** ** Seconds in floating point: binary64

    A finite float is held as the rational it is. [round] is rounding to
    nearest, ties to even, with 53 bits of precision and the subnormal
    grid from 2^-1074 on, as [+] and [*] on Python floats round. Overflow
    is not represented: every value rounded in this development is below
    2^7. *)

Module Float64.

Definition pow2 (e : Z) : Q := (2 ^ e)%Q.

(** The exponent [e] of a positive [q]: 2^e <= q < 2^(e+1). *)
Definition ilog2 (q : Q) : Z :=
  let e0 := Z.log2 (Qnum q) - Z.log2 (Z.pos (Qden q)) in
  if Qle_bool (pow2 e0) q then e0 else e0 - 1.

(** The nearest integer, the even one of two equally near. *)
Definition rint (x : Q) : Z :=
  let f := Qfloor x in
  match (x - inject_Z f ?= 1 # 2)%Q with
  | Lt => f
  | Gt => f + 1
  | Eq => if Z.even f then f else f + 1
  end.

(** The exponent of the last place of a positive [q]. *)
Definition ulp_exp (q : Q) : Z := Z.max (ilog2 q - 52) (-1074).

Definition round_pos (q : Q) : Q :=
  Qred (inject_Z (rint (q / pow2 (ulp_exp q))) * pow2 (ulp_exp q)).

Definition round (q : Q) : Q :=
  match (q ?= 0)%Q with
  | Eq => 0%Q
  | Gt => round_pos q
  | Lt => (- round_pos (- q))%Q
  end.

(** The rational a float of the Standard Library's IEEE 754
    specification ([SpecFloat]) is, for comparing [round] with its
    [SFadd] and [SFmul]. *)
Definition of_spec_float (x : spec_float) : option Q :=
  match x with
  | S754_zero _ => Some 0%Q
  | S754_finite s m e =>
    Some (Qred ((if s then -1 else 1) * inject_Z (Z.pos m) * pow2 e))
  | S754_infinity _ | S754_nan => None
  end.

End Float64.

(** ** The spacing gate: [_throttle]

    [_last_call_ts] is the state; the two readings of [time.time()] are
    inputs. The result is the argument of [time.sleep], when it is called,
    and the new [_last_call_ts]. *)

Module Throttle.

(** [SPACING_SEC] of [build_prebuilt_db.py] (60.0 / MAX_REQUESTS_PER_MIN)
    and of [build_prebuilt_tokens.py]. *)
Definition SPACING_SEC_db : Q := (60 / 4)%Q.
Definition SPACING_SEC_tokens : Q := 12%Q.

Definition _throttle (spacing last now after : Q) : option Q * Q :=
  let delta := (now - last)%Q in
  (if Qle_bool spacing delta then None else Some (spacing - delta)%Q, after).

(** A run of calls, each with its two clock readings: the successive
    values of [_last_call_ts]. *)
Fixpoint stamps (spacing last : Q) (clock : list (Q * Q)) : list Q :=
  match clock with
  | [] => []
  | (now, after) :: rest =>
    snd (_throttle spacing last now after)
    :: stamps spacing (snd (_throttle spacing last now after)) rest
  end.

(** The clock of a run: [time.sleep(d)] suspends for at least [d], and
    time does not run backwards between the two readings of a call. *)
Fixpoint clock_ok (spacing last : Q) (clock : list (Q * Q)) : Prop :=
  match clock with
  | [] => True
  | (now, after) :: rest =>
    (match fst (_throttle spacing last now after) with
     | Some d => (now + d <= after)%Q
     | None => (now <= after)%Q
     end)
    ∧ clock_ok spacing (snd (_throttle spacing last now after)) rest
  end.

End Throttle.

(** ** The throttled fetcher: [request_json]

    Both builders carry a copy of [request_json]; the copies differ in
    [SPACING_SEC], in [MAX_BACKOFF_SEC] and in what happens when
    [float(retry_after)] raises. The loop is written once over a [config]
    and instantiated in the two builder modules below. Every attempt
    starts with [_throttle()]; the readings of [time.time()] it makes are
    an input, and [_last_call_ts] is threaded through the call. The trace
    of a call holds every [time.sleep] in order, those of [_throttle] and
    those of the retries. The wait of a retry is computed as the floats
    compute it: the jitter product and its sum with the backoff are
    rounded; the powers of two and the caps are floats as they stand.
    [SESSION.get] is scripted as a response, a timeout or a connection
    error. *)

Module Fetcher.

(** What [resp.headers.get("Retry-After")] leads to. *)
Inductive retry_after :=
| NoRetryAfter                (* header absent or empty: falsy *)
| RetryAfterSecs (q : Q)      (* [float(retry_after)] is the number [q] *)
| RetryAfterInvalid.          (* [float(retry_after)] raises ValueError,
                                 as for an HTTP-date *)

(** What one [SESSION.get] produces. [body = None]: [resp.json()]
    raises. *)
Inductive response (B : Type) :=
| Http (status : Z) (ra : retry_after) (body : option B)
| TimedOut
| ConnFailed.
Arguments Http {B} status ra body.
Arguments TimedOut {B}.
Arguments ConnFailed {B}.

Record config := Config {
  MAX_RETRIES      : Z;
  BASE_BACKOFF_SEC : Q;
  MAX_BACKOFF_SEC  : Q;
  (** the wait taken when [float(retry_after)] raises ValueError and the
      copy catches it; [None] when the copy does not catch it *)
  on_invalid_retry_after : option Q;
  SPACING_SEC      : Q
}.

(** One [time.sleep] call, with the place it is made at. *)
Inductive nap :=
| Spaced (d : Q)     (* [time.sleep(SPACING_SEC - delta)] in [_throttle] *)
| Waited (d : Q).    (* [time.sleep(wait)] in [request_json] *)

(** The arguments of the [time.sleep(wait)] calls of a trace, and those
    of the calls [_throttle] made. *)
Fixpoint waited (ns : list nap) : list Q :=
  match ns with
  | [] => []
  | Waited d :: ns' => d :: waited ns'
  | Spaced _ :: ns' => waited ns'
  end.

Fixpoint spaced (ns : list nap) : list Q :=
  match ns with
  | [] => []
  | Spaced d :: ns' => d :: spaced ns'
  | Waited _ :: ns' => spaced ns'
  end.

(** What a call leaves behind: the value returned or the exception raised
    ([None] when the script of responses ran out before the loop ended),
    the final value of [attempt], the [time.sleep] calls in order, and
    the final value of [_last_call_ts]. *)
Record run (B : Type) := Run {
  outcome  : option (result B);
  attempts : Z;
  sleeps   : list nap;
  last_call_ts : Q
}.
Arguments Run {B} outcome attempts sleeps last_call_ts.
Arguments outcome {B} r.
Arguments attempts {B} r.
Arguments sleeps {B} r.
Arguments last_call_ts {B} r.

(** [random.random()] returns a multiple of 2^-53 in [0, 1). *)
Definition random_range (x : Q) : Prop :=
  (0 <= x)%Q ∧ (x <= 1 - (1 # 9007199254740992))%Q.

Section Loop.
Context {B : Type}.
Variable cfg : config.
(** [u k]: the value of [random.random()] drawn during attempt [k]. *)
Variable u : Z -> Q.
(** [clock k]: the two readings of [time.time()] in the [_throttle()] of
    attempt [k]. *)
Variable clock : Z -> Q * Q.

(** [min(MAX_BACKOFF_SEC, BASE_BACKOFF_SEC * (2 ** (attempt - 1)))]: a
    power of two or the cap, computed without rounding. *)
Definition backoff (attempt : Z) : Q :=
  Qmin (MAX_BACKOFF_SEC cfg)
       (BASE_BACKOFF_SEC cfg * inject_Z (2 ^ (attempt - 1))).

(** [random.random() * 0.4], with the float the literal [0.4] is. *)
Definition jitter (attempt : Z) : Q :=
  Float64.round (u attempt * Float64.round (4 # 10)).

(** [backoff + random.random() * 0.4]. *)
Definition backoff_wait (attempt : Z) : Q :=
  Float64.round (backoff attempt + jitter attempt).

(** The [wait] of the 429/5xx branch; [None] when ValueError escapes. *)
Definition status_wait (attempt : Z) (ra : retry_after) : option Q :=
  match ra with
  | RetryAfterSecs q => Some q
  | RetryAfterInvalid => on_invalid_retry_after cfg
  | NoRetryAfter => Some (backoff_wait attempt)
  end.

(** [resp.status_code == 429 or 500 <= resp.status_code < 600]. *)
Definition retryable (status : Z) : bool :=
  ((status =? 429) || ((500 <=? status) && (status <? 600)))%Z.

(** [resp.raise_for_status()] raises for 4xx and 5xx. *)
Definition is_error_status (status : Z) : bool :=
  ((400 <=? status) && (status <? 600))%Z.

(** [time.sleep(wait)] raises ValueError for a negative argument. *)
Definition sleep_ok (wait : Q) : bool := Qle_bool 0 wait.

(** [_throttle()] at the head of attempt [attempt]: the sleep it makes,
    if any, and the new [_last_call_ts]. *)
Definition gate (attempt : Z) (last : Q) : list nap * Q :=
  let t := Throttle._throttle (SPACING_SEC cfg) last
                              (fst (clock attempt)) (snd (clock attempt)) in
  (match fst t with
   | Some d => [Spaced d]
   | None => []
   end, snd t).

(** The [while True] loop, one iteration per scripted response;
    [attempt] is the counter before [attempt += 1], [last] is
    [_last_call_ts]. *)
Fixpoint request_loop (rs : list (response B)) (attempt : Z) (last : Q)
         (slept : list nap) : run B :=
  match rs with
  | [] => Run None attempt slept last
  | r :: rs' =>
    let attempt := attempt + 1 in
    let slept := slept ++ fst (gate attempt last) in
    let last := snd (gate attempt last) in
    let retry (wait : Q) (err : exn) :=
      if attempt <=? MAX_RETRIES cfg then
        if sleep_ok wait
        then request_loop rs' attempt last (slept ++ [Waited wait])
        else Run (Some (Raise ValueError)) attempt slept last
      else Run (Some (Raise err)) attempt slept last in
    match r with
    | Http status ra body =>
      if retryable status then
        match status_wait attempt ra with
        | None => Run (Some (Raise ValueError)) attempt slept last
        | Some wait => retry wait (HTTPError status)
        end
      else if is_error_status status then
        Run (Some (Raise (HTTPError status))) attempt slept last
      else
        match body with
        | Some b => Run (Some (Ok b)) attempt slept last
        | None => Run (Some (Raise JSONDecodeError)) attempt slept last
        end
    | TimedOut => retry (backoff_wait attempt) Timeout
    | ConnFailed => retry (backoff_wait attempt) ConnectionError
    end
  end.

(** A call, with [_last_call_ts] as the previous call left it. *)
Definition request_json (last : Q) (rs : list (response B)) : run B :=
  request_loop rs 0 last [].

(** The exception a failed attempt ends in when it is the last. *)
Definition error_of (r : response B) : exn :=
  match r with
  | Http status _ _ => HTTPError status
  | TimedOut => Timeout
  | ConnFailed => ConnectionError
  end.

(** A failed attempt: 429/5xx, a timeout or a connection error, for
    which a wait is obtained ([float(retry_after)] does not escape). *)
Definition failed (attempt : Z) (r : response B) : Prop :=
  match r with
  | Http status ra _ =>
    retryable status = true ∧ is_Some (status_wait attempt ra)
  | TimedOut | ConnFailed => True
  end.

(** A failed attempt whose wait [time.sleep] accepts. *)
Definition retried (attempt : Z) (r : response B) : Prop :=
  match r with
  | Http status ra _ =>
    retryable status = true
    ∧ ∃ w, status_wait attempt ra = Some w ∧ sleep_ok w = true
  | TimedOut | ConnFailed => sleep_ok (backoff_wait attempt) = true
  end.

End Loop.

End Fetcher.

(** ** Seed and enrich, shared by the two builders *)

Module Builder.

(** The seed upsert of [seed_rows_from_crypto_com], with its six
    parameters [(cgId, sym, name, cgId, cgId, cgId)]:
    INSERT ... VALUES (?, ?, ?, COALESCE((SELECT description ...), NULL),
    COALESCE((SELECT imageUrl ...), NULL), COALESCE((SELECT updatedAt
    ...), 0)) ON CONFLICT(cgId) DO UPDATE SET symbol, name. *)
Definition seed_param : Type :=
  string * string * string * string * string * string.

(** A scalar subquery [(SELECT col FROM tokens t WHERE t.cgId = ?)]. *)
Definition select_scalar {A} (col : token -> option A) (k : string)
           (rs : list token) : option A :=
  match filter (fun r => has_key k r = true) rs with
  | r :: _ => col r
  | [] => None
  end.

Definition upsert (rs : list token) (p : seed_param) : list token :=
  match p with
  | (k, sym, nm, k1, k2, k3) =>
    if sql_exists k rs then
      sql_update k (fun r => Token (cgId r) (Some sym) (Some nm)
                                   (description r) (imageUrl r)
                                   (updatedAt r)) rs
    else
      rs ++ [Token (Some k) (Some sym) (Some nm)
                   (coalesce (select_scalar description k1 rs) None)
                   (coalesce (select_scalar imageUrl k2 rs) None)
                   (coalesce (select_scalar updatedAt k3 rs) (Some 0))]
  end.

(** [cur.executemany(upsert, buf)]. *)
Definition executemany (buf : list seed_param) (rs : list token)
  : list token :=
  fold_left upsert buf rs.

(** The [for cgId, sym, name in rows] loop with its buffer, flushed at
    500 entries. *)
Fixpoint seed_loop (upstream : list (string * string * string))
         (buf : list seed_param) (rs : list token)
  : list token * list seed_param :=
  match upstream with
  | [] => (rs, buf)
  | (k, sym, nm) :: rest =>
    let buf := buf ++ [(k, sym, nm, k, k, k)] in
    if (500 <=? length buf)%nat
    then seed_loop rest [] (executemany buf rs)
    else seed_loop rest buf rs
  end.

(** [seed_rows_from_crypto_com], from the mapped rows on. *)
Definition seed_rows (rs : list token)
           (upstream : list (string * string * string)) : list token :=
  let '(rs', buf) := seed_loop upstream [] rs in
  match buf with
  | [] => rs'
  | _ => executemany buf rs'
  end.

(** The answer of the single-coin endpoint, as far as it is read:
    [data.get("description") or {}] and [data.get("image") or {}]. *)
Record coin := Coin {
  coin_description : gmap string pyval;
  coin_image       : gmap string pyval
}.

(** A Python value bound to a [?] of a statement. *)
Definition bind_param (v : pyval) : option string :=
  match v with
  | PyNone => None
  | PyStr s => Some s
  end.

Section Enrich.
(** [strip_html], applied to non-empty strings only. *)
Variable strip_html : string -> string.

(** [desc_raw = (...).get("en") or None;
     desc = strip_html(desc_raw) if desc_raw else None]. *)
Definition coin_desc (data : coin) : pyval :=
  let desc_raw := por (get (coin_description data) "en") PyNone in
  match desc_raw with
  | PyStr s => if truthy desc_raw then PyStr (strip_html s) else PyNone
  | PyNone => PyNone
  end.

(** [img_obj.get("large") or img_obj.get("small") or
     img_obj.get("thumb")]. *)
Definition pick_image_fields (img_obj : gmap string pyval) : pyval :=
  por (get img_obj "large") (por (get img_obj "small") (get img_obj "thumb")).

End Enrich.

End Builder.

(** ** [src/build_prebuilt_db.py] *)

Module BuildPrebuiltDb.

Definition cfg : Fetcher.config :=
  Fetcher.Config 6 2 90 None Throttle.SPACING_SEC_db.

(** [request_json]: [wait = float(retry_after)] is not guarded here. *)
Definition request_json {B} (u : Z -> Q) (clock : Z -> Q * Q) (last : Q)
           (rs : list (Fetcher.response B)) : Fetcher.run B :=
  Fetcher.request_json cfg u clock last rs.

(** [seed_rows_from_crypto_com(db, resume)], from the mapped rows on;
    [resume] is not read. *)
Definition seed_rows_from_crypto_com (rs : list token)
           (upstream : list (string * string * string)) : list token :=
  Builder.seed_rows rs upstream.

(** SELECT cgId FROM tokens WHERE description IS NULL OR description = ''
    OR imageUrl IS NULL OR imageUrl = ''. *)
Definition list_ids_needing_enrich (rs : list token) : list (option string) :=
  map cgId
      (filter (fun r => null_or_empty (description r)
                        || null_or_empty (imageUrl r) = true) rs).

(** [chunked(xs, n)]: the slices [xs[i:i+n]] for [i] in
    [range(0, len(xs), n)]. *)
Fixpoint chunked_from {A} (fuel : nat) (xs : list A) (n : nat)
  : list (list A) :=
  match fuel, xs with
  | O, _ => []
  | _, [] => []
  | S fuel', _ => take n xs :: chunked_from fuel' (drop n xs) n
  end.

Definition chunked {A} (xs : list A) (n : nat) : list (list A) :=
  chunked_from (length xs) xs n.

(** SELECT cgId FROM tokens WHERE (cond) AND cgId IN (ids). *)
Definition select_ids_in (cond : token -> bool) (ids : list string)
           (rs : list token) : list string :=
  omap (fun r => match cgId r with
                 | Some k => if cond r && bool_decide (k ∈ ids)
                             then Some k else None
                 | None => None
                 end) rs.

Section Enrich.
Variable strip_html : string -> string.
(** [request_json] on [/coins/markets] for a batch of ids: the list it
    returns, or the exception the [try] catches. *)
Variable markets : list string -> result (list (gmap string pyval)).
(** [request_json] on [/coins/{cid}]. *)
Variable fetch : string -> result Builder.coin.

(** The [for it in arr] loop of one batch. *)
Definition markets_batch (now : Z) (arr : list (gmap string pyval))
           (rs : list token) : list token :=
  fold_left
    (fun rs it =>
       let cid := get it "id" in
       let img := get it "image" in
       match cid with
       | PyStr k =>
         if truthy cid && truthy img then
           sql_update k (fun r => Token (cgId r) (symbol r) (name r)
                                        (description r)
                                        (Builder.bind_param img)
                                        (Some now)) rs
         else rs
       | PyNone => rs
       end) arr rs.

Definition enrich_images_via_markets (now : Z) (rs : list token)
           (ids : list string) : list token :=
  let to_fill :=
    select_ids_in (fun r => null_or_empty (imageUrl r)) ids rs in
  match to_fill with
  | [] => rs
  | _ =>
    fold_left
      (fun rs batch =>
         match markets batch with
         | Ok arr => markets_batch now arr rs
         | Raise _ => rs
         end) (chunked to_fill 200) rs
  end.

(** The per-id UPDATE of [enrich_details]:
    UPDATE tokens SET description=?, updatedAt=? WHERE cgId=?. *)
Definition update_description (now : Z) (desc : pyval) (cid : string)
           (rs : list token) : list token :=
  sql_update cid (fun r => Token (cgId r) (symbol r) (name r)
                                 (Builder.bind_param desc) (imageUrl r)
                                 (Some now)) rs.

Definition enrich_details (now : Z) (rs : list token) (ids : list string)
           (skip_images : bool) : list token :=
  let rs :=
    if negb skip_images && negb (bool_decide (ids = []))
    then enrich_images_via_markets now rs ids else rs in
  let need_desc :=
    select_ids_in (fun r => null_or_empty (description r)) ids rs in
  fold_left
    (fun rs cid =>
       match fetch cid with
       | Ok data =>
         update_description now (Builder.coin_desc strip_html data) cid rs
       | Raise _ => rs
       end) need_desc rs.

End Enrich.

End BuildPrebuiltDb.

(** ** [src/token_db_builder/build_prebuilt_tokens.py] *)

Module BuildPrebuiltTokens.

Definition cfg : Fetcher.config :=
  Fetcher.Config 6 2 60 (Some 10%Q) Throttle.SPACING_SEC_tokens.

(** [request_json]: a ValueError of [float(retry_after)] gives
    [wait = 10.0]. *)
Definition request_json {B} (u : Z -> Q) (clock : Z -> Q * Q) (last : Q)
           (rs : list (Fetcher.response B)) : Fetcher.run B :=
  Fetcher.request_json cfg u clock last rs.

Definition seed_rows_from_crypto_com (rs : list token)
           (upstream : list (string * string * string)) : list token :=
  Builder.seed_rows rs upstream.

(** [list_ids_needing_enrich(db, skip_images)]. *)
Definition list_ids_needing_enrich (rs : list token) (skip_images : bool)
  : list (option string) :=
  if skip_images then
    map cgId (filter (fun r => null_or_empty (description r) = true) rs)
  else
    map cgId
        (filter (fun r => null_or_empty (description r)
                          || null_or_empty (imageUrl r) = true) rs).

(** [_pick_image]. *)
Definition _pick_image (img_obj : gmap string pyval) : pyval :=
  if bool_decide (img_obj = ∅) then PyNone
  else Builder.pick_image_fields img_obj.

Section Enrich.
Variable strip_html : string -> string.
Variable fetch : string -> result Builder.coin.

(** UPDATE tokens SET description=?, imageUrl=?, updatedAt=?
    WHERE cgId=?. *)
Definition update_details (now : Z) (desc img : pyval) (cid : string)
           (rs : list token) : list token :=
  sql_update cid (fun r => Token (cgId r) (symbol r) (name r)
                                 (Builder.bind_param desc)
                                 (Builder.bind_param img)
                                 (Some now)) rs.

Definition enrich_details (now : Z) (rs : list token) (ids : list string)
           (skip_images : bool) : list token :=
  fold_left
    (fun rs cid =>
       match fetch cid with
       | Ok data =>
         let desc := Builder.coin_desc strip_html data in
         let img := if skip_images then PyNone
                    else _pick_image (Builder.coin_image data) in
         update_details now desc img cid rs
       | Raise _ => rs
       end) ids rs.

End Enrich.

End BuildPrebuiltTokens.

(** ** [src/token_db_builder/safe_patch_prebuilt_db.py] *)

Module SafePatch.

Definition REQUIRED_NOT_NULL : list string :=
  ["cgId"; "symbol"; "name"; "updatedAt"].

Definition ALL_COLUMNS : list string :=
  ["cgId"; "symbol"; "name"; "description"; "imageUrl"; "updatedAt"].

(** The layout [CREATE_TOKENS_SQL] and the [tokens_new] of the rebuild
    declare. *)
Definition room_info : list column :=
  [ Column "cgId" 1 1; Column "symbol" 1 0; Column "name" 1 0;
    Column "description" 0 0; Column "imageUrl" 0 0;
    Column "updatedAt" 1 0 ].

(** [cols = {r[1]: r for r in info}]: the last line of a name wins. *)
Definition cols_of (i : list column) : gmap string column :=
  list_to_map (reverse ((fun c => (col_name c, c)) <$> i)).

Definition missing_columns (i : list column) : list string :=
  filter (fun c => cols_of i !! c = None) ALL_COLUMNS.

Inductive reason :=
| ReasonOk
| TableMissing
| MissingColumns (missing : list string)
| NotPrimaryKey (pk : Z)
| NotNullMismatch (bad_nn : list string).

Definition schema_is_room_compatible (db : store) : bool * reason :=
  match tokens db with
  | None => (false, TableMissing)
  | Some t =>
    let cols := cols_of (info t) in
    let missing := missing_columns (info t) in
    match missing with
    | _ :: _ => (false, MissingColumns missing)
    | [] =>
      let bad_nn :=
        filter (fun c => (col_notnull <$> cols !! c) ≠ Some 1)
               REQUIRED_NOT_NULL in
      let pk := default 0 (col_pk <$> cols !! "cgId") in
      if negb (pk =? 1) then (false, NotPrimaryKey pk)
      else match bad_nn with
           | _ :: _ => (false, NotNullMismatch bad_nn)
           | [] => (true, ReasonOk)
           end
    end
  end.

(** The SELECT list of the copy: COALESCE(cgId, ''),
    COALESCE(symbol, ''), COALESCE(name, ''), description, imageUrl,
    COALESCE(updatedAt, 0). *)
Definition copy_row (r : token) : token :=
  Token (coalesce (cgId r) (Some ""))
        (coalesce (symbol r) (Some ""))
        (coalesce (name r) (Some ""))
        (description r)
        (imageUrl r)
        (coalesce (updatedAt r) (Some 0)).

(** INSERT OR REPLACE into a table whose primary key is [cgId]: the row
    holding the same key is deleted, the new row is added. *)
Definition insert_or_replace (rs : list token) (r : token) : list token :=
  filter (fun x => cgId x ≠ cgId r) rs ++ [r].

(** [rebuild_tokens_table_room_schema]: the shadow table is filled from
    the old rows and takes the place of [tokens]. The SELECT raises when
    the table or one of the six columns does not exist. *)
Definition rebuild_tokens_table_room_schema (db : store) : result store :=
  match tokens db with
  | None => Raise OperationalError
  | Some t =>
    match missing_columns (info t) with
    | _ :: _ => Raise OperationalError
    | [] =>
      let tokens_new := fold_left insert_or_replace (copy_row <$> rows t) [] in
      Ok (Store (Some (Table room_info tokens_new)) (user_version db))
    end
  end.

Definition ensure_schema (db : store) : result store :=
  match tokens db with
  | None => Ok (Store (Some (Table room_info [])) (user_version db))
  | Some _ =>
    if fst (schema_is_room_compatible db) then Ok db
    else rebuild_tokens_table_room_schema db
  end.

(** A patch entry: a JSON object whose values are strings or null. *)
Abbreviation item := (gmap string pyval).

(** The JSON document of a patch file. *)
Inductive patch :=
| PatchItems (items : list item)   (* an object with a list under "items" *)
| PatchList (items : list item)    (* a list *)
| PatchMap (entries : list (string * option item))
    (* any other object, in key order; [None]: the value is not an
       object *)
| PatchOther.                      (* anything else *)

(** The normalisation at the head of [apply_patches]; [None] stands for
    ValueError. In the map form [{"cgId": k, **v}] lets a "cgId" of [v]
    win over the key. *)
Definition normalize (p : patch) : option (list item) :=
  match p with
  | PatchItems items => Some items
  | PatchList items => Some items
  | PatchMap entries =>
    Some (omap (fun kv => (fun v : item => v ∪ {["cgId" := PyStr (fst kv)]})
                            <$> snd kv) entries)
  | PatchOther => None
  end.

(** [(it.get("cgId") or it.get("id") or "").strip()]. *)
Definition item_cgId (it : item) : string :=
  match por (get it "cgId") (por (get it "id") (PyStr "")) with
  | PyStr s => strip s
  | PyNone => ""
  end.

(** [x if x else None], bound to a [?]. *)
Definition param_or_null (v : pyval) : option string :=
  if truthy v then Builder.bind_param v else None.

(** UPDATE tokens SET description = COALESCE(?, description),
    imageUrl = COALESCE(?, imageUrl), updatedAt = ? WHERE cgId = ?. *)
Definition patch_update (desc img : option string) (ts : Z) (k : string)
           (rs : list token) : list token :=
  sql_update k (fun r => Token (cgId r) (symbol r) (name r)
                               (coalesce desc (description r))
                               (coalesce img (imageUrl r))
                               (Some ts)) rs.

(** The [for it in items] loop; the counters are
    [(updated, missing, skipped)]. *)
Fixpoint patch_loop (dry_run : bool) (ts : Z) (items : list item)
         (db : store) (c : Z * Z * Z) : result (store * (Z * Z * Z)) :=
  match items with
  | [] => Ok (db, c)
  | it :: rest =>
    let '(updated, missing, skipped) := c in
    let k := item_cgId it in
    if String.eqb k "" then
      patch_loop dry_run ts rest db (updated, missing, skipped + 1)
    else
      let desc := get it "description" in
      let img := get it "imageUrl" in
      match tokens db with
      | None => Raise OperationalError
      | Some t =>
        if negb (sql_exists k (rows t)) then
          patch_loop dry_run ts rest db (updated, missing + 1, skipped)
        else if is_blank desc && is_blank img then
          patch_loop dry_run ts rest db (updated, missing, skipped + 1)
        else if dry_run then
          patch_loop dry_run ts rest db (updated + 1, missing, skipped)
        else
          patch_loop dry_run ts rest
            (set_rows db (patch_update (param_or_null desc)
                                       (param_or_null img) ts k (rows t)))
            (updated + 1, missing, skipped)
      end
  end.

(** [apply_patches(conn, patch, dry_run)]; [ts] is the value of
    [now_ts()]. *)
Definition apply_patches (db : store) (p : patch) (dry_run : bool) (ts : Z)
  : result (store * (Z * Z * Z)) :=
  match normalize p with
  | None => Raise ValueError
  | Some items => patch_loop dry_run ts items db (0, 0, 0)
  end.

Record args := Args {
  arg_patch             : list (patch * Z);
    (* the loaded patch files, each with the [now_ts()] of its call *)
  arg_bump_user_version : bool;
  arg_set_user_version  : option Z;
  arg_dry_run           : bool
}.

(** The [for p in args.patch] loop of [main]. *)
Fixpoint apply_all (dry_run : bool) (ps : list (patch * Z)) (db : store)
         (tot : Z * Z * Z) : result (store * (Z * Z * Z)) :=
  match ps with
  | [] => Ok (db, tot)
  | (p, ts) :: rest =>
    r <- apply_patches db p dry_run ts ;;;
    let '(db', (u, m, s)) := r in
    let '(tu, tm, tsk) := tot in
    apply_all dry_run rest db' (tu + u, tm + m, tsk + s)
  end.

(** The [user_version] handling at the end of [main]. *)
Definition handle_user_version (a : args) (db : store) : store :=
  if negb (arg_dry_run a) then
    match arg_set_user_version a with
    | Some v => set_user_version db v
    | None =>
      if arg_bump_user_version a
      then set_user_version db (user_version db + 1)
      else db
    end
  else db.

(** [main], from the opened connection on; the result carries the
    totals [(updated, missing, skipped)]. *)
Definition main (a : args) (db : store) : result (store * (Z * Z * Z)) :=
  db1 <- ensure_schema db ;;;
  r <- apply_all (arg_dry_run a) (arg_patch a) db1 (0, 0, 0) ;;;
  Ok (handle_user_version a (fst r), snd r).

End SafePatch.

(** ** [src/scripts/patch_descriptions.py] *)

Module PatchDescriptions.

Record args := Args {
  arg_overwrite         : bool;
  arg_bump_user_version : bool
}.

Record stats := Stats {
  matched             : Z;
  updated             : Z;
  skipped_already_has : Z
}.

(** SELECT 1 FROM tokens WHERE cgId=? AND description IS NOT NULL AND
    description!='' LIMIT 1. *)
Definition had_description (k : string) (rs : list token) : bool :=
  existsb (fun r => has_key k r && negb (null_or_empty (description r))) rs.

(** The two UPDATE statements; the second component is [rowcount]. *)
Definition update_overwrite (desc k : string) (rs : list token)
  : list token * Z :=
  (sql_update k (fun r => Token (cgId r) (symbol r) (name r) (Some desc)
                                (imageUrl r) (updatedAt r)) rs,
   Z.of_nat (length (filter (fun r => has_key k r = true) rs))).

Definition update_fill (desc k : string) (rs : list token)
  : list token * Z :=
  (map (fun r => if has_key k r && null_or_empty (description r)
                 then Token (cgId r) (symbol r) (name r) (Some desc)
                            (imageUrl r) (updatedAt r)
                 else r) rs,
   Z.of_nat (length (filter (fun r => has_key k r
                                      && null_or_empty (description r) = true)
                            rs))).

(** The [for cg_id, desc in updates.items()] loop. *)
Fixpoint patch_loop (overwrite : bool) (updates : list (string * string))
         (rs : list token) (st : stats) : list token * stats :=
  match updates with
  | [] => (rs, st)
  | (cg_id, desc) :: rest =>
    if String.eqb cg_id "" || String.eqb desc "" then
      patch_loop overwrite rest rs st
    else if negb (sql_exists cg_id rs) then
      patch_loop overwrite rest rs st
    else
      let st := Stats (matched st + 1) (updated st) (skipped_already_has st) in
      if negb overwrite && had_description cg_id rs then
        patch_loop overwrite rest rs
          (Stats (matched st) (updated st) (skipped_already_has st + 1))
      else
        let '(rs', rowcount) :=
          (if overwrite then update_overwrite else update_fill)
            desc cg_id rs in
        patch_loop overwrite rest rs'
          (if 0 <? rowcount
           then Stats (matched st) (updated st + 1) (skipped_already_has st)
           else st)
  end.

(** [main], from [updates = load_json(args.infile)] on: the items of the
    dict in order. An empty dict returns at once; a missing [tokens]
    table raises RuntimeError and the transaction is rolled back. *)
Definition main (a : args) (updates : list (string * string)) (db : store)
  : result (store * stats) :=
  match updates with
  | [] => Ok (db, Stats 0 0 0)
  | _ =>
    let before_uv := user_version db in
    match tokens db with
    | None => Raise RuntimeError
    | Some t =>
      let '(rs, st) :=
        patch_loop (arg_overwrite a) updates (rows t) (Stats 0 0 0) in
      let db := set_rows db rs in
      let db :=
        if arg_bump_user_version a && (0 <? updated st)
        then set_user_version db (before_uv + 1)
        else db in
      Ok (db, st)
    end
  end.

End PatchDescriptions.

(** ** Specification-side definitions *)

Module Spec.
Import SafePatch.

(** The outcome of one patch entry as the specification words it: no
    identifier, skipped; identifier absent from the store,
    missingInStore; both provided fields empty, skipped; otherwise
    updated. *)
Inductive entry_class := Updated | MissingInStore | Skipped.

#[global] Instance entry_class_eq_dec : EqDecision entry_class.
Proof. solve_decision. Defined.

Definition classify (rs : list token) (it : item) : entry_class :=
  if bool_decide (item_cgId it = "") then Skipped
  else if bool_decide (Exists (fun r => cgId r = Some (item_cgId it)) rs)
  then
    if bool_decide (is_blank (get it "description") = true
                    ∧ is_blank (get it "imageUrl") = true)
    then Skipped else Updated
  else MissingInStore.

Definition count_class (c : entry_class) (rs : list token)
           (items : list item) : Z :=
  Z.of_nat (length (filter (fun it => classify rs it = c) items)).

(** [(updated, missingInStore, skipped)] of a batch against a store. *)
Definition counts (rs : list token) (items : list item) : Z * Z * Z :=
  (count_class Updated rs items,
   count_class MissingInStore rs items,
   count_class Skipped rs items).

(** A non-empty text value. *)
Definition filled (x : option string) : Prop :=
  ∃ s, x = Some s ∧ s ≠ "".

(** The incomplete records of the specification: description or image
    reference null or empty. *)
Definition incomplete (r : token) : Prop :=
  ¬ filled (description r) ∨ ¬ filled (imageUrl r).

(** The primary key constraint on [cgId]: no two rows share a non-null
    identifier. *)
Definition primary_key (rs : list token) : Prop :=
  ∀ i j r r' k, rs !! i = Some r → rs !! j = Some r' →
                cgId r = Some k → cgId r' = Some k → i = j.

End Spec.

(** ** Updates seen row by row *)

(** A sequence of [UPDATE ... WHERE cgId = ?] statements, each with its key
    and its SET clause. *)
Definition apply_ops (ops : list (string * (token -> token)))
           (rs : list token) : list token :=
  fold_left (fun rs o => sql_update (fst o) (snd o) rs) ops rs.

Definition row_ops (ops : list (string * (token -> token))) (r : token)
  : token :=
  fold_left (fun r o => if has_key (fst o) r then snd o r else r) ops r.

(** The statements a non-dry [apply_patches] executes on rows [rs]: one
    per entry classified as updated. *)
Definition patch_ops (ts : Z) (rs : list token)
           (items : list (gmap string pyval))
  : list (string * (token -> token)) :=
  omap (fun it =>
          if decide (Spec.classify rs it = Spec.Updated)
          then Some (SafePatch.item_cgId it,
                     fun r => Token (cgId r) (symbol r) (name r)
                       (coalesce (SafePatch.param_or_null (get it "description"))
                                 (description r))
                       (coalesce (SafePatch.param_or_null (get it "imageUrl"))
                                 (imageUrl r))
                       (Some ts))
          else None) items.

(** The statements [enrich_details] of [build_prebuilt_tokens.py]
    executes: one per identifier whose fetch succeeds. *)
Definition tokens_enrich_ops (strip_html : string -> string)
           (fetch : string -> result Builder.coin) (now : Z)
           (skip_images : bool) (ids : list string)
  : list (string * (token -> token)) :=
  omap (fun cid =>
          match fetch cid with
          | Ok data =>
            Some (cid,
                  fun r => Token (cgId r) (symbol r) (name r)
                    (Builder.bind_param (Builder.coin_desc strip_html data))
                    (Builder.bind_param
                       (if skip_images then PyNone
                        else BuildPrebuiltTokens._pick_image
                               (Builder.coin_image data)))
                    (Some now))
          | Raise _ => None
          end) ids.


(** The SET clause of the seed upsert and the statement one upstream row
    amounts to on a store that holds its key. *)
Definition set_symbol_name (sym nm : string) (r : token) : token :=
  Token (cgId r) (Some sym) (Some nm) (description r) (imageUrl r)
        (updatedAt r).

Definition seed_param_of (e : string * string * string) : Builder.seed_param :=
  let '(k, sym, nm) := e in (k, sym, nm, k, k, k).

Definition seed_op (e : string * string * string)
  : string * (token -> token) :=
  let '(k, sym, nm) := e in (k, set_symbol_name sym nm).

(** ** Concrete stores and batches *)

Definition seeded (k : string) : token :=
  Token (Some k) (Some "SYM") (Some "Name") None None (Some 0).

Definition entry (k : string) (desc img : pyval) : gmap string pyval :=
  {[ "cgId" := PyStr k; "description" := desc; "imageUrl" := img ]}.

(** A store of seven seeded rows. *)
Definition store7 : store :=
  Store (Some (Table SafePatch.room_info
                     (seeded <$> ["a"; "b"; "c"; "d"; "e"; "f"; "g"]))) 3.

(** Ten entries: three identifiers absent from [store7], two entries with
    both fields empty, five fills. *)
Definition batch10 : SafePatch.patch :=
  SafePatch.PatchList
    [ entry "x" (PyStr "X") PyNone;
      entry "a" (PyStr "about a") PyNone;
      entry "b" PyNone PyNone;
      entry "y" PyNone (PyStr "y.png");
      entry "c" PyNone (PyStr "c.png");
      entry "d" (PyStr "about d") (PyStr "d.png");
      entry "e" (PyStr "") (PyStr "");
      entry "z" (PyStr "Z") (PyStr "z.png");
      entry "f" (PyStr "about f") PyNone;
      entry "g" (PyStr "about g") (PyStr "") ].

(** The layout the builders create ([TOKENS_SQL]): a primary key and no
    NOT NULL constraint. *)
Definition builder_info : list column :=
  [ Column "cgId" 0 1; Column "symbol" 0 0; Column "name" 0 0;
    Column "description" 0 0; Column "imageUrl" 0 0; Column "updatedAt" 0 0 ].

(** A builder-made store: one row seeded and not yet enriched, one row
    enriched. *)
Definition legacy_store : store :=
  Store (Some (Table builder_info
                     [ Token (Some "btc") (Some "btc") (Some "Bitcoin")
                             None None (Some 0);
                       Token (Some "eth") (Some "eth") (Some "Ethereum")
                             (Some "A chain.") (Some "eth.png")
                             (Some 1700000000) ])) 1.

(** A store in the Room layout holding one enriched row. *)
Definition eth_row : token :=
  Token (Some "eth") (Some "eth") (Some "Ethereum") (Some "A chain.")
        (Some "eth.png") (Some 1700000000).

Definition room_store : store :=
  Store (Some (Table SafePatch.room_info [eth_row])) 1.

(** A patch that repeats what the store holds, and one that differs. *)
Definition same_patch : SafePatch.patch :=
  SafePatch.PatchList [entry "eth" (PyStr "A chain.") (PyStr "eth.png")].

Definition other_patch : SafePatch.patch :=
  SafePatch.PatchList [entry "eth" (PyStr "Another text.") PyNone].

(** A patch whose only identifier is not in the store. *)
Definition stray_patch : SafePatch.patch :=
  SafePatch.PatchList [entry "zzz" (PyStr "Z") PyNone].

(** Upstream answers for the enrich pass: the markets endpoint fails, the
    coin endpoint answers with a description, or with an empty object. *)
Definition markets_down : list string -> result (list (gmap string pyval)) :=
  fun _ => Raise ConnectionError.

Definition fetch_text : string -> result Builder.coin :=
  fun _ => Ok (Builder.Coin {[ "en" := PyStr "New text." ]} ∅).

Definition fetch_bare : string -> result Builder.coin :=
  fun _ => Ok (Builder.Coin ∅ ∅).

(** A row that has its description and still lacks its image. *)
Definition eth_no_image : token :=
  Token (Some "eth") (Some "eth") (Some "Ethereum") (Some "A chain.")
        None (Some 1700000000).

(** Inputs of the fetcher: jitter sources, clocks and scripts of
    responses. [top_jitter] draws the largest value [random.random()]
    returns. On [idle_clock] the attempts are 100 s apart; on
    [busy_clock] attempt [k] starts 5 s after attempt [k - 1] left
    [_throttle], which then sleeps, and leaves it 10 s later. *)
Definition half_jitter : Z -> Q := fun _ => (1 # 2)%Q.

Definition top_jitter : Z -> Q :=
  fun _ => (1 - (1 # 9007199254740992))%Q.

(** The floats 0.4, 0.5 and 1 - 2^-53, and the backoffs 2, 4, 8, 16, 32,
    60 and 64, as mantissa and exponent. *)
Definition sf_04 : spec_float := S754_finite false 7205759403792794 (-54).
Definition sf_half : spec_float := S754_finite false 4503599627370496 (-53).
Definition sf_top : spec_float := S754_finite false 9007199254740991 (-53).
Definition sf_backoffs : list (Q * spec_float) :=
  [ (2%Q, S754_finite false 4503599627370496 (-51));
    (4%Q, S754_finite false 4503599627370496 (-50));
    (8%Q, S754_finite false 4503599627370496 (-49));
    (16%Q, S754_finite false 4503599627370496 (-48));
    (32%Q, S754_finite false 4503599627370496 (-47));
    (60%Q, S754_finite false 8444249301319680 (-47));
    (64%Q, S754_finite false 4503599627370496 (-46)) ].

Definition idle_clock : Z -> Q * Q :=
  fun k => (inject_Z (1700000000 + 100 * k),
            inject_Z (1700000000 + 100 * k)).

Definition busy_clock : Z -> Q * Q :=
  fun k => (inject_Z (1700000000 + 15 * k),
            inject_Z (1700000000 + 15 * k + 10)).

Definition three_429 : list (Fetcher.response unit) :=
  [ Fetcher.Http 429 Fetcher.NoRetryAfter None;
    Fetcher.Http 429 Fetcher.NoRetryAfter None;
    Fetcher.Http 429 Fetcher.NoRetryAfter None ].

(** Seven 429s whose Retry-After is an HTTP-date. *)
Definition seven_dated_429 : list (Fetcher.response unit) :=
  repeat (Fetcher.Http 429 Fetcher.RetryAfterInvalid None) 7.

(** ** Further definitions for the properties of the code *)

(** The wait a retried attempt sleeps: the Retry-After value when the
    response carries one, the backoff wait otherwise. *)
Definition wait_of {B} (cfg : Fetcher.config) (u : Z -> Q) (attempt : Z)
           (r : Fetcher.response B) : Q :=
  match r with
  | Fetcher.Http _ ra _ => default 0%Q (Fetcher.status_wait cfg u attempt ra)
  | Fetcher.TimedOut | Fetcher.ConnFailed => Fetcher.backoff_wait cfg u attempt
  end.

(** The sleeps of attempts [a + 1, a + 2, ...] over a run of retried
    responses, in order: for each attempt what [_throttle] sleeps, then
    the wait; and [_last_call_ts] after them. *)
Fixpoint naps_of {B} (cfg : Fetcher.config) (u : Z -> Q)
         (clock : Z -> Q * Q) (a : Z) (last : Q)
         (pre : list (Fetcher.response B)) : list Fetcher.nap * Q :=
  match pre with
  | [] => ([], last)
  | r :: pre' =>
    let g := Fetcher.gate cfg clock (a + 1) last in
    let rest := naps_of cfg u clock (a + 1) (snd g) pre' in
    (fst g ++ Fetcher.Waited (wait_of cfg u (a + 1) r) :: fst rest, snd rest)
  end.

(** A trace laid out by attempts: what [_throttle] slept at the head of
    each attempt, and one wait between two consecutive attempts. *)
Fixpoint weave (gates : list (list Fetcher.nap)) (ws : list Q)
  : list Fetcher.nap :=
  match gates with
  | [] => []
  | g :: gates' =>
    match ws with
    | [] => g
    | w :: ws' => g ++ Fetcher.Waited w :: weave gates' ws'
    end
  end.

(** What [_throttle] may add to a trace: nothing, or one sleep of
    positive length. *)
Definition gate_shape (g : list Fetcher.nap) : Prop :=
  g = [] ∨ ∃ d, g = [Fetcher.Spaced d] ∧ (0 < d)%Q.

(** The waits of attempts [a + 1, a + 2, ...] over a run of responses. *)
Fixpoint waits_of {B} (cfg : Fetcher.config) (u : Z -> Q) (a : Z)
         (pre : list (Fetcher.response B)) : list Q :=
  match pre with
  | [] => []
  | r :: pre' => wait_of cfg u (a + 1) r :: waits_of cfg u (a + 1) pre'
  end.

(** Two failed attempts: a 503 with Retry-After and a timeout; and six
    timeouts. *)
Definition flaky_prefix : list (Fetcher.response unit) :=
  [ Fetcher.Http 503 (Fetcher.RetryAfterSecs 5) None; Fetcher.TimedOut ].

Definition six_timeouts : list (Fetcher.response unit) :=
  repeat Fetcher.TimedOut 6.

(** What the seed phase keeps of a row: identifier and detail columns. *)
Definition seed_keeps (r r' : token) : Prop :=
  cgId r' = cgId r ∧ description r' = description r
  ∧ imageUrl r' = imageUrl r ∧ updatedAt r' = updatedAt r.

(** A row as the seed phase inserts it: details empty, timestamp 0. *)
Definition freshly_seeded (r : token) : Prop :=
  is_Some (cgId r) ∧ description r = None ∧ imageUrl r = None
  ∧ updatedAt r = Some 0.

(** The number of entries the patch files of a run hold, a file that is no
    patch counting for none. *)
Definition patch_entries (ps : list (SafePatch.patch * Z)) : Z :=
  fold_right (fun p n => Z.of_nat (length (default [] (SafePatch.normalize (fst p)))) + n)
             0 ps.

(** The statements the per-id loop of [enrich_details] of
    [build_prebuilt_db.py] executes: one per identifier whose fetch
    succeeds. *)
Definition db_desc_ops (strip_html : string -> string)
           (fetch : string -> result Builder.coin) (now : Z)
           (need_desc : list string) : list (string * (token -> token)) :=
  omap (fun cid =>
          match fetch cid with
          | Ok data =>
            Some (cid,
                  fun r => Token (cgId r) (symbol r) (name r)
                    (Builder.bind_param (Builder.coin_desc strip_html data))
                    (imageUrl r) (Some now))
          | Raise _ => None
          end) need_desc.

(** An input of [patch_descriptions.py]. *)
Definition two_descriptions : list (string * string) :=
  [("eth", "Another text."); ("zzz", "Z")].

(** ** The target universe: [fetch_crypto_com_symbols] and
    [map_symbols_to_cg_ids]

    Both are modelled from the decoded JSON on: the list of instruments
    and the list of coins, objects whose values are strings or null.
    [str.upper] is a parameter. *)

Module Universe.

(** The order of [sorted] on [str]. *)
Definition string_le (a b : string) : Prop := String.leb a b = true.

#[global] Instance string_le_dec a b : Decision (string_le a b).
Proof. unfold string_le. apply _. Defined.

(** [sorted(bases)] for a set of strings. *)
Definition sorted (bases : gset string) : list string :=
  merge_sort string_le (elements bases).

(** The string a value of [x or ""] is. *)
Definition or_empty (v : pyval) : string :=
  match por v (PyStr "") with
  | PyStr s => s
  | PyNone => ""
  end.

(** The character of ["_" in symbol_name]. *)
Definition underscore : Ascii.ascii := Ascii.ascii_of_nat 95.

(** [c in s] for a character. *)
Fixpoint contains_char (c : Ascii.ascii) (s : string) : bool :=
  match s with
  | EmptyString => false
  | String c' s' => bool_decide (c = c') || contains_char c s'
  end.

(** [needle in s] for a string. *)
Fixpoint contains (needle s : string) : bool :=
  String.prefix needle s
  || match s with
     | EmptyString => false
     | String _ s' => contains needle s'
     end.

Section Upper.
Variable upper : string -> string.

(** The loop of [fetch_crypto_com_symbols], given what an instrument is
    accepted on and what its base is. *)
Definition collect_bases (accepts : gmap string pyval -> bool)
           (base_of : gmap string pyval -> string)
           (items : list (gmap string pyval)) : gset string :=
  fold_left (fun bases it =>
               if accepts it && negb (String.eqb (base_of it) "")
               then {[ base_of it ]} ∪ bases else bases)
            items ∅.

(** [build_prebuilt_db.py]. *)
Definition db_accepts (it : gmap string pyval) : bool :=
  let inst_type := upper (or_empty (get it "inst_type")) in
  let symbol_name := or_empty (get it "symbol") in
  bool_decide (inst_type = "SPOT" ∨ inst_type = "CCY_PAIR")
  || contains_char underscore symbol_name.

Definition db_base (it : gmap string pyval) : string :=
  upper (or_empty (get it "base_ccy")).

Definition db_fetch_crypto_com_symbols (items : list (gmap string pyval))
  : list string :=
  sorted (collect_bases db_accepts db_base items).

(** [build_prebuilt_tokens.py]. *)
Definition tokens_accepts (it : gmap string pyval) : bool :=
  let inst_type :=
    upper (or_empty (por (get it "inst_type")
                         (por (get it "instrument_type") (get it "type")))) in
  let symbol_name :=
    strip (or_empty (por (get it "symbol")
                         (por (get it "instrument_name")
                              (get it "instrument")))) in
  let is_pair_like :=
    contains_char underscore symbol_name
    && negb (contains "-PERP" (upper symbol_name)) in
  bool_decide (inst_type = "SPOT" ∨ inst_type = "CCY_PAIR") || is_pair_like.

Definition tokens_base (it : gmap string pyval) : string :=
  strip (upper (or_empty (por (get it "base_ccy")
                              (por (get it "base_currency")
                                   (get it "base"))))).

Definition tokens_fetch_crypto_com_symbols (items : list (gmap string pyval))
  : list string :=
  sorted (collect_bases tokens_accepts tokens_base items).

(** [(c.get("symbol") or "").upper()]. *)
Definition sym_key (c : gmap string pyval) : string :=
  upper (or_empty (get c "symbol")).

(** The index [by_sym]: [by_sym.setdefault(sym, []).append(c)];
    [skip_empty] is the [if not sym: continue] of
    [build_prebuilt_tokens.py]. *)
Definition index_coins (skip_empty : bool) (coins : list (gmap string pyval))
  : gmap string (list (gmap string pyval)) :=
  fold_left (fun by_sym c =>
               let sym := sym_key c in
               if skip_empty && String.eqb sym "" then by_sym
               else <[ sym := default [] (by_sym !! sym) ++ [c] ]> by_sym)
            coins ∅.

(** [(chosen["id"], chosen["symbol"],
      chosen.get("name", chosen["symbol"]))]; [None] is KeyError. *)
Definition triple_of (chosen : gmap string pyval)
  : option (pyval * pyval * pyval) :=
  match chosen !! "id", chosen !! "symbol" with
  | Some i, Some s => Some (i, s, default s (chosen !! "name"))
  | _, _ => None
  end.

(** The [for sym in symbols] loop. *)
Fixpoint map_loop (by_sym : gmap string (list (gmap string pyval)))
         (symbols : list string) (mapped : list (pyval * pyval * pyval))
  : option (list (pyval * pyval * pyval)) :=
  match symbols with
  | [] => Some mapped
  | sym :: rest =>
    match by_sym !! upper sym with
    | Some (chosen :: _) =>
      match triple_of chosen with
      | Some t => map_loop by_sym rest (mapped ++ [t])
      | None => None
      end
    | _ => map_loop by_sym rest mapped
    end
  end.

Definition map_symbols_to_cg_ids (skip_empty : bool)
           (coins : list (gmap string pyval)) (symbols : list string)
  : option (list (pyval * pyval * pyval)) :=
  map_loop (index_coins skip_empty coins) symbols [].

(** The docstring's rule, said directly: for each symbol in turn, the
    first coin of the list whose symbol matches, if there is one. *)
Definition first_match (skip_empty : bool) (coins : list (gmap string pyval))
           (sym : string) : option (gmap string pyval) :=
  head (filter (fun c => sym_key c = upper sym
                         ∧ (skip_empty = true → sym_key c ≠ "")) coins).

Fixpoint spec_map (skip_empty : bool) (coins : list (gmap string pyval))
         (symbols : list string) : option (list (pyval * pyval * pyval)) :=
  match symbols with
  | [] => Some []
  | sym :: rest =>
    match first_match skip_empty coins sym with
    | Some chosen =>
      match triple_of chosen with
      | Some t => cons t <$> spec_map skip_empty coins rest
      | None => None
      end
    | None => spec_map skip_empty coins rest
    end
  end.

End Upper.

End Universe.

(** ** [main] of the two builders, from the opened store on

    [rs] holds the rows of the file at start; [upstream] is what
    [fetch_crypto_com_symbols] and [map_symbols_to_cg_ids] deliver, or the
    exception of their requests, which ends the run before any write. An
    identifier that is NULL addresses no row and is dropped from the
    enrich list. *)

Module Mains.

Definition non_null (ids : list (option string)) : list string :=
  omap (fun x => x) ids.

Section Run.
Variable strip_html : string -> string.
Variable markets : list string -> result (list (gmap string pyval)).
Variable fetch : string -> result Builder.coin.
Variable now : Z.

(** [main] of [build_prebuilt_tokens.py]. *)
Definition tokens_main (resume force skip_images : bool)
           (upstream : result (list (string * string * string)))
           (rs : list token) : result (list token) :=
  let rs := if negb resume && force then [] else rs in
  if resume then
    let ids := BuildPrebuiltTokens.list_ids_needing_enrich rs skip_images in
    match ids with
    | [] => Ok rs
    | _ => Ok (BuildPrebuiltTokens.enrich_details strip_html fetch now rs
                 (non_null ids) skip_images)
    end
  else
    rows <- upstream ;;;
    let rs := BuildPrebuiltTokens.seed_rows_from_crypto_com rs rows in
    let ids := BuildPrebuiltTokens.list_ids_needing_enrich rs skip_images in
    Ok (BuildPrebuiltTokens.enrich_details strip_html fetch now rs
          (non_null ids) skip_images).


End Run.

End Mains.

(** An upstream that answers every coin with a description and an
    image. *)
Definition fetch_full : string -> result Builder.coin :=
  fun _ => Ok (Builder.Coin {[ "en" := PyStr "New text." ]}
                            {[ "large" := PyStr "large.png" ]}).

(** Clock readings of two throttled calls, 3 s and 20 s after the last
    request. *)
Definition two_calls : list (Q * Q) :=
  [ (3, 15)%Q; (35, 35)%Q ].

(** * Theorems *)

Lemma apply_ops_map ops rs : apply_ops ops rs = map (row_ops ops) rs.
Proof.
  revert rs. induction ops as [|o ops IH]; intros rs; simpl.
  - by rewrite map_id.
  - unfold apply_ops in IH. rewrite IH. unfold sql_update.
    rewrite map_map. reflexivity.
Qed.

Lemma has_key_true k r : has_key k r = true ↔ cgId r = Some k.
Proof. unfold has_key. by rewrite bool_decide_eq_true. Qed.

Lemma sql_exists_true k rs :
  sql_exists k rs = true ↔ Exists (fun r => cgId r = Some k) rs.
Proof.
  unfold sql_exists. rewrite existsb_exists, Exists_exists.
  split; intros (r & Hin & Hr); exists r.
  - apply list_elem_of_In in Hin. by rewrite has_key_true in Hr.
  - rewrite <- list_elem_of_In, has_key_true. done.
Qed.

Lemma sql_exists_update k k' f rs :
  (∀ r, cgId (f r) = cgId r) →
  sql_exists k (sql_update k' f rs) = sql_exists k rs.
Proof.
  intros Hf. unfold sql_exists, sql_update.
  induction rs as [|r rs IH]; simpl; [done|].
  rewrite IH. f_equal. unfold has_key at 1 3.
  destruct (has_key k' r); [|done].
  by rewrite Hf.
Qed.

Lemma length_sql_update k f rs : length (sql_update k f rs) = length rs.
Proof. unfold sql_update. by rewrite length_map. Qed.

Import SafePatch Spec.

Lemma classify_code rs it :
  classify rs it =
  if String.eqb (item_cgId it) "" then Skipped
  else if negb (sql_exists (item_cgId it) rs) then MissingInStore
  else if is_blank (get it "description") && is_blank (get it "imageUrl")
  then Skipped else Updated.
Proof.
  unfold classify.
  destruct (String.eqb_spec (item_cgId it) "") as [He|He].
  - by rewrite bool_decide_eq_true_2.
  - rewrite bool_decide_eq_false_2 by done.
    destruct (sql_exists (item_cgId it) rs) eqn:Hex; cbn [negb].
    + rewrite bool_decide_eq_true_2 by (by apply sql_exists_true).
      case_bool_decide as Hb.
      * destruct Hb as [-> ->]. done.
      * destruct (is_blank (get it "description")),
                 (is_blank (get it "imageUrl")); try done.
        by destruct Hb.
    + rewrite bool_decide_eq_false_2; [done|].
      intros Hx. apply sql_exists_true in Hx. congruence.
Qed.

Lemma classify_ext rs1 rs2 it :
  (∀ k, sql_exists k rs1 = sql_exists k rs2) →
  classify rs1 it = classify rs2 it.
Proof. intros H. by rewrite !classify_code, H. Qed.

Lemma count_class_cons c rs it items :
  count_class c rs (it :: items) =
  (if decide (classify rs it = c) then 1 else 0) + count_class c rs items.
Proof.
  unfold count_class. rewrite filter_cons.
  destruct (decide (classify rs it = c)); simpl length; lia.
Qed.

Lemma count_class_ext c rs1 rs2 items :
  (∀ k, sql_exists k rs1 = sql_exists k rs2) →
  count_class c rs1 items = count_class c rs2 items.
Proof.
  intros H. induction items as [|it items IH]; [done|].
  by rewrite !count_class_cons, IH, (classify_ext rs1 rs2).
Qed.

Lemma patch_ops_ext ts rs1 rs2 items :
  (∀ k, sql_exists k rs1 = sql_exists k rs2) →
  patch_ops ts rs1 items = patch_ops ts rs2 items.
Proof.
  intros H. unfold patch_ops. induction items as [|it items IH]; [done|].
  csimpl. by rewrite IH, (classify_ext rs1 rs2).
Qed.

Lemma sql_exists_patch_update k d i ts k' rs :
  sql_exists k (patch_update d i ts k' rs) = sql_exists k rs.
Proof. unfold patch_update. by apply sql_exists_update. Qed.

Ltac counts_eq :=
  repeat (case_decide; try done);
  f_equal; apply (f_equal2 pair);
  [ try reflexivity
  | apply (f_equal2 pair); [apply (f_equal2 pair)|]; lia ].

Lemma patch_loop_ok dry ts items : ∀ i rs uv u m s,
  patch_loop dry ts items (Store (Some (Table i rs)) uv) (u, m, s) =
  Ok (Store (Some (Table i (if dry then rs
                            else apply_ops (patch_ops ts rs items) rs))) uv,
      (u + count_class Updated rs items,
       m + count_class MissingInStore rs items,
       s + count_class Skipped rs items)).
Proof.
  induction items as [|it items IH]; intros i rs uv u m s.
  - simpl. unfold count_class; simpl. rewrite !Z.add_0_r. by destruct dry.
  - cbn [patch_loop]. rewrite !count_class_cons.
    unfold patch_ops; csimpl; fold (patch_ops ts rs items).
    rewrite (classify_code rs it).
    destruct (String.eqb (item_cgId it) ""); [rewrite IH; counts_eq|].
    cbn [tokens rows].
    destruct (sql_exists (item_cgId it) rs) eqn:Hex; cbn [negb];
      [|rewrite IH; counts_eq].
    destruct (is_blank (get it "description") && is_blank (get it "imageUrl"));
      [rewrite IH; counts_eq|].
    destruct dry; [rewrite IH; counts_eq|].
    unfold set_rows; cbn [tokens info user_version].
    rewrite IH.
    set (rs1 := patch_update _ _ _ _ rs).
    assert (Hinv : ∀ k, sql_exists k rs1 = sql_exists k rs)
      by (intros k; apply sql_exists_patch_update).
    rewrite (patch_ops_ext ts rs1 rs), !(count_class_ext _ rs1 rs) by done.
    counts_eq.
Qed.

Lemma apply_patches_ok i rs uv p dry ts items :
  normalize p = Some items →
  apply_patches (Store (Some (Table i rs)) uv) p dry ts =
  Ok (Store (Some (Table i (if dry then rs
                            else apply_ops (patch_ops ts rs items) rs))) uv,
      counts rs items).
Proof.
  intros Hn. unfold apply_patches. rewrite Hn, patch_loop_ok.
  unfold counts. by rewrite !Z.add_0_l.
Qed.

Lemma counts_partition rs items :
  count_class Updated rs items + count_class MissingInStore rs items
  + count_class Skipped rs items = Z.of_nat (length items).
Proof.
  induction items as [|it items IH]; [done|].
  rewrite !count_class_cons. cbn [length]. rewrite Nat2Z.inj_succ.
  destruct (classify rs it); repeat (case_decide; try done); lia.
Qed.

(** C6. The counts [apply_patches] returns partition the batch. Every
    entry falls in exactly one class, decided in this order: no
    identifier, skipped; identifier absent from the store, missing; both
    provided fields empty, skipped; otherwise updated. The three counts
    are the sizes of the classes and add up to the size of the batch. On
    a batch of ten entries against a seven-row store, with three absent
    identifiers, two entries with both fields empty and five fills, the
    result is (5, 3, 2). A document that is no patch raises ValueError. *)
Theorem apply_patches_counts_partition :
  (∀ t uv p dry ts,
     match normalize p with
     | Some items =>
       (∃ db', apply_patches (Store (Some t) uv) p dry ts
               = Ok (db', counts (rows t) items))
       ∧ count_class Updated (rows t) items
         + count_class MissingInStore (rows t) items
         + count_class Skipped (rows t) items = Z.of_nat (length items)
     | None => apply_patches (Store (Some t) uv) p dry ts = Raise ValueError
     end)
  ∧ ∃ db', apply_patches store7 batch10 false 1700000000 = Ok (db', (5, 3, 2)).
Proof.
  split.
  - intros [i rs] uv p dry ts. destruct (normalize p) as [items|] eqn:Hn.
    + split; [|apply counts_partition].
      eexists. by apply apply_patches_ok.
    + unfold apply_patches. by rewrite Hn.
  - eexists. vm_compute. reflexivity.
Qed.

Lemma patch_loop_no_table dry ts items : ∀ uv c,
  match patch_loop dry ts items (Store None uv) c with
  | Ok (db', c') =>
    db' = Store None uv
    ∧ patch_loop true ts items (Store None uv) c = Ok (Store None uv, c')
  | Raise e => patch_loop true ts items (Store None uv) c = Raise e
  end.
Proof.
  induction items as [|it items IH]; intros uv [[u m] s].
  - done.
  - cbn [patch_loop tokens]. destruct (String.eqb (item_cgId it) "").
    + apply IH.
    + done.
Qed.

(** C10. A dry run of [apply_patches] is pure. Whenever the real run
    returns counts, the dry run returns the same counts and hands back the
    store as it was: every row and [user_version] unchanged; whenever the
    real run raises, the dry run raises the same exception. On a store
    that has a [tokens] table the dry run of a parseable batch does return.
    The [user_version] step of [main] does nothing under [--dry-run]. *)
Theorem apply_patches_dry_run_pure :
  (∀ db p ts,
     match apply_patches db p false ts with
     | Ok (_, c) => apply_patches db p true ts = Ok (db, c)
     | Raise e => apply_patches db p true ts = Raise e
     end)
  ∧ (∀ t uv p ts,
       match normalize p with
       | Some items =>
         apply_patches (Store (Some t) uv) p true ts
         = Ok (Store (Some t) uv, counts (rows t) items)
         ∧ ∃ db', apply_patches (Store (Some t) uv) p false ts
                  = Ok (db', counts (rows t) items)
       | None => True
       end)
  ∧ (∀ ps bump set db,
       handle_user_version (Args ps bump set true) db = db).
Proof.
  split; [|split].
  - intros [[[i rs]|] uv] p ts.
    + destruct (normalize p) as [items|] eqn:Hn.
      * by rewrite !(apply_patches_ok _ _ _ _ _ _ items).
      * unfold apply_patches. by rewrite Hn.
    + unfold apply_patches. destruct (normalize p) as [items|]; [|done].
      pose proof (patch_loop_no_table false ts items uv (0, 0, 0)) as H.
      destruct (patch_loop false ts items _ _) as [[db' c']|e]; [|done].
      by destruct H as [-> ->].
  - intros [i rs] uv p ts. destruct (normalize p) as [items|] eqn:Hn; [|done].
    split; [|eexists]; by rewrite (apply_patches_ok _ _ _ _ _ _ items).
  - done.
Qed.

Lemma null_or_empty_true x : null_or_empty x = true ↔ ¬ filled x.
Proof.
  unfold null_or_empty, filled. destruct x as [s|].
  - destruct (String.eqb_spec s "") as [->|Hne]; split; try done.
    + intros _ (s & [= <-] & Hs). done.
    + intros H. destruct H. eauto.
  - split; [|done]. intros _ (s & [=] & _).
Qed.


Lemma elem_of_select (P : token → bool) (rs : list token) (k : option string) :
  k ∈ map cgId (filter (fun r => P r = true) rs)
  ↔ ∃ r, r ∈ rs ∧ cgId r = k ∧ P r = true.
Proof.
  change (map cgId) with (fmap (M:=list) cgId).
  rewrite list_elem_of_fmap. split.
  - intros (r & -> & Hr). apply list_elem_of_filter in Hr as [HP Hr]. eauto.
  - intros (r & Hr & <- & HP). exists r. split; [done|].
    apply list_elem_of_filter. done.
Qed.

(** C9, as the code has it. [list_ids_needing_enrich] returns exactly the
    identifiers of the rows whose description or imageUrl is null or
    empty: in [build_prebuilt_db.py] always, in [build_prebuilt_tokens.py]
    when [skip_images] is off. With [skip_images] on it returns exactly
    the identifiers of the rows whose description is null or empty. *)
Theorem list_ids_needing_enrich_exact :
  (∀ rs k, k ∈ BuildPrebuiltDb.list_ids_needing_enrich rs
           ↔ ∃ r, r ∈ rs ∧ cgId r = k ∧ incomplete r)
  ∧ (∀ rs k, k ∈ BuildPrebuiltTokens.list_ids_needing_enrich rs false
             ↔ ∃ r, r ∈ rs ∧ cgId r = k ∧ incomplete r)
  ∧ (∀ rs k, k ∈ BuildPrebuiltTokens.list_ids_needing_enrich rs true
             ↔ ∃ r, r ∈ rs ∧ cgId r = k ∧ ¬ filled (description r)).
Proof.
  assert (Hinc : ∀ r, null_or_empty (description r)
                      || null_or_empty (imageUrl r) = true ↔ incomplete r).
  { intros r. unfold incomplete.
    rewrite orb_true_iff, !null_or_empty_true. done. }
  split; [|split]; intros rs k.
  - unfold BuildPrebuiltDb.list_ids_needing_enrich.
    rewrite (elem_of_select
               (fun r => null_or_empty (description r)
                         || null_or_empty (imageUrl r))).
    by setoid_rewrite Hinc.
  - unfold BuildPrebuiltTokens.list_ids_needing_enrich.
    rewrite (elem_of_select
               (fun r => null_or_empty (description r)
                         || null_or_empty (imageUrl r))).
    by setoid_rewrite Hinc.
  - unfold BuildPrebuiltTokens.list_ids_needing_enrich.
    rewrite (elem_of_select (fun r => null_or_empty (description r))).
    by setoid_rewrite null_or_empty_true.
Qed.

(** C9, as stated, fails: with [skip_images] on, a row that has a
    description and no image is incomplete and is not returned. *)
Lemma list_ids_needing_enrich_skip_images_misses :
  incomplete eth_no_image
  ∧ BuildPrebuiltTokens.list_ids_needing_enrich [eth_no_image] true = []
  ∧ ¬ (∀ rs skip k,
         k ∈ BuildPrebuiltTokens.list_ids_needing_enrich rs skip
         ↔ ∃ r, r ∈ rs ∧ cgId r = k ∧ incomplete r).
Proof.
  assert (Hinc : incomplete eth_no_image).
  { right. intros (s & [=] & _). }
  split; [done|]. split; [done|].
  intros H. specialize (H [eth_no_image] true (Some "eth")).
  destruct H as [_ H].
  assert (Hin : Some "eth"
                ∈ BuildPrebuiltTokens.list_ids_needing_enrich
                    [eth_no_image] true).
  { apply H. exists eth_no_image. split; [by apply list_elem_of_here|done]. }
  vm_compute in Hin. by apply elem_of_nil in Hin.
Qed.

(** *** The seed phase *)

Lemma seed_loop_flush upstream : ∀ buf rs,
  Builder.executemany (snd (Builder.seed_loop upstream buf rs))
                      (fst (Builder.seed_loop upstream buf rs))
  = Builder.executemany (buf ++ (seed_param_of <$> upstream)) rs.
Proof.
  induction upstream as [|[[k sym] nm] rest IH]; intros buf rs.
  - simpl. by rewrite app_nil_r.
  - cbn [Builder.seed_loop]. destruct (500 <=? _)%nat.
    + rewrite IH. unfold Builder.executemany. simpl.
      rewrite <- fold_left_app. f_equal. by rewrite <- app_assoc.
    + rewrite IH. f_equal. by rewrite <- app_assoc.
Qed.

(** The buffered loop is the upserts one after the other. *)
Lemma seed_rows_fold rs upstream :
  Builder.seed_rows rs upstream
  = fold_left Builder.upsert (seed_param_of <$> upstream) rs.
Proof.
  unfold Builder.seed_rows.
  pose proof (seed_loop_flush upstream [] rs) as H.
  destruct (Builder.seed_loop upstream [] rs) as [rs' buf]. simpl in H.
  destruct buf; exact H.
Qed.

Lemma upsert_present rs k sym nm :
  sql_exists k rs = true →
  Builder.upsert rs (seed_param_of (k, sym, nm))
  = sql_update k (set_symbol_name sym nm) rs.
Proof. intros H. unfold Builder.upsert, seed_param_of. by rewrite H. Qed.

Lemma sql_exists_app k rs1 rs2 :
  sql_exists k (rs1 ++ rs2) = sql_exists k rs1 || sql_exists k rs2.
Proof. unfold sql_exists. apply existsb_app. Qed.

Lemma sql_exists_upsert k rs e :
  sql_exists k rs = true →
  sql_exists k (Builder.upsert rs (seed_param_of e)) = true.
Proof.
  intros H. destruct e as [[k' sym] nm]. unfold Builder.upsert, seed_param_of.
  destruct (sql_exists k' rs).
  - by rewrite sql_exists_update.
  - by rewrite sql_exists_app, H.
Qed.

Lemma sql_exists_upsert_key rs k sym nm :
  sql_exists k (Builder.upsert rs (seed_param_of (k, sym, nm))) = true.
Proof.
  unfold Builder.upsert, seed_param_of.
  destruct (sql_exists k rs) eqn:H.
  - by rewrite sql_exists_update.
  - rewrite sql_exists_app, H. simpl. unfold has_key. simpl.
    by rewrite bool_decide_eq_true_2.
Qed.

Lemma row_ops_snoc ops o r :
  row_ops (ops ++ [o]) r
  = if has_key (fst o) (row_ops ops r) then snd o (row_ops ops r)
    else row_ops ops r.
Proof. unfold row_ops. by rewrite fold_left_app. Qed.

Lemma row_ops_seed_cgId up r : cgId (row_ops (seed_op <$> up) r) = cgId r.
Proof.
  revert r. induction up as [|[[k sym] nm] up IH]; intros r; [done|].
  simpl. fold (row_ops (seed_op <$> up)). rewrite IH.
  by destruct (has_key k r).
Qed.

Lemma has_key_row_ops_seed k up r :
  has_key k (row_ops (seed_op <$> up) r) = has_key k r.
Proof. unfold has_key. by rewrite row_ops_seed_cgId. Qed.

Lemma row_ops_seed_absorb up sym nm r :
  set_symbol_name sym nm (row_ops (seed_op <$> up) r) = set_symbol_name sym nm r.
Proof.
  revert r. induction up as [|[[k s] n] up IH]; intros r; [done|].
  simpl. fold (row_ops (seed_op <$> up)). rewrite IH.
  by destruct (has_key k r).
Qed.

(** After a seed pass every upstream key is in the store and replaying
    the upstream rows as plain updates changes no row. *)
Lemma seed_fixed rs up :
  let S := fold_left Builder.upsert (seed_param_of <$> up) rs in
  (∀ e, e ∈ up → sql_exists (fst (fst e)) S = true)
  ∧ (∀ r, r ∈ S → row_ops (seed_op <$> up) r = r).
Proof.
  induction up as [|[[k sym] nm] up IH] using rev_ind; simpl.
  { split; [intros e He; by apply elem_of_nil in He | done]. }
  rewrite !fmap_app, fold_left_app. simpl.
  set (S := fold_left Builder.upsert (seed_param_of <$> up) rs) in *.
  destruct IH as [IHa IHb]. split.
  - intros e He. apply elem_of_app in He as [He|He].
    + apply (sql_exists_upsert _ _ (k, sym, nm)). by apply IHa.
    + apply list_elem_of_singleton in He as ->. simpl.
      apply sql_exists_upsert_key.
  - intros r' Hr'. rewrite row_ops_snoc. cbn [fst snd seed_op].
    rewrite has_key_row_ops_seed, row_ops_seed_absorb.
    unfold Builder.upsert in Hr'.
    destruct (sql_exists k S) eqn:Hex.
    + unfold sql_update in Hr'.
      apply list_elem_of_fmap in Hr' as (r & -> & Hr).
      destruct (has_key k r) eqn:Hk.
      * unfold has_key in *. simpl. by rewrite Hk.
      * rewrite Hk. by apply IHb.
    + apply elem_of_app in Hr' as [Hr|Hr].
      * assert (has_key k r' = false) as Hk.
        { destruct (has_key k r') eqn:Hk; [|done].
          assert (sql_exists k S = true); [|congruence].
          apply sql_exists_true, Exists_exists. exists r'.
          split; [done|]. by apply has_key_true. }
        rewrite Hk. by apply IHb.
      * apply list_elem_of_singleton in Hr as ->.
        unfold has_key. simpl. by rewrite bool_decide_eq_true_2.
Qed.

Lemma seed_all_present l : ∀ rs,
  (∀ e, e ∈ l → sql_exists (fst (fst e)) rs = true) →
  fold_left Builder.upsert (seed_param_of <$> l) rs
  = apply_ops (seed_op <$> l) rs.
Proof.
  induction l as [|[[k sym] nm] l IH]; intros rs Hall; [done|].
  cbn [fmap list_fmap fold_left].
  rewrite upsert_present by (apply (Hall (k, sym, nm)), list_elem_of_here).
  rewrite IH; [done|].
  intros e He. rewrite sql_exists_update by done.
  apply Hall. by apply list_elem_of_further.
Qed.

Lemma seed_rows_idempotent rs up :
  Builder.seed_rows (Builder.seed_rows rs up) up = Builder.seed_rows rs up.
Proof.
  rewrite !seed_rows_fold.
  destruct (seed_fixed rs up) as [Ha Hb].
  set (S := fold_left Builder.upsert (seed_param_of <$> up) rs) in *.
  rewrite seed_all_present by done.
  rewrite apply_ops_map. rewrite <- (map_id S) at 2.
  apply map_ext_in. intros r Hr. apply Hb. by apply list_elem_of_In.
Qed.

(** C3. The seed phase is idempotent: seeding a second time with the same
    upstream rows gives the very store the first seeding gave, so the same
    number of rows and the same value in every field, description,
    imageUrl and updatedAt included. This holds for both builders, and for
    the upsert of a single identifier. *)
Theorem seed_phase_idempotent :
  (∀ rs up,
     BuildPrebuiltDb.seed_rows_from_crypto_com
       (BuildPrebuiltDb.seed_rows_from_crypto_com rs up) up
     = BuildPrebuiltDb.seed_rows_from_crypto_com rs up)
  ∧ (∀ rs up,
       BuildPrebuiltTokens.seed_rows_from_crypto_com
         (BuildPrebuiltTokens.seed_rows_from_crypto_com rs up) up
       = BuildPrebuiltTokens.seed_rows_from_crypto_com rs up)
  ∧ (∀ rs k sym nm,
       Builder.upsert (Builder.upsert rs (k, sym, nm, k, k, k))
                      (k, sym, nm, k, k, k)
       = Builder.upsert rs (k, sym, nm, k, k, k)).
Proof.
  split; [|split].
  - apply seed_rows_idempotent.
  - apply seed_rows_idempotent.
  - intros rs k sym nm.
    pose proof (seed_rows_idempotent rs [(k, sym, nm)]) as H.
    rewrite !seed_rows_fold in H. exact H.
Qed.

(** *** Rounding to binary64 *)

Section Float64Facts.
Import Float64.

Lemma pow2_pos e : (0 < pow2 e)%Q.
Proof. apply Qpower_0_lt. reflexivity. Qed.

Lemma pow2_plus a b : (pow2 (a + b) == pow2 a * pow2 b)%Q.
Proof. apply Qpower_plus. discriminate. Qed.

Lemma pow2_le a b : a ≤ b → (pow2 a <= pow2 b)%Q.
Proof. intros H. apply Qpower_le_compat_l; [done|discriminate]. Qed.

Lemma pow2_lt_inv a b : (pow2 a < pow2 b)%Q → a < b.
Proof. intros H. apply (Qpower_lt_compat_l_inv 2); [done|reflexivity]. Qed.

Lemma pow2_Z e : 0 ≤ e → (pow2 e == inject_Z (2 ^ e))%Q.
Proof. intros H. unfold pow2. by rewrite Zpower_Qpower. Qed.

Lemma pow2_div a b : (pow2 a / pow2 b == pow2 (a - b))%Q.
Proof.
  unfold pow2. rewrite Qpower_minus by discriminate. reflexivity.
Qed.

(** [ilog2] is the exponent. *)
Lemma ilog2_spec q :
  (0 < q)%Q → (pow2 (ilog2 q) <= q)%Q ∧ (q < pow2 (ilog2 q + 1))%Q.
Proof.
  intros Hq. destruct q as [n d]. unfold ilog2. cbn [Qnum Qden].
  assert (Hn : 0 < n) by (unfold Qlt in Hq; simpl in Hq; lia).
  set (a := Z.log2 n). set (b := Z.log2 (Z.pos d)).
  destruct (Z.log2_spec n Hn) as [Ha1 Ha2]. fold a in Ha1, Ha2.
  destruct (Z.log2_spec (Z.pos d) eq_refl) as [Hb1 Hb2]. fold b in Hb1, Hb2.
  assert (Ha0 : 0 ≤ a) by apply Z.log2_nonneg.
  assert (Hb0 : 0 ≤ b) by apply Z.log2_nonneg.
  assert (Hq' : (n # d == inject_Z n / inject_Z (Z.pos d))%Q)
    by apply Qmake_Qdiv.
  assert (Hd : (0 < inject_Z (Z.pos d))%Q) by (by apply Qlt_alt).
  assert (Hup : (n # d < pow2 (a - b + 1))%Q).
  { rewrite Hq'. apply Qlt_shift_div_r; [done|].
    apply Qlt_le_trans with (inject_Z (2 ^ (a + 1))).
    - rewrite <- Zlt_Qlt. lia.
    - rewrite <- pow2_Z by lia.
      replace (a + 1) with ((a - b + 1) + b) by lia.
      rewrite pow2_plus. apply Qmult_le_l; [apply pow2_pos|].
      rewrite pow2_Z by lia. rewrite <- Zle_Qle. lia. }
  assert (Hlo : (pow2 (a - b - 1) < n # d)%Q).
  { rewrite Hq'. apply Qlt_shift_div_l; [done|].
    apply Qlt_le_trans with (inject_Z (2 ^ a)).
    - rewrite <- pow2_Z by lia.
      replace a with ((a - b - 1) + (b + 1)) at 2 by lia.
      rewrite pow2_plus. apply Qmult_lt_l; [apply pow2_pos|].
      rewrite pow2_Z by lia. rewrite <- Zlt_Qlt. lia.
    - rewrite <- Zle_Qle. lia. }
  destruct (Qle_bool (pow2 (a - b)) (n # d)) eqn:Hc.
  - apply Qle_bool_iff in Hc. done.
  - assert (Hlt : (n # d < pow2 (a - b))%Q).
    { apply Qnot_le_lt. rewrite <- Qle_bool_iff. congruence. }
    split; [by apply Qlt_le_weak|].
    by replace (a - b - 1 + 1) with (a - b) by lia.
Qed.

Lemma ilog2_mono x y : (0 < x)%Q → (x <= y)%Q → ilog2 x ≤ ilog2 y.
Proof.
  intros Hx Hxy.
  assert (Hy : (0 < y)%Q) by (by apply Qlt_le_trans with x).
  destruct (ilog2_spec x Hx) as [H1 _].
  destruct (ilog2_spec y Hy) as [_ H2].
  assert (ilog2 x < ilog2 y + 1); [|lia].
  apply pow2_lt_inv.
  apply Qle_lt_trans with x; [done|]. by apply Qle_lt_trans with y.
Qed.

Lemma rint_cases x : rint x = Qfloor x ∨ rint x = Qfloor x + 1.
Proof.
  unfold rint. destruct (_ ?= _)%Q; [destruct (Z.even _)|..]; auto.
Qed.

Lemma rint_Z n : rint (inject_Z n) = n.
Proof.
  unfold rint. rewrite Qfloor_Z.
  assert ((inject_Z n - inject_Z n ?= 1 # 2)%Q = Lt) as ->; [|done].
  apply Qlt_alt. unfold Qminus. rewrite Qplus_opp_r. reflexivity.
Qed.

Lemma rint_mono x y : (x <= y)%Q → rint x ≤ rint y.
Proof.
  intros Hxy.
  pose proof (Qfloor_resp_le x y Hxy) as Hf.
  destruct (Z.eq_dec (Qfloor x) (Qfloor y)) as [Heq|Hne].
  - unfold rint. rewrite <- Heq. set (f := Qfloor x).
    destruct (Qcompare_spec (x - inject_Z f) (1 # 2)) as [Hx|Hx|Hx];
      destruct (Qcompare_spec (y - inject_Z f) (1 # 2)) as [Hy|Hy|Hy];
      try (destruct (Z.even f)); try lia; exfalso;
      generalize dependent (inject_Z f); intros F; intros; lra.
  - destruct (rint_cases x) as [-> | ->], (rint_cases y) as [-> | ->]; lia.
Qed.

Lemma round_pos_nonneg q : (0 < q)%Q → (0 <= round_pos q)%Q.
Proof.
  intros Hq. unfold round_pos. rewrite Qred_correct.
  apply Qmult_le_0_compat; [|apply Qlt_le_weak, pow2_pos].
  change 0%Q with (inject_Z 0). rewrite <- Zle_Qle.
  rewrite <- (rint_Z 0). apply rint_mono.
  apply Qle_shift_div_l; [apply pow2_pos|].
  change (inject_Z 0) with 0%Q. rewrite Qmult_0_l. by apply Qlt_le_weak.
Qed.

(** Within a binade the scaled value is rounded on one grid; across
    binades the power of two between the arguments separates the
    results. *)
Lemma round_pos_mono x y :
  (0 < x)%Q → (x <= y)%Q → (round_pos x <= round_pos y)%Q.
Proof.
  intros Hx Hxy.
  assert (Hy : (0 < y)%Q) by (by apply Qlt_le_trans with x).
  pose proof (ilog2_mono x y Hx Hxy) as He.
  unfold round_pos. rewrite !Qred_correct.
  destruct (Z.eq_dec (ulp_exp x) (ulp_exp y)) as [Heq|Hne].
  - rewrite Heq. apply Qmult_le_compat_r; [|apply Qlt_le_weak, pow2_pos].
    rewrite <- Zle_Qle. apply rint_mono.
    apply Qmult_le_compat_r; [done|].
    apply Qlt_le_weak, Qinv_lt_0_compat, pow2_pos.
  - assert (Hs : ulp_exp x < ulp_exp y) by (unfold ulp_exp in *; lia).
    assert (Hsy : ulp_exp y = ilog2 y - 52) by (unfold ulp_exp in *; lia).
    assert (Hex : ilog2 x + 1 ≤ ilog2 y) by (unfold ulp_exp in *; lia).
    set (e := ilog2 y) in *. set (s := ulp_exp x) in *.
    apply Qle_trans with (pow2 e).
    + assert (Hr : rint (x / pow2 s) ≤ 2 ^ (e - s)).
      { rewrite <- (rint_Z (2 ^ (e - s))). apply rint_mono.
        rewrite <- pow2_Z by lia. rewrite <- pow2_div.
        apply Qmult_le_compat_r;
          [|apply Qlt_le_weak, Qinv_lt_0_compat, pow2_pos].
        destruct (ilog2_spec x Hx) as [_ Hup].
        apply Qlt_le_weak, Qlt_le_trans with (pow2 (ilog2 x + 1)); [done|].
        by apply pow2_le. }
      apply Qle_trans with (inject_Z (2 ^ (e - s)) * pow2 s)%Q.
      * apply Qmult_le_compat_r; [|apply Qlt_le_weak, pow2_pos].
        by rewrite <- Zle_Qle.
      * rewrite <- pow2_Z by lia. rewrite <- pow2_plus.
        replace (e - s + s) with e by lia. apply Qle_refl.
    + rewrite Hsy.
      assert (Hr : 2 ^ 52 ≤ rint (y / pow2 (e - 52))).
      { rewrite <- (rint_Z (2 ^ 52)) at 1. apply rint_mono.
        rewrite <- pow2_Z by lia.
        apply Qle_shift_div_l; [apply pow2_pos|].
        rewrite <- pow2_plus. replace (52 + (e - 52)) with e by lia.
        by destruct (ilog2_spec y Hy). }
      apply Qle_trans with (inject_Z (2 ^ 52) * pow2 (e - 52))%Q.
      * rewrite <- pow2_Z by lia. rewrite <- pow2_plus.
        replace (52 + (e - 52)) with e by lia. apply Qle_refl.
      * apply Qmult_le_compat_r; [|apply Qlt_le_weak, pow2_pos].
        by rewrite <- Zle_Qle.
Qed.

(** Rounding to nearest does not reverse the order. *)
Lemma round_mono x y : (0 <= x)%Q → (x <= y)%Q → (round x <= round y)%Q.
Proof.
  intros Hx Hxy. unfold round.
  destruct (Qcompare_spec x 0) as [Cx|Cx|Cx].
  - destruct (Qcompare_spec y 0) as [Cy|Cy|Cy].
    + apply Qle_refl.
    + lra.
    + by apply round_pos_nonneg.
  - lra.
  - destruct (Qcompare_spec y 0) as [Cy|Cy|Cy]; [lra|lra|].
    by apply round_pos_mono.
Qed.

End Float64Facts.

(** The float of the literal [0.4], and the largest jitter: the product
    of the largest draw with it. *)
Lemma literal_04 :
  Float64.round (4 # 10) = 3602879701896397 # 9007199254740992.
Proof. by vm_compute. Qed.

Lemma top_jitter_04 :
  Float64.round ((1 - (1 # 9007199254740992))
                 * (3602879701896397 # 9007199254740992))
  = 7205759403792793 # 18014398509481984.
Proof. by vm_compute. Qed.

(** The jitter is a float in [0, 0.4). *)
Lemma jitter_range u a :
  Fetcher.random_range (u a) →
  (0 <= Fetcher.jitter u a)%Q
  ∧ (Fetcher.jitter u a <= 7205759403792793 # 18014398509481984)%Q
  ∧ (Fetcher.jitter u a < 4 # 10)%Q.
Proof.
  intros [Hu0 Hu1]. unfold Fetcher.jitter. rewrite literal_04.
  set (c := 3602879701896397 # 9007199254740992).
  assert (Hc : (0 <= c)%Q) by discriminate.
  assert (Hlo : (0 <= u a * c)%Q) by (by apply Qmult_le_0_compat).
  assert (Hhi : (u a * c <= (1 - (1 # 9007199254740992)) * c)%Q)
    by (by apply Qmult_le_compat_r).
  pose proof (round_mono 0 (u a * c) (Qle_refl 0) Hlo) as H0.
  pose proof (round_mono _ _ Hlo Hhi) as H1.
  subst c. rewrite top_jitter_04 in H1.
  change (Float64.round 0) with 0%Q in H0.
  split; [exact H0|]. split; [exact H1|].
  apply Qle_lt_trans with (7205759403792793 # 18014398509481984);
    [exact H1|reflexivity].
Qed.

(** *** The fetcher *)

Section FetcherFacts.
Import Fetcher.
Context {B : Type}.
Variable cfg : config.
Variable u : Z → Q.
Variable clock : Z → Q * Q.

Hypothesis base_nonneg : (0 <= BASE_BACKOFF_SEC cfg)%Q.
Hypothesis max_nonneg : (0 <= MAX_BACKOFF_SEC cfg)%Q.

Lemma backoff_nonneg a : (0 <= backoff cfg a)%Q.
Proof.
  unfold backoff. apply Q.min_glb; [done|].
  apply Qmult_le_0_compat; [done|].
  change 0%Q with (inject_Z 0). rewrite <- Zle_Qle.
  apply Z.pow_nonneg. lia.
Qed.

Lemma backoff_le_max a : (backoff cfg a <= MAX_BACKOFF_SEC cfg)%Q.
Proof. apply Q.le_min_l. Qed.

Lemma backoff_mono a : 1 ≤ a → (backoff cfg a <= backoff cfg (a + 1))%Q.
Proof.
  intros Ha. unfold backoff. apply Q.min_le_compat_l.
  rewrite !(Qmult_comm (BASE_BACKOFF_SEC cfg)).
  apply Qmult_le_compat_r; [|done].
  rewrite <- Zle_Qle. apply Z.pow_le_mono_r; lia.
Qed.

Lemma backoff_capped a :
  1 ≤ a → (backoff cfg a == MAX_BACKOFF_SEC cfg)%Q →
  (backoff cfg (a + 1) == MAX_BACKOFF_SEC cfg)%Q.
Proof.
  intros Ha Hcap. apply Qle_antisym; [apply backoff_le_max|].
  rewrite <- Hcap. by apply backoff_mono.
Qed.

End FetcherFacts.

Lemma cfg_nonneg cfg :
  cfg = BuildPrebuiltDb.cfg ∨ cfg = BuildPrebuiltTokens.cfg →
  (0 <= Fetcher.BASE_BACKOFF_SEC cfg)%Q ∧ (0 <= Fetcher.MAX_BACKOFF_SEC cfg)%Q.
Proof. intros [-> | ->]; split; by apply Qle_bool_iff. Qed.

Lemma cfg_max_retries cfg :
  cfg = BuildPrebuiltDb.cfg ∨ cfg = BuildPrebuiltTokens.cfg →
  Fetcher.MAX_RETRIES cfg = 6.
Proof. by intros [-> | ->]. Qed.

(** The wait of a retry, as rounded: not below the backoff, above
    backoff + 0.4 by less than the last place of the sum, and within
    [MAX_BACKOFF_SEC + 0.4] at every attempt that sleeps. *)
Lemma backoff_wait_bounds cfg u a :
  cfg = BuildPrebuiltDb.cfg ∨ cfg = BuildPrebuiltTokens.cfg →
  1 ≤ a ≤ 6 →
  Fetcher.random_range (u a) →
  (Fetcher.backoff cfg a <= Fetcher.backoff_wait cfg u a)%Q
  ∧ (Fetcher.backoff_wait cfg u a
     <= Fetcher.backoff cfg a + (4 # 10) + (1 # 140737488355328))%Q
  ∧ (Fetcher.backoff_wait cfg u a <= Fetcher.MAX_BACKOFF_SEC cfg + (4 # 10))%Q.
Proof.
  intros Hcfg Ha Hu.
  destruct (jitter_range u a Hu) as (Hj0 & Hj1 & _).
  destruct (cfg_nonneg cfg Hcfg) as [Hb Hm].
  pose proof (backoff_nonneg cfg Hb Hm a) as HD.
  unfold Fetcher.backoff_wait.
  set (j := Fetcher.jitter u a) in *. clearbody j.
  set (J := 7205759403792793 # 18014398509481984) in *.
  assert (Hlo : (Float64.round (Fetcher.backoff cfg a)
                 <= Float64.round (Fetcher.backoff cfg a + j))%Q)
    by (apply round_mono; [done|lra]).
  assert (Hhi : (Float64.round (Fetcher.backoff cfg a + j)
                 <= Float64.round (Fetcher.backoff cfg a + J))%Q)
    by (apply round_mono; lra).
  clear HD Hj0 Hj1 Hu.
  assert (Hcase : a = 1 ∨ a = 2 ∨ a = 3 ∨ a = 4 ∨ a = 5 ∨ a = 6) by lia.
  destruct Hcfg as [-> | ->];
    destruct Hcase as [-> | [-> | [-> | [-> | [-> | ->]]]]];
    (split; [|split];
     [ eapply Qle_trans; [|exact Hlo]; by vm_compute
     | eapply Qle_trans; [exact Hhi|]; by vm_compute
     | eapply Qle_trans; [exact Hhi|]; by vm_compute ]).
Qed.

Lemma backoff_wait_sleep_ok cfg u a :
  cfg = BuildPrebuiltDb.cfg ∨ cfg = BuildPrebuiltTokens.cfg →
  1 ≤ a ≤ 6 →
  Fetcher.random_range (u a) →
  Fetcher.sleep_ok (Fetcher.backoff_wait cfg u a) = true.
Proof.
  intros Hcfg Ha Hu. apply Qle_bool_iff.
  destruct (backoff_wait_bounds cfg u a Hcfg Ha Hu) as (Hlo & _).
  destruct (cfg_nonneg cfg Hcfg) as [Hb Hm].
  pose proof (backoff_nonneg cfg Hb Hm a). lra.
Qed.

Section FetcherRuns.
Import Fetcher.
Context {B : Type}.
Variable cfg : config.
Variable u : Z → Q.
Variable clock : Z → Q * Q.

Lemma waited_app ns ms : waited (ns ++ ms) = waited ns ++ waited ms.
Proof.
  induction ns as [|[d|d] ns IH]; simpl; [done|done|]. by rewrite IH.
Qed.

Lemma spaced_app ns ms : spaced (ns ++ ms) = spaced ns ++ spaced ms.
Proof.
  induction ns as [|[d|d] ns IH]; simpl; [done| |done]. by rewrite IH.
Qed.

(** [_throttle] sleeps at most once, and then for a positive time. *)
Lemma gate_cases a last :
  gate_shape (fst (gate cfg clock a last)).
Proof.
  unfold gate, gate_shape, Throttle._throttle. cbn [fst].
  destruct (Qle_bool _ _) eqn:Hb; [by left|].
  right. eexists. split; [done|].
  assert (Hn : ¬ (SPACING_SEC cfg
                  <= fst (clock a) - last)%Q)
    by (rewrite <- Qle_bool_iff; congruence).
  apply Qnot_le_lt in Hn. lra.
Qed.

Lemma waited_gate a last : waited (fst (gate cfg clock a last)) = [].
Proof. by destruct (gate_cases a last) as [-> | (d & -> & _)]. Qed.

Lemma length_spaced_gate a last :
  (length (spaced (fst (gate cfg clock a last))) ≤ 1)%nat.
Proof.
  destruct (gate_cases a last) as [-> | (d & -> & _)]; simpl; lia.
Qed.

(** The trace of sleeps only grows. *)
Lemma sleeps_extend (rs : list (response B)) : ∀ a last slept,
  ∃ more, sleeps (request_loop cfg u clock rs a last slept) = slept ++ more.
Proof.
  induction rs as [|r rs IH]; intros a last slept.
  - exists []. simpl. by rewrite app_nil_r.
  - cbn [request_loop].
    set (g := gate cfg clock (a + 1) last).
    assert (Hretry : ∀ wait err,
      ∃ more,
        sleeps (if a + 1 <=? MAX_RETRIES cfg
                then if sleep_ok wait
                     then request_loop cfg u clock rs (a + 1) (snd g)
                            ((slept ++ fst g) ++ [Waited wait])
                     else Run (Some (Raise ValueError)) (a + 1)
                              (slept ++ fst g) (snd g)
                else Run (Some (Raise err)) (a + 1) (slept ++ fst g)
                         (snd g))
        = slept ++ more).
    { intros wait err. destruct (a + 1 <=? MAX_RETRIES cfg).
      - destruct (sleep_ok wait).
        + destruct (IH (a + 1) (snd g) ((slept ++ fst g) ++ [Waited wait]))
            as [more ->].
          exists (fst g ++ Waited wait :: more).
          by rewrite <- !app_assoc.
        + by exists (fst g).
      - by exists (fst g). }
    destruct r as [status ra body| |]; try apply Hretry.
    destruct (retryable status).
    + destruct (status_wait cfg u (a + 1) ra); [apply Hretry|].
      by exists (fst g).
    + exists (fst g).
      by destruct (is_error_status status); [|destruct body].
Qed.

Lemma length_waits_of (pre : list (response B)) : ∀ a,
  length (waits_of cfg u a pre) = length pre.
Proof. induction pre as [|r pre IH]; intros a; simpl; [done|]. by rewrite IH. Qed.

Lemma lookup_waits_of (pre : list (response B)) : ∀ a i,
  waits_of cfg u a pre !! i
  = (fun r => wait_of cfg u (a + 1 + Z.of_nat i) r) <$> pre !! i.
Proof.
  induction pre as [|r pre IH]; intros a i; [done|].
  destruct i as [|i]; simpl.
  - by rewrite Z.add_0_r.
  - rewrite IH. destruct (pre !! i); simpl; [|done].
    do 2 f_equal. lia.
Qed.

(** The waits of a run of attempts are what is left of its trace when
    the sleeps of [_throttle] are taken out; [_throttle] sleeps at most
    once per attempt. *)
Lemma waited_naps_of (pre : list (response B)) : ∀ a last,
  waited (fst (naps_of cfg u clock a last pre)) = waits_of cfg u a pre.
Proof.
  induction pre as [|r pre IH]; intros a last; [done|].
  cbn [naps_of waits_of fst]. rewrite waited_app, waited_gate.
  cbn [app waited]. by rewrite IH.
Qed.

Lemma length_spaced_naps_of (pre : list (response B)) : ∀ a last,
  (length (spaced (fst (naps_of cfg u clock a last pre))) ≤ length pre)%nat.
Proof.
  induction pre as [|r pre IH]; intros a last; [done|].
  cbn [naps_of fst length]. rewrite spaced_app, length_app.
  cbn [spaced].
  pose proof (length_spaced_gate (a + 1) last).
  specialize (IH (a + 1) (snd (gate cfg clock (a + 1) last))). lia.
Qed.

(** A run of retried attempts is passed over, each one going through
    [_throttle] and sleeping its wait. *)
Lemma request_loop_retried (pre rest : list (response B)) :
  ∀ a last slept,
  a + Z.of_nat (length pre) ≤ MAX_RETRIES cfg →
  (∀ i r, pre !! i = Some r → retried cfg u (a + 1 + Z.of_nat i) r) →
  request_loop cfg u clock (pre ++ rest) a last slept
  = request_loop cfg u clock rest (a + Z.of_nat (length pre))
                 (snd (naps_of cfg u clock a last pre))
                 (slept ++ fst (naps_of cfg u clock a last pre)).
Proof.
  induction pre as [|r pre IH]; intros a last slept Hlen Hall.
  - simpl. by rewrite Z.add_0_r, app_nil_r.
  - cbn [length] in Hlen. cbn [app request_loop naps_of fst snd].
    set (g := gate cfg clock (a + 1) last).
    pose proof (Hall 0%nat r eq_refl) as Hr. rewrite Z.add_0_r in Hr.
    rewrite (proj2 (Z.leb_le (a + 1) (MAX_RETRIES cfg))) by lia.
    assert (Hrec : ∀ w,
      request_loop cfg u clock (pre ++ rest) (a + 1) (snd g)
                   ((slept ++ fst g) ++ [Waited w])
      = request_loop cfg u clock rest (a + Z.of_nat (S (length pre)))
                     (snd (naps_of cfg u clock (a + 1) (snd g) pre))
                     (slept ++ fst g
                      ++ Waited w
                         :: fst (naps_of cfg u clock (a + 1) (snd g) pre))).
    { intros w. rewrite IH.
      - rewrite <- !app_assoc. f_equal. lia.
      - lia.
      - intros i r' Hi. specialize (Hall (S i) r' Hi).
        replace (a + 1 + 1 + Z.of_nat i) with (a + 1 + Z.of_nat (S i)) by lia.
        done. }
    destruct r as [status ra body| |]; simpl in Hr |- *.
    + destruct Hr as [-> (w & -> & ->)]. simpl. apply Hrec.
    + rewrite Hr. apply Hrec.
    + rewrite Hr. apply Hrec.
Qed.

(** At most [MAX_RETRIES + 1] attempts, whatever the responses. *)
Lemma request_loop_attempts (rs : list (response B)) : ∀ a last slept,
  a ≤ MAX_RETRIES cfg →
  attempts (request_loop cfg u clock rs a last slept) ≤ MAX_RETRIES cfg + 1.
Proof.
  induction rs as [|r rs IH]; intros a last slept Ha; [simpl; lia|].
  cbn [request_loop].
  set (g := gate cfg clock (a + 1) last).
  assert (Hretry : ∀ wait err,
    attempts (if a + 1 <=? MAX_RETRIES cfg
              then if sleep_ok wait
                   then request_loop cfg u clock rs (a + 1) (snd g)
                          ((slept ++ fst g) ++ [Waited wait])
                   else Run (Some (Raise ValueError)) (a + 1)
                            (slept ++ fst g) (snd g)
              else Run (Some (Raise err)) (a + 1) (slept ++ fst g) (snd g))
    ≤ MAX_RETRIES cfg + 1).
  { intros wait err. destruct (Z.leb_spec (a + 1) (MAX_RETRIES cfg)).
    - destruct (sleep_ok wait); [by apply IH | simpl; lia].
    - simpl; lia. }
  destruct r as [status ra body| |]; try apply Hretry.
  destruct (retryable status).
  - destruct (status_wait cfg u (a + 1) ra); [apply Hretry | simpl; lia].
  - destruct (is_error_status status); [|destruct body]; simpl; lia.
Qed.

(** With [MAX_RETRIES + 1] responses at hand the loop ends: it returns
    or raises. *)
Lemma request_loop_ends (rs : list (response B)) : ∀ a last slept,
  a ≤ MAX_RETRIES cfg →
  MAX_RETRIES cfg + 1 - a ≤ Z.of_nat (length rs) →
  is_Some (outcome (request_loop cfg u clock rs a last slept)).
Proof.
  induction rs as [|r rs IH]; intros a last slept Ha Hlen;
    [simpl in Hlen; lia|].
  cbn [length] in Hlen. cbn [request_loop].
  set (g := gate cfg clock (a + 1) last).
  assert (Hretry : ∀ wait err,
    is_Some (outcome
      (if a + 1 <=? MAX_RETRIES cfg
       then if sleep_ok wait
            then request_loop cfg u clock rs (a + 1) (snd g)
                   ((slept ++ fst g) ++ [Waited wait])
            else Run (Some (Raise ValueError)) (a + 1) (slept ++ fst g)
                     (snd g)
       else Run (Some (Raise err)) (a + 1) (slept ++ fst g) (snd g)))).
  { intros wait err. destruct (Z.leb_spec (a + 1) (MAX_RETRIES cfg)).
    - destruct (sleep_ok wait); [apply IH; lia | by eexists].
    - by eexists. }
  destruct r as [status ra body| |]; try apply Hretry.
  destruct (retryable status).
  - destruct (status_wait cfg u (a + 1) ra); [apply Hretry | by eexists].
  - destruct (is_error_status status); [|destruct body]; by eexists.
Qed.

(** When every attempt fails and every wait is usable, attempt
    [MAX_RETRIES + 1] raises its own HTTP or network error. *)
Lemma request_loop_exhausted (rs : list (response B)) :
  ∀ a last slept r_last rest,
  a + Z.of_nat (length rs) = MAX_RETRIES cfg →
  (∀ i r, rs !! i = Some r → retried cfg u (a + 1 + Z.of_nat i) r) →
  failed cfg u (MAX_RETRIES cfg + 1) r_last →
  request_loop cfg u clock (rs ++ r_last :: rest) a last slept
  = let T := naps_of cfg u clock a last rs in
    let G := gate cfg clock (MAX_RETRIES cfg + 1) (snd T) in
    Run (Some (Raise (error_of r_last))) (MAX_RETRIES cfg + 1)
        (slept ++ fst T ++ fst G) (snd G).
Proof.
  intros a last slept r_last rest Hlen Hall Hlast.
  rewrite request_loop_retried by (done || lia).
  cbv zeta. rewrite Hlen. cbn [request_loop].
  rewrite (proj2 (Z.leb_gt _ _)) by lia. rewrite <- app_assoc.
  destruct r_last as [status ra body| |]; [|done..].
  destruct Hlast as [-> [w ->]]. done.
Qed.

(** The trace of a finished call, laid out by attempts. *)
Lemma request_loop_weave (rs : list (response B)) : ∀ a last slept,
  let r := request_loop cfg u clock rs a last slept in
  is_Some (outcome r) →
  ∃ gates ws,
    sleeps r = slept ++ weave gates ws
    ∧ Z.of_nat (length gates) = attempts r - a
    ∧ Z.of_nat (length ws) = attempts r - a - 1
    ∧ Forall gate_shape gates
    ∧ Forall (fun w => (0 <= w)%Q) ws.
Proof.
  induction rs as [|r rs IH]; intros a last slept; cbv zeta.
  { simpl. by intros [? ?]. }
  cbn [request_loop].
  set (g := gate cfg clock (a + 1) last).
  pose proof (gate_cases (a + 1) last) as Hg. fold g in Hg.
  assert (Hstop : ∀ o,
    ∃ gates ws,
      sleeps (Run (B:=B) o (a + 1) (slept ++ fst g) (snd g))
      = slept ++ weave gates ws
      ∧ Z.of_nat (length gates)
        = attempts (Run (B:=B) o (a + 1) (slept ++ fst g) (snd g)) - a
      ∧ Z.of_nat (length ws)
        = attempts (Run (B:=B) o (a + 1) (slept ++ fst g) (snd g)) - a - 1
      ∧ Forall gate_shape gates
      ∧ Forall (fun w => (0 <= w)%Q) ws).
  { intros o. exists [fst g], []. simpl.
    split; [done|]. split; [lia|]. split; [lia|].
    split; [by constructor|constructor]. }
  assert (Hretry : ∀ wait err,
    let r := (if a + 1 <=? MAX_RETRIES cfg
              then if sleep_ok wait
                   then request_loop cfg u clock rs (a + 1) (snd g)
                          ((slept ++ fst g) ++ [Waited wait])
                   else Run (Some (Raise ValueError)) (a + 1)
                            (slept ++ fst g) (snd g)
              else Run (Some (Raise err)) (a + 1) (slept ++ fst g)
                       (snd g)) in
    is_Some (outcome r) →
    ∃ gates ws,
      sleeps r = slept ++ weave gates ws
      ∧ Z.of_nat (length gates) = attempts r - a
      ∧ Z.of_nat (length ws) = attempts r - a - 1
      ∧ Forall gate_shape gates
      ∧ Forall (fun w => (0 <= w)%Q) ws).
  { intros wait err. cbv zeta.
    destruct (a + 1 <=? MAX_RETRIES cfg); [|intros _; apply Hstop].
    destruct (sleep_ok wait) eqn:Hw; [|intros _; apply Hstop].
    intros Hsome.
    destruct (IH (a + 1) (snd g) ((slept ++ fst g) ++ [Waited wait]) Hsome)
      as (gates & ws & Hs & Hlg & Hlw & Hgs & Hws).
    exists (fst g :: gates), (wait :: ws).
    split; [|split; [|split; [|split]]].
    - rewrite Hs. cbn [weave]. by rewrite <- !app_assoc.
    - cbn [length]. lia.
    - cbn [length]. lia.
    - by constructor.
    - constructor; [by apply Qle_bool_iff|done]. }
  destruct r as [status ra body| |]; try apply Hretry.
  destruct (retryable status).
  - destruct (status_wait cfg u (a + 1) ra);
      [apply Hretry | intros _; apply Hstop].
  - destruct (is_error_status status); [|destruct body];
      intros _; apply Hstop.
Qed.

End FetcherRuns.

(** C7, as the code has it. Let the first responses of a call be 429s
    without Retry-After, no more of them than [MAX_RETRIES], and let
    every draw of [random.random()] be a float in [0, 1). Then the wait
    slept after the k-th of them (the one the log line labels
    "attempt k") is the float sum of
    min(MAX_BACKOFF_SEC, BASE_BACKOFF_SEC * 2^(k-1)) and of a jitter
    [random.random() * 0.4] that lies in [0, 0.4): their sum rounded to
    the nearest float. It is not below the deterministic part, exceeds
    deterministic part + 0.4 by 2^-47 at most, and is at most
    MAX_BACKOFF_SEC + 0.4. The deterministic part does not decrease from
    k to k+1, never exceeds the cap, and stays at the cap once it has
    reached it. This holds for both copies of [request_json], whatever
    [_throttle] sleeps in between. *)
Theorem backoff_monotonic_bound :
  ∀ (cfg : Fetcher.config) (B : Type) (u : Z → Q) (clock : Z → Q * Q)
    (last : Q) (pre rest : list (Fetcher.response B)) (k : nat),
    cfg = BuildPrebuiltDb.cfg ∨ cfg = BuildPrebuiltTokens.cfg →
    (∀ j, Fetcher.random_range (u j)) →
    Forall (fun r => ∃ body, r = Fetcher.Http 429 Fetcher.NoRetryAfter body)
           pre →
    Z.of_nat (length pre) ≤ Fetcher.MAX_RETRIES cfg →
    (1 ≤ k ≤ length pre)%nat →
    let det := Qmin (Fetcher.MAX_BACKOFF_SEC cfg)
                    (Fetcher.BASE_BACKOFF_SEC cfg
                     * inject_Z (2 ^ (Z.of_nat k - 1))) in
    let jitter :=
      Float64.round (u (Z.of_nat k) * Float64.round (4 # 10)) in
    let wait := Float64.round (det + jitter) in
    Fetcher.waited
      (Fetcher.sleeps (Fetcher.request_json cfg u clock last (pre ++ rest)))
      !! (k - 1)%nat
    = Some wait
    ∧ (0 <= jitter)%Q ∧ (jitter < 4 # 10)%Q
    ∧ (det <= wait)%Q
    ∧ (wait <= det + (4 # 10) + (1 # 140737488355328))%Q
    ∧ (wait <= Fetcher.MAX_BACKOFF_SEC cfg + (4 # 10))%Q
    ∧ (det <= Fetcher.backoff cfg (Z.of_nat k + 1))%Q
    ∧ (det <= Fetcher.MAX_BACKOFF_SEC cfg)%Q
    ∧ ((det == Fetcher.MAX_BACKOFF_SEC cfg)%Q →
       (Fetcher.backoff cfg (Z.of_nat k + 1) == Fetcher.MAX_BACKOFF_SEC cfg)%Q).
Proof.
  intros cfg B u clock last pre rest k Hcfg Hu Hpre Hlen Hk det jitter wait.
  destruct (cfg_nonneg cfg Hcfg) as [Hbase Hmax].
  pose proof (cfg_max_retries cfg Hcfg) as Hmr.
  destruct (jitter_range u (Z.of_nat k) (Hu _)) as (Hj0 & _ & Hj1).
  pose proof (backoff_le_max cfg (Z.of_nat k)) as Hcap.
  destruct (backoff_wait_bounds cfg u (Z.of_nat k) Hcfg ltac:(lia) (Hu _))
    as (Hw0 & Hw1 & Hw2).
  assert (Hall : ∀ i r, pre !! i = Some r →
                        ∃ body, r = Fetcher.Http 429 Fetcher.NoRetryAfter body).
  { intros i r Hi. rewrite Forall_forall in Hpre. apply Hpre.
    by apply list_elem_of_lookup_2 in Hi. }
  assert (Hretried : ∀ i r, pre !! i = Some r →
                            Fetcher.retried cfg u (0 + 1 + Z.of_nat i) r).
  { intros i r Hi. destruct (Hall i r Hi) as [body ->].
    split; [done|]. eexists. split; [done|].
    apply backoff_wait_sleep_ok; [done| |done].
    apply lookup_lt_Some in Hi. lia. }
  split; [|repeat split; try done].
  - unfold Fetcher.request_json.
    rewrite (request_loop_retried cfg u clock pre rest) by (done || lia).
    destruct (sleeps_extend (B:=B) cfg u clock rest
                (0 + Z.of_nat (length pre))
                (snd (naps_of cfg u clock 0 last pre))
                ([] ++ fst (naps_of cfg u clock 0 last pre)))
      as [more ->].
    rewrite app_nil_l, waited_app, (waited_naps_of cfg u clock).
    rewrite lookup_app_l by (rewrite length_waits_of; lia).
    rewrite lookup_waits_of.
    destruct (pre !! (k - 1)%nat) as [r|] eqn:Hr;
      [|apply lookup_ge_None in Hr; lia].
    destruct (Hall _ r Hr) as [body ->].
    simpl. replace (0 + 1 + Z.of_nat (k - 1)) with (Z.of_nat k) by lia.
    done.
  - apply (backoff_mono cfg Hbase). lia.
  - apply (backoff_capped cfg Hbase). lia.
Qed.

Lemma backoff_monotonic_bound_witness :
  (BuildPrebuiltTokens.cfg = BuildPrebuiltDb.cfg
   ∨ BuildPrebuiltTokens.cfg = BuildPrebuiltTokens.cfg)
  ∧ (∀ j, Fetcher.random_range (half_jitter j))
  ∧ Forall (fun r => ∃ body, r = Fetcher.Http 429 Fetcher.NoRetryAfter body)
           three_429
  ∧ Z.of_nat (length three_429) ≤ Fetcher.MAX_RETRIES BuildPrebuiltTokens.cfg
  ∧ (1 ≤ 2 ≤ length three_429)%nat
  ∧ Fetcher.waited
      (Fetcher.sleeps
         (Fetcher.request_json BuildPrebuiltTokens.cfg half_jitter busy_clock
                               0 (three_429 ++ []))) !! 1%nat
    = Some (Float64.round
              (Qmin 60 (2 * inject_Z (2 ^ (2 - 1)))
               + Float64.round ((1 # 2) * Float64.round (4 # 10)))).
Proof.
  assert (H1 : BuildPrebuiltTokens.cfg = BuildPrebuiltDb.cfg
               ∨ BuildPrebuiltTokens.cfg = BuildPrebuiltTokens.cfg)
    by (right; reflexivity).
  assert (H2 : ∀ j, Fetcher.random_range (half_jitter j))
    by (intros j; split; discriminate).
  assert (H3 : Forall (fun r => ∃ body,
                         r = Fetcher.Http 429 Fetcher.NoRetryAfter body)
                      three_429)
    by (repeat constructor; eexists; reflexivity).
  assert (H4 : Z.of_nat (length three_429)
               ≤ Fetcher.MAX_RETRIES BuildPrebuiltTokens.cfg)
    by (vm_compute; discriminate).
  assert (H5 : (1 ≤ 2 ≤ length three_429)%nat) by (simpl; lia).
  repeat (split; [assumption|]).
  exact (proj1 (backoff_monotonic_bound BuildPrebuiltTokens.cfg unit
                  half_jitter busy_clock 0 three_429 [] 2 H1 H2 H3 H4 H5)).
Defined.

(** C7, as stated, fails: the wait is a rounded sum. With the largest
    draw of [random.random()] the wait slept after the second 429 is
    the float 0x1.199999999999ap+2, above 4 + 0.4: it is not 4 plus a
    jitter in [0, 0.4). *)
Lemma backoff_wait_not_exact_sum :
  ∃ w,
    Fetcher.waited
      (Fetcher.sleeps
         (BuildPrebuiltTokens.request_json top_jitter idle_clock 0
                                           three_429)) !! 1%nat
    = Some w
    ∧ w = 2476979795053773 # 562949953421312
    ∧ Qmin 60 (2 * inject_Z (2 ^ (2 - 1))) = 4%Q
    ∧ ¬ ∃ jitter, (0 <= jitter)%Q ∧ (jitter < 4 # 10)%Q
                  ∧ (w == 4 + jitter)%Q.
Proof.
  eexists. split; [by vm_compute|]. split; [done|]. split; [by vm_compute|].
  intros (j & Hj0 & Hj1 & Hw).
  assert (H : ((2476979795053773 # 562949953421312) < 4 + (4 # 10))%Q)
    by (rewrite Hw; lra).
  by vm_compute in H.
Qed.

(** *** The schema guard *)

Lemma insert_or_replace_fresh acc r :
  cgId r ∉ cgId <$> acc → insert_or_replace acc r = acc ++ [r].
Proof.
  intros Hfresh. unfold insert_or_replace. f_equal.
  induction acc as [|x acc IH]; [done|].
  rewrite fmap_cons, not_elem_of_cons in Hfresh. destruct Hfresh as [Hx Hacc].
  rewrite filter_cons_True by done. f_equal. by apply IH.
Qed.

Lemma rebuild_copy_distinct l : ∀ acc,
  NoDup (cgId <$> (acc ++ l)) →
  fold_left insert_or_replace l acc = acc ++ l.
Proof.
  induction l as [|r l IH]; intros acc Hnd; simpl.
  - by rewrite app_nil_r.
  - rewrite insert_or_replace_fresh.
    + rewrite IH; rewrite <- app_assoc; done.
    + rewrite fmap_app, fmap_cons in Hnd.
      apply NoDup_app in Hnd as (_ & Hdisj & _).
      intros Hin. apply (Hdisj _ Hin). apply list_elem_of_here.
Qed.

Lemma rebuild_copy_length l : ∀ acc,
  (length (fold_left insert_or_replace l acc) ≤ length acc + length l)%nat.
Proof.
  induction l as [|r l IH]; intros acc; simpl; [lia|].
  etrans; [apply IH|]. unfold insert_or_replace.
  rewrite length_app. simpl.
  pose proof (length_filter (fun x => cgId x ≠ cgId r) acc). lia.
Qed.

Lemma rebuild_copy_subset l : ∀ acc r,
  r ∈ fold_left insert_or_replace l acc → r ∈ acc ∨ r ∈ l.
Proof.
  induction l as [|x l IH]; intros acc r Hr; simpl in Hr; [by left|].
  apply IH in Hr as [Hr|Hr]; [|right; by apply list_elem_of_further].
  unfold insert_or_replace in Hr. apply elem_of_app in Hr as [Hr|Hr].
  - left. by apply list_elem_of_filter in Hr as [_ Hr].
  - right. apply list_elem_of_singleton in Hr as ->. apply list_elem_of_here.
Qed.

Lemma nullable_required_incompatible t uv :
  missing_columns (info t) = [] →
  (∃ c, c ∈ REQUIRED_NOT_NULL
        ∧ (col_notnull <$> cols_of (info t) !! c) ≠ Some 1) →
  fst (schema_is_room_compatible (Store (Some t) uv)) = false.
Proof.
  intros Hmiss (c & Hc & Hnn). unfold schema_is_room_compatible.
  cbn [tokens]. rewrite Hmiss.
  destruct (negb _); [done|].
  destruct (filter _ REQUIRED_NOT_NULL) as [|x l] eqn:Hf; [|done].
  assert (c ∈ filter (fun c => (col_notnull <$> cols_of (info t) !! c) ≠ Some 1)
                     REQUIRED_NOT_NULL) as Hin
    by (by apply list_elem_of_filter).
  rewrite Hf in Hin. by apply elem_of_nil in Hin.
Qed.

(** C2, as the code has it. On a store whose [tokens] table has the six
    columns and a nullable required column, [ensure_schema] rebuilds the
    table: the new layout has NOT NULL on cgId, symbol, name and updatedAt,
    and no row holds a null there; [user_version] is kept; no row is added.
    When the identifiers, with null read as the empty string, are pairwise
    distinct, the table holds exactly the N old rows in order, a null
    symbol or name replaced by the empty string and a null updatedAt by 0,
    while description and imageUrl are copied as they are: a null
    description stays null. *)
Theorem ensure_schema_rebuild_preserves :
  ∀ t uv,
    missing_columns (info t) = [] →
    (∃ c, c ∈ REQUIRED_NOT_NULL
          ∧ (col_notnull <$> cols_of (info t) !! c) ≠ Some 1) →
    ∃ rs',
      ensure_schema (Store (Some t) uv)
      = Ok (Store (Some (Table room_info rs')) uv)
      ∧ (∀ c, c ∈ REQUIRED_NOT_NULL →
              (col_notnull <$> cols_of room_info !! c) = Some 1)
      ∧ Forall (fun r => is_Some (cgId r) ∧ is_Some (symbol r)
                         ∧ is_Some (name r) ∧ is_Some (updatedAt r)) rs'
      ∧ (length rs' ≤ length (rows t))%nat
      ∧ (NoDup (cgId <$> (copy_row <$> rows t)) →
         rs' = copy_row <$> rows t
         ∧ length rs' = length (rows t)
         ∧ description <$> rs' = description <$> rows t
         ∧ imageUrl <$> rs' = imageUrl <$> rows t).
Proof.
  intros t uv Hmiss Hnn.
  exists (fold_left insert_or_replace (copy_row <$> rows t) []).
  split; [|split; [|split; [|split]]].
  - unfold ensure_schema. cbn [tokens].
    rewrite (nullable_required_incompatible t uv Hmiss Hnn).
    unfold rebuild_tokens_table_room_schema. cbn [tokens].
    by rewrite Hmiss.
  - intros c Hc. unfold REQUIRED_NOT_NULL in Hc.
    repeat (apply elem_of_cons in Hc as [->|Hc]; [by vm_compute|]).
    by apply elem_of_nil in Hc.
  - apply Forall_forall. intros r Hr.
    apply rebuild_copy_subset in Hr as [Hr|Hr]; [by apply elem_of_nil in Hr|].
    apply list_elem_of_fmap in Hr as (r0 & -> & _).
    unfold copy_row, coalesce; simpl.
    destruct (cgId r0), (symbol r0), (name r0), (updatedAt r0); eauto.
  - etrans; [apply rebuild_copy_length|]. by rewrite length_fmap.
  - intros Hnd. rewrite (rebuild_copy_distinct _ []) by done. simpl.
    split; [done|]. split; [by rewrite length_fmap|].
    rewrite <- !list_fmap_compose. done.
Qed.

Lemma ensure_schema_rebuild_preserves_witness :
  missing_columns builder_info = []
  ∧ (∃ c, c ∈ REQUIRED_NOT_NULL
          ∧ (col_notnull <$> cols_of builder_info !! c) ≠ Some 1)
  ∧ ∃ rs',
      ensure_schema legacy_store = Ok (Store (Some (Table room_info rs')) 1)
      ∧ length rs' = 2%nat
      ∧ description <$> rs' = [None; Some "A chain."].
Proof.
  assert (H1 : missing_columns builder_info = []) by (vm_compute; reflexivity).
  assert (H2 : ∃ c, c ∈ REQUIRED_NOT_NULL
                    ∧ (col_notnull <$> cols_of builder_info !! c) ≠ Some 1).
  { exists "symbol". split; [|vm_compute; discriminate].
    unfold REQUIRED_NOT_NULL. apply list_elem_of_further, list_elem_of_here. }
  split; [exact H1|]. split; [exact H2|].
  destruct (ensure_schema_rebuild_preserves
              (Table builder_info
                     [ Token (Some "btc") (Some "btc") (Some "Bitcoin")
                             None None (Some 0);
                       Token (Some "eth") (Some "eth") (Some "Ethereum")
                             (Some "A chain.") (Some "eth.png")
                             (Some 1700000000) ]) 1 H1 H2)
    as (rs' & Hrun & _ & _ & _ & Hdistinct).
  exists rs'. split; [exact Hrun|].
  destruct Hdistinct as (_ & Hlen & Hdesc & _).
  - simpl. apply NoDup_cons. split; [|apply NoDup_singleton].
    intros Hx. apply list_elem_of_singleton in Hx. discriminate.
  - split; [exact Hlen | exact Hdesc].
Defined.

(** C2, as stated, fails: a null description is still null after the
    rebuild, not the empty string. *)
Lemma ensure_schema_keeps_null_description :
  ensure_schema legacy_store
  = Ok (Store (Some (Table room_info
                       [ Token (Some "btc") (Some "btc") (Some "Bitcoin")
                               None None (Some 0);
                         Token (Some "eth") (Some "eth") (Some "Ethereum")
                               (Some "A chain.") (Some "eth.png")
                               (Some 1700000000) ])) 1)
  ∧ ¬ (∀ t uv,
         missing_columns (info t) = [] →
         (∃ c, c ∈ REQUIRED_NOT_NULL
               ∧ (col_notnull <$> cols_of (info t) !! c) ≠ Some 1) →
         ∃ rs', ensure_schema (Store (Some t) uv)
                = Ok (Store (Some (Table room_info rs')) uv)
                ∧ length rs' = length (rows t)
                ∧ Forall (fun r => description r ≠ None) rs').
Proof.
  split; [by vm_compute|].
  intros H.
  destruct (H (Table builder_info
                     [ Token (Some "btc") (Some "btc") (Some "Bitcoin")
                             None None (Some 0) ]) 1)
    as (rs' & Hrun & _ & Hall).
  - by vm_compute.
  - exists "symbol". split; [|vm_compute; discriminate].
    unfold REQUIRED_NOT_NULL. apply list_elem_of_further, list_elem_of_here.
  - vm_compute in Hrun. injection Hrun as <-.
    apply Forall_cons in Hall as [Hd _]. by apply Hd.
Qed.

(** Rows whose identifiers collide once null is read as the empty string
    are merged by the INSERT OR REPLACE of the copy: the last one stays. *)
Lemma ensure_schema_merges_null_identifiers :
  ensure_schema
    (Store (Some (Table builder_info
                        [ Token None (Some "a") (Some "A") None None None;
                          Token None (Some "b") (Some "B") None None None ]))
           1)
  = Ok (Store (Some (Table room_info
                       [ Token (Some "") (Some "b") (Some "B") None None
                               (Some 0) ])) 1).
Proof. by vm_compute. Qed.

(** *** Rows under a sequence of updates *)

Lemma row_ops_cons o ops r :
  row_ops (o :: ops) r
  = row_ops ops (if has_key (fst o) r then snd o r else r).
Proof. done. Qed.

Lemma row_ops_preserve {A} (proj : token → A) ops : ∀ r,
  (∀ o x, o ∈ ops → proj (snd o x) = proj x) →
  proj (row_ops ops r) = proj r.
Proof.
  induction ops as [|o ops IH]; intros r H; [done|].
  rewrite row_ops_cons, IH.
  - destruct (has_key (fst o) r); [|done]. apply H, list_elem_of_here.
  - intros o' x Ho'. apply H. by apply list_elem_of_further.
Qed.

Lemma row_ops_untouched ops : ∀ r,
  (∀ o, o ∈ ops → cgId r ≠ Some (fst o)) → row_ops ops r = r.
Proof.
  induction ops as [|o ops IH]; intros r H; [done|].
  rewrite row_ops_cons.
  assert (has_key (fst o) r = false) as ->.
  { apply not_true_is_false. rewrite has_key_true.
    apply H, list_elem_of_here. }
  apply IH. intros o' Ho'. apply H. by apply list_elem_of_further.
Qed.

(** A predicate every SET clause establishes or keeps holds at the end
    for every row a statement addressed. *)
Lemma row_ops_touched (P : token → Prop) ops : ∀ r,
  (∀ o x, o ∈ ops → cgId (snd o x) = cgId x) →
  (∀ o x, o ∈ ops → P (snd o x)) →
  (∃ o, o ∈ ops ∧ cgId r = Some (fst o)) →
  P (row_ops ops r).
Proof.
  assert (Hkeep : ∀ ops r, (∀ o x, o ∈ ops → P (snd o x)) →
                           P r → P (row_ops ops r)).
  { clear. induction ops as [|o ops IH]; intros r H Hr; [done|].
    rewrite row_ops_cons. apply IH.
    - intros o' x Ho'. apply H. by apply list_elem_of_further.
    - destruct (has_key (fst o) r); [|done]. apply H, list_elem_of_here. }
  induction ops as [|o ops IH]; intros r Hid HP (o' & Ho' & Hk).
  - by apply elem_of_nil in Ho'.
  - rewrite row_ops_cons. destruct (has_key (fst o) r) eqn:Hkey.
    + apply Hkeep.
      * intros o'' x Ho''. apply HP. by apply list_elem_of_further.
      * apply HP, list_elem_of_here.
    + apply elem_of_cons in Ho' as [->|Ho'].
      * apply has_key_true in Hk. congruence.
      * apply IH; [| |by eauto].
        -- intros o'' x Ho''. apply Hid. by apply list_elem_of_further.
        -- intros o'' x Ho''. apply HP. by apply list_elem_of_further.
Qed.

Lemma Forall2_map_self {A} (P : A → A → Prop) (f : A → A) (l : list A) :
  (∀ x, x ∈ l → P x (f x)) → Forall2 P l (map f l).
Proof.
  induction l as [|x l IH]; intros H; simpl; constructor.
  - apply H, list_elem_of_here.
  - apply IH. intros y Hy. apply H. by apply list_elem_of_further.
Qed.

Lemma elem_of_patch_ops ts rs items o :
  o ∈ patch_ops ts rs items →
  ∃ it, it ∈ items ∧ classify rs it = Updated ∧ fst o = item_cgId it
        ∧ ∀ r, snd o r
               = Token (cgId r) (symbol r) (name r)
                   (coalesce (param_or_null (get it "description"))
                             (description r))
                   (coalesce (param_or_null (get it "imageUrl")) (imageUrl r))
                   (Some ts).
Proof.
  unfold patch_ops. rewrite list_elem_of_omap.
  intros (it & Hit & Ho). exists it. split; [done|].
  destruct (decide (classify rs it = Updated)); [|done].
  injection Ho as <-. done.
Qed.

Lemma patch_ops_elem ts rs items it :
  it ∈ items → classify rs it = Updated →
  ∃ o, o ∈ patch_ops ts rs items ∧ fst o = item_cgId it.
Proof.
  intros Hit Hc. eexists. split.
  - unfold patch_ops. apply list_elem_of_omap. exists it. split; [done|].
    rewrite decide_True by done. reflexivity.
  - done.
Qed.

Lemma tokens_enrich_apply strip_html fetch now skip ids : ∀ rs,
  BuildPrebuiltTokens.enrich_details strip_html fetch now rs ids skip
  = apply_ops (tokens_enrich_ops strip_html fetch now skip ids) rs.
Proof.
  unfold BuildPrebuiltTokens.enrich_details, tokens_enrich_ops.
  induction ids as [|cid ids IH]; intros rs; [done|].
  csimpl. destruct (fetch cid) as [data|e]; apply IH.
Qed.

(** C5, as the code has it. Every UPDATE an enrich pass or a patch pass
    executes sets updatedAt to the timestamp of the pass, whether or not
    it changes description or imageUrl: after [apply_patches] every row
    whose identifier is named by an entry counted as updated carries the
    timestamp, and every other row is as it was; after [enrich_details]
    every row whose identifier was fetched carries the timestamp, and
    every other row is as it was. *)
Theorem updatedAt_set_by_every_update :
  (∀ i rs uv p ts items,
     normalize p = Some items →
     ∃ rs',
       apply_patches (Store (Some (Table i rs)) uv) p false ts
       = Ok (Store (Some (Table i rs')) uv, counts rs items)
       ∧ Forall2
           (fun r r' =>
              ((∃ it, it ∈ items ∧ classify rs it = Updated
                      ∧ cgId r = Some (item_cgId it)) →
               updatedAt r' = Some ts)
              ∧ ((¬ ∃ it, it ∈ items ∧ classify rs it = Updated
                          ∧ cgId r = Some (item_cgId it)) →
                 r' = r))
           rs rs')
  ∧ (∀ strip_html fetch now rs ids skip,
       Forall2
         (fun r r' =>
            ((∃ cid data, cid ∈ ids ∧ fetch cid = Ok data
                          ∧ cgId r = Some cid) →
             updatedAt r' = Some now)
            ∧ ((¬ ∃ cid data, cid ∈ ids ∧ fetch cid = Ok data
                              ∧ cgId r = Some cid) →
               r' = r))
         rs
         (BuildPrebuiltTokens.enrich_details strip_html fetch now rs ids skip)).
Proof.
  split.
  - intros i rs uv p ts items Hn.
    exists (apply_ops (patch_ops ts rs items) rs). split.
    { by rewrite (apply_patches_ok _ _ _ _ _ _ items). }
    rewrite apply_ops_map. apply Forall2_map_self. intros r _. split.
    + intros (it & Hit & Hc & Hk).
      apply (row_ops_touched (fun x => updatedAt x = Some ts)).
      * intros o x Ho. apply elem_of_patch_ops in Ho as (? & _ & _ & _ & ->).
        done.
      * intros o x Ho. apply elem_of_patch_ops in Ho as (? & _ & _ & _ & ->).
        done.
      * destruct (patch_ops_elem ts rs items it Hit Hc) as (o & Ho & Hfst).
        exists o. by rewrite Hfst.
    + intros Hno. apply row_ops_untouched. intros o Ho Hk.
      apply elem_of_patch_ops in Ho as (it & Hit & Hc & Hfst & _).
      apply Hno. exists it. by rewrite <- Hfst.
  - intros strip_html fetch now rs ids skip.
    rewrite tokens_enrich_apply, apply_ops_map.
    apply Forall2_map_self. intros r _.
    assert (Hops : ∀ o, o ∈ tokens_enrich_ops strip_html fetch now skip ids →
                        ∃ data, fst o ∈ ids ∧ fetch (fst o) = Ok data
                                ∧ ∀ x, cgId (snd o x) = cgId x
                                       ∧ updatedAt (snd o x) = Some now).
    { intros o Ho. unfold tokens_enrich_ops in Ho.
      apply list_elem_of_omap in Ho as (cid & Hcid & Ho).
      destruct (fetch cid) as [data|e] eqn:Hf; [|done].
      injection Ho as <-. exists data. done. }
    split.
    + intros (cid & data & Hcid & Hf & Hk).
      apply (row_ops_touched (fun x => updatedAt x = Some now)).
      * intros o x Ho. destruct (Hops o Ho) as (? & _ & _ & H). apply H.
      * intros o x Ho. destruct (Hops o Ho) as (? & _ & _ & H). apply H.
      * eexists (cid, _). split; [|done].
        unfold tokens_enrich_ops. apply list_elem_of_omap.
        exists cid. split; [done|]. by rewrite Hf.
    + intros Hno. apply row_ops_untouched. intros o Ho Hk.
      destruct (Hops o Ho) as (data & Hin & Hf & _).
      apply Hno. eauto.
Qed.

Lemma updatedAt_set_by_every_update_witness :
  normalize same_patch
  = Some [entry "eth" (PyStr "A chain.") (PyStr "eth.png")]
  ∧ ∃ rs',
      apply_patches room_store same_patch false 1800000000
      = Ok (Store (Some (Table room_info rs')) 1,
            counts [eth_row]
                   [entry "eth" (PyStr "A chain.") (PyStr "eth.png")])
      ∧ length rs' = 1%nat.
Proof.
  assert (Hn : normalize same_patch
               = Some [entry "eth" (PyStr "A chain.") (PyStr "eth.png")])
    by reflexivity.
  split; [exact Hn|].
  destruct (proj1 updatedAt_set_by_every_update room_info [eth_row] 1
                  same_patch 1800000000 _ Hn) as (rs' & Hrun & Hall).
  exists rs'. split; [exact Hrun|].
  apply Forall2_length in Hall. simpl in Hall. by rewrite <- Hall.
Defined.

(** C5, as stated, fails: a patch that repeats the stored description and
    image changes no content and still moves updatedAt. *)
Lemma noop_patch_moves_updatedAt :
  ∃ r',
    apply_patches room_store same_patch false 1800000000
    = Ok (Store (Some (Table room_info [r'])) 1, (1, 0, 0))
    ∧ cgId r' = cgId eth_row ∧ symbol r' = symbol eth_row
    ∧ name r' = name eth_row ∧ description r' = description eth_row
    ∧ imageUrl r' = imageUrl eth_row
    ∧ updatedAt eth_row = Some 1700000000
    ∧ updatedAt r' = Some 1800000000.
Proof. eexists. vm_compute. repeat split. Qed.

(** *** The generation counter *)

Lemma ensure_schema_ok t uv :
  missing_columns (info t) = [] →
  ∃ t1, ensure_schema (Store (Some t) uv) = Ok (Store (Some t1) uv).
Proof.
  intros Hmiss. unfold ensure_schema. cbn [tokens].
  destruct (fst _); [by eexists|].
  unfold rebuild_tokens_table_room_schema. cbn [tokens].
  rewrite Hmiss. by eexists.
Qed.

Lemma apply_all_ok dry ps : ∀ t uv tot,
  Forall (fun p => is_Some (normalize (fst p))) ps →
  ∃ t' tot', apply_all dry ps (Store (Some t) uv) tot
             = Ok (Store (Some t') uv, tot').
Proof.
  induction ps as [|[p ts] ps IH]; intros [i rs] uv [[tu tm] tsk] Hall.
  - by eexists _, _.
  - apply Forall_cons in Hall as [[items Hn] Hall]. cbn [apply_all].
    rewrite (apply_patches_ok _ _ _ _ _ _ items Hn). cbn [bind].
    destruct (counts rs items) as [[u m] s]. by apply IH.
Qed.

Lemma pragma_int32_in_range v :
  -2147483648 ≤ v ≤ 2147483647 → pragma_int32 v = v.
Proof.
  intros Hv. unfold pragma_int32.
  rewrite (proj2 (Z.leb_le _ _)), (proj2 (Z.leb_le _ _)) by lia. done.
Qed.

(** C4, as the code has it. [user_version] is a signed 32-bit field:
    a value in its range and below 2147483647 is meant by "below the
    ceiling". [patch_descriptions.py] with --bump-user-version stores
    [user_version + 1] when at least one description was updated and
    leaves the counter unchanged otherwise.
    [safe_patch_prebuilt_db.py] with --bump-user-version, outside a dry
    run and without --set-user-version, stores [user_version + 1] after
    the patches whatever the number of updated entries; under --dry-run
    it leaves the counter unchanged. Below the ceiling the stored value
    is the old one plus one; at 2147483647 the PRAGMA stores 0. *)
Theorem user_version_bump :
  (∀ overwrite updates t uv,
     ∃ db' st,
       PatchDescriptions.main (PatchDescriptions.Args overwrite true) updates
                              (Store (Some t) uv)
       = Ok (db', st)
       ∧ user_version db'
         = (if 0 <? PatchDescriptions.updated st
            then pragma_int32 (uv + 1) else uv)
       ∧ (-2147483648 ≤ uv < 2147483647 →
          user_version db'
          = uv + (if 0 <? PatchDescriptions.updated st then 1 else 0)))
  ∧ (∀ ps t uv,
       missing_columns (info t) = [] →
       Forall (fun p => is_Some (normalize (fst p))) ps →
       (∃ db' tot,
          SafePatch.main (SafePatch.Args ps true None false)
                         (Store (Some t) uv)
          = Ok (db', tot)
          ∧ user_version db' = pragma_int32 (uv + 1)
          ∧ (-2147483648 ≤ uv < 2147483647 → user_version db' = uv + 1)
          ∧ (uv = 2147483647 → user_version db' = 0))
       ∧ (∃ db' tot,
            SafePatch.main (SafePatch.Args ps true None true)
                           (Store (Some t) uv)
            = Ok (db', tot)
            ∧ user_version db' = uv)).
Proof.
  split.
  - intros overwrite updates t uv. unfold PatchDescriptions.main.
    destruct updates as [|e updates].
    { eexists _, _. split; [done|]. simpl. split; [done|]. lia. }
    cbn [tokens PatchDescriptions.arg_overwrite
         PatchDescriptions.arg_bump_user_version].
    destruct (PatchDescriptions.patch_loop _ _ _ _) as [rs st].
    eexists _, _. split; [done|].
    cbn [andb]. destruct (0 <? PatchDescriptions.updated st); simpl.
    + split; [done|]. intros Huv. apply pragma_int32_in_range. lia.
    + split; [done|]. lia.
  - intros ps t uv Hmiss Hall.
    destruct (ensure_schema_ok t uv Hmiss) as [t1 He].
    split.
    + destruct (apply_all_ok false ps t1 uv (0, 0, 0) Hall) as (t' & tot & Ha).
      eexists _, _. unfold SafePatch.main. rewrite He.
      cbn [bind arg_dry_run arg_patch].
      rewrite Ha. cbn [bind]. split; [done|]. simpl.
      split; [done|]. split.
      * intros Huv. apply pragma_int32_in_range. lia.
      * by intros ->.
    + destruct (apply_all_ok true ps t1 uv (0, 0, 0) Hall) as (t' & tot & Ha).
      eexists _, _. unfold SafePatch.main. rewrite He.
      cbn [bind arg_dry_run arg_patch].
      rewrite Ha. cbn [bind]. split; [done|]. done.
Qed.

Lemma user_version_bump_witness :
  missing_columns room_info = []
  ∧ Forall (fun p => is_Some (normalize (fst p))) [(stray_patch, 1800000000)]
  ∧ ∃ db' tot,
      SafePatch.main (SafePatch.Args [(stray_patch, 1800000000)] true None false)
                     room_store
      = Ok (db', tot)
      ∧ user_version db' = pragma_int32 (1 + 1)
      ∧ (-2147483648 ≤ 1 < 2147483647 → user_version db' = 1 + 1)
      ∧ (1 = 2147483647 → user_version db' = 0).
Proof.
  assert (H1 : missing_columns room_info = []) by (vm_compute; reflexivity).
  assert (H2 : Forall (fun p => is_Some (normalize (fst p)))
                      [(stray_patch, 1800000000)])
    by (repeat constructor; eexists; reflexivity).
  split; [exact H1|]. split; [exact H2|].
  exact (proj1 (proj2 user_version_bump [(stray_patch, 1800000000)]
                      (Table room_info [eth_row]) 1 H1 H2)).
Defined.

(** C4, as stated, fails: [safe_patch_prebuilt_db.py] bumps
    [user_version] although no entry was updated. *)
Lemma bump_without_update :
  SafePatch.main (SafePatch.Args [(stray_patch, 1800000000)] true None false)
                 room_store
  = Ok (Store (Some (Table room_info [eth_row])) 2, (0, 1, 0))
  ∧ user_version room_store = 1.
Proof. split; by vm_compute. Qed.

(** *** Descriptions under enrichment and patching *)

Lemma apply_ops_app ops1 ops2 rs :
  apply_ops (ops1 ++ ops2) rs = apply_ops ops2 (apply_ops ops1 rs).
Proof. unfold apply_ops. by rewrite fold_left_app. Qed.






Lemma Forall2_chain {A} (R : A → A → Prop) (l k m : list A) :
  (∀ x y z, R x y → R y z → R x z) →
  Forall2 R l k → Forall2 R k m → Forall2 R l m.
Proof.
  intros Htrans Hlk. revert m.
  induction Hlk as [|x y l k Hxy Hlk IH]; intros m Hkm.
  - by inversion Hkm.
  - inversion Hkm as [|? z ? m' Hyz Hkm']; subst.
    constructor; [by eapply Htrans | by apply IH].
Qed.





Lemma primary_key_singleton r : primary_key [r].
Proof.
  intros i j r1 r2 k Hi Hj _ _.
  apply lookup_lt_Some in Hi, Hj. simpl in *. lia.
Qed.



(** [enrich_details] of [build_prebuilt_tokens.py] writes what upstream
    gave, also over a description the row already has: here a row that
    lacked only its image loses its description. *)
Lemma tokens_enrich_overwrites_description :
  BuildPrebuiltTokens.list_ids_needing_enrich [eth_no_image] false
  = [Some "eth"]
  ∧ BuildPrebuiltTokens.enrich_details (fun s => s) fetch_bare 1800000000
                                       [eth_no_image] ["eth"] false
    = [Token (Some "eth") (Some "eth") (Some "Ethereum") None None
             (Some 1800000000)].
Proof. split; by vm_compute. Qed.

(** C8 at its failing input. Seven 429 responses whose Retry-After is an
    HTTP-date: [request_json] of [build_prebuilt_db.py] lets the ValueError
    of [float(retry_after)] escape on the first attempt, so the caller
    sees neither a retry nor the HTTP error, whatever the jitter and the
    clock; the copy in [build_prebuilt_tokens.py] waits 10 s each time and
    raises the HTTP error on attempt [MAX_RETRIES + 1]. *)
Theorem request_json_invalid_retry_after :
  (∀ u clock last,
     BuildPrebuiltDb.request_json u clock last seven_dated_429
     = Fetcher.Run (Some (Raise ValueError)) 1
                   (fst (Fetcher.gate BuildPrebuiltDb.cfg clock 1 last))
                   (snd (Fetcher.gate BuildPrebuiltDb.cfg clock 1 last))
     ∧ Fetcher.waited
         (Fetcher.sleeps
            (BuildPrebuiltDb.request_json u clock last seven_dated_429))
       = [])
  ∧ (∀ u clock last,
       Fetcher.outcome
         (BuildPrebuiltTokens.request_json u clock last seven_dated_429)
       = Some (Raise (HTTPError 429))
       ∧ Fetcher.attempts
           (BuildPrebuiltTokens.request_json u clock last seven_dated_429)
         = 7
       ∧ Fetcher.waited
           (Fetcher.sleeps
              (BuildPrebuiltTokens.request_json u clock last
                                                seven_dated_429))
         = repeat 10%Q 6).
Proof.
  split.
  - intros u clock last.
    assert (Hrun :
      BuildPrebuiltDb.request_json u clock last seven_dated_429
      = Fetcher.Run (Some (Raise ValueError)) 1
                    (fst (Fetcher.gate BuildPrebuiltDb.cfg clock 1 last))
                    (snd (Fetcher.gate BuildPrebuiltDb.cfg clock 1 last)))
      by reflexivity.
    split; [exact Hrun|]. rewrite Hrun. cbn [Fetcher.sleeps].
    apply waited_gate.
  - intros u clock last.
    unfold BuildPrebuiltTokens.request_json, Fetcher.request_json.
    change seven_dated_429
      with (repeat (Fetcher.Http 429 Fetcher.RetryAfterInvalid
                                 (None : option unit)) 6
            ++ Fetcher.Http 429 Fetcher.RetryAfterInvalid None :: []).
    rewrite request_loop_exhausted.
    + cbv zeta. cbn [Fetcher.outcome Fetcher.attempts Fetcher.sleeps].
      split; [done|]. split; [done|].
      rewrite app_nil_l, waited_app, waited_naps_of, waited_gate.
      reflexivity.
    + reflexivity.
    + intros i r Hi. apply list_elem_of_lookup_2, list_elem_of_In in Hi.
      apply repeat_spec in Hi as ->.
      split; [done|]. exists 10%Q. done.
    + split; [done|]. by eexists.
Qed.

(** The ceiling itself holds in both copies: never more than
    [MAX_RETRIES + 1] attempts, and with that many responses at hand the
    call ends. *)
Lemma request_json_ceiling {B} cfg u clock last
      (rs : list (Fetcher.response B)) :
  cfg = BuildPrebuiltDb.cfg ∨ cfg = BuildPrebuiltTokens.cfg →
  Fetcher.attempts (Fetcher.request_json cfg u clock last rs) ≤ 7
  ∧ ((7 ≤ length rs)%nat →
     is_Some (Fetcher.outcome (Fetcher.request_json cfg u clock last rs))).
Proof.
  intros Hcfg. unfold Fetcher.request_json. split.
  - pose proof (request_loop_attempts cfg u clock rs 0 last []) as H.
    destruct Hcfg as [-> | ->]; apply H; by vm_compute.
  - intros Hlen. apply request_loop_ends.
    + destruct Hcfg as [-> | ->]; by vm_compute.
    + destruct Hcfg as [-> | ->]; simpl; lia.
Qed.

(** *** The definitions at work *)

Example seed_fresh_store :
  BuildPrebuiltDb.seed_rows_from_crypto_com
    [] [("bitcoin", "btc", "Bitcoin"); ("ethereum", "eth", "Ethereum");
        ("bitcoin", "btc", "Bitcoin (BTC)")]
  = [ Token (Some "bitcoin") (Some "btc") (Some "Bitcoin (BTC)") None None
            (Some 0);
      Token (Some "ethereum") (Some "eth") (Some "Ethereum") None None
            (Some 0) ].
Proof. by vm_compute. Qed.

Example seed_keeps_details :
  BuildPrebuiltTokens.seed_rows_from_crypto_com
    [eth_row] [("eth", "ETH", "Ether")]
  = [ Token (Some "eth") (Some "ETH") (Some "Ether") (Some "A chain.")
            (Some "eth.png") (Some 1700000000) ].
Proof. by vm_compute. Qed.

Example request_json_recovers :
  BuildPrebuiltDb.request_json
    half_jitter busy_clock 0
    [ Fetcher.Http 429 Fetcher.NoRetryAfter None;
      Fetcher.Http 503 (Fetcher.RetryAfterSecs 5) None;
      Fetcher.TimedOut;
      Fetcher.Http 200 Fetcher.NoRetryAfter (Some tt) ]
  = Fetcher.Run (Some (Ok tt)) 4
      [ Fetcher.Waited (2476979795053773 # 1125899906842624);
        Fetcher.Spaced (40 # 4);
        Fetcher.Waited 5;
        Fetcher.Spaced (40 # 4);
        Fetcher.Waited (2308094809027379 # 281474976710656);
        Fetcher.Spaced (40 # 4) ]
      1700000070.
Proof. by vm_compute. Qed.

Example request_json_gives_up :
  Fetcher.outcome
    (BuildPrebuiltTokens.request_json
       half_jitter idle_clock 0 (repeat (Fetcher.TimedOut (B:=unit)) 10))
  = Some (Raise Timeout)
  ∧ Fetcher.attempts
      (BuildPrebuiltTokens.request_json
         half_jitter idle_clock 0 (repeat (Fetcher.TimedOut (B:=unit)) 10))
    = 7
  ∧ Fetcher.spaced
      (Fetcher.sleeps
         (BuildPrebuiltTokens.request_json
            half_jitter idle_clock 0
            (repeat (Fetcher.TimedOut (B:=unit)) 10)))
    = [].
Proof. repeat split; by vm_compute. Qed.

(** The rounding at work: 0.1 + 0.2 is not 0.3, a tie goes to the even
    neighbour, and the seconds of the waits are the floats Python
    prints as 2.2 and 4.4. *)
Example round_examples :
  Float64.round (Float64.round (1 # 10) + Float64.round (2 # 10))
  = 1351079888211149 # 4503599627370496
  ∧ Float64.round (3 # 10) = 5404319552844595 # 18014398509481984
  ∧ Float64.round 9007199254740993 = 9007199254740992%Q
  ∧ Float64.round 9007199254740995 = 9007199254740996%Q
  ∧ Float64.round (2 + Float64.round ((1 # 2) * Float64.round (4 # 10)))
    = 2476979795053773 # 1125899906842624
  ∧ Float64.round (22 # 10) = 2476979795053773 # 1125899906842624
  ∧ Float64.round (44 # 10) = 2476979795053773 # 562949953421312.
Proof. repeat split; by vm_compute. Qed.

(** On the waits of both copies, for the middle and for the largest
    draw, [Float64.round] gives what [SFmul] and [SFadd] of the Standard
    Library's IEEE 754 specification give at precision 53. *)
Example round_agrees_with_SpecFloat :
  Float64.of_spec_float sf_04 = Some (Float64.round (4 # 10))
  ∧ Forall (fun '(d, sf) =>
              Float64.of_spec_float sf = Some d
              ∧ Float64.of_spec_float
                  (SFadd 53 1024 sf (SFmul 53 1024 sf_half sf_04))
                = Some (Float64.round
                          (d + Float64.round
                                 ((1 # 2) * Float64.round (4 # 10))))
              ∧ Float64.of_spec_float
                  (SFadd 53 1024 sf (SFmul 53 1024 sf_top sf_04))
                = Some (Float64.round
                          (d + Float64.round
                                 ((1 - (1 # 9007199254740992))
                                  * Float64.round (4 # 10)))))
           sf_backoffs.
Proof. split; [by vm_compute|]. repeat constructor; by vm_compute. Qed.

(** At the ceiling of the 32-bit field the bump of both patchers stores
    0, and so does a --set-user-version that does not fit. *)
Example user_version_at_the_ceiling :
  (∃ rs tot,
     SafePatch.main (SafePatch.Args [(stray_patch, 1800000000)] true None
                                    false)
                    (Store (Some (Table room_info [eth_row])) 2147483647)
     = Ok (Store (Some (Table room_info rs)) 0, tot))
  ∧ (∃ rs st,
       PatchDescriptions.main (PatchDescriptions.Args true true)
                              [("eth", "Another text.")]
                              (Store (Some (Table room_info [eth_row]))
                                     2147483647)
       = Ok (Store (Some (Table room_info rs)) 0, st)
       ∧ PatchDescriptions.updated st = 1)
  ∧ (∃ rs tot,
       SafePatch.main (SafePatch.Args [(stray_patch, 1800000000)] false
                                      (Some 1700000000000) false)
                      room_store
       = Ok (Store (Some (Table room_info rs)) 0, tot)).
Proof.
  split; [|split].
  - eexists _, _. by vm_compute.
  - eexists _, _. split; by vm_compute.
  - eexists _, _. by vm_compute.
Qed.

Example db_enrich_fills_description :
  BuildPrebuiltDb.enrich_details
    (fun s => s) markets_down fetch_text 1800000000
    [seeded "btc"; eth_no_image] ["btc"; "eth"] false
  = [ Token (Some "btc") (Some "SYM") (Some "Name") (Some "New text.") None
            (Some 1800000000);
      eth_no_image ].
Proof. by vm_compute. Qed.

Example patch_map_form :
  apply_patches room_store
    (PatchMap [ ("eth", Some {[ "imageUrl" := PyStr "new.png" ]});
                ("note", None);
                ("btc", Some {[ "description" := PyStr "x" ]}) ])
    false 1800000000
  = Ok (Store (Some (Table room_info
                       [ Token (Some "eth") (Some "eth") (Some "Ethereum")
                               (Some "A chain.") (Some "new.png")
                               (Some 1800000000) ])) 1,
        (1, 1, 0)).
Proof. by vm_compute. Qed.

(** * Further properties of the code *)

(** *** [chunked] *)

Lemma chunked_from_concat {A} n fuel : ∀ xs : list A,
  (0 < n)%nat → (length xs ≤ fuel)%nat →
  concat (BuildPrebuiltDb.chunked_from fuel xs n) = xs.
Proof.
  induction fuel as [|fuel IH]; intros xs Hn Hlen.
  - destruct xs; [done | simpl in Hlen; lia].
  - destruct xs as [|x xs]; [done|].
    cbn [BuildPrebuiltDb.chunked_from concat].
    rewrite IH; [apply take_drop | done |].
    rewrite length_drop. simpl in *. lia.
Qed.

Lemma chunked_from_sizes {A} n fuel : ∀ xs : list A,
  (0 < n)%nat →
  Forall (fun c => (0 < length c ≤ n)%nat)
         (BuildPrebuiltDb.chunked_from fuel xs n).
Proof.
  induction fuel as [|fuel IH]; intros xs Hn; [constructor|].
  destruct xs as [|x xs]; [constructor|].
  cbn [BuildPrebuiltDb.chunked_from]. constructor; [|by apply IH].
  rewrite length_take. simpl. lia.
Qed.

(** X1. [chunked(xs, n)] with a positive [n] cuts [xs] into consecutive
    slices: put back together they are [xs], none is empty and none is
    longer than [n]. *)
Theorem chunked_partitions :
  ∀ (A : Type) (xs : list A) (n : nat),
    (0 < n)%nat →
    concat (BuildPrebuiltDb.chunked xs n) = xs
    ∧ Forall (fun c => (0 < length c ≤ n)%nat) (BuildPrebuiltDb.chunked xs n).
Proof.
  intros A xs n Hn. unfold BuildPrebuiltDb.chunked. split.
  - by apply chunked_from_concat.
  - by apply chunked_from_sizes.
Qed.

Lemma chunked_partitions_witness :
  (0 < 2)%nat
  ∧ concat (BuildPrebuiltDb.chunked ["a"; "b"; "c"; "d"; "e"] 2)
    = ["a"; "b"; "c"; "d"; "e"]
  ∧ Forall (fun c => (0 < length c ≤ 2)%nat)
           (BuildPrebuiltDb.chunked ["a"; "b"; "c"; "d"; "e"] 2).
Proof.
  assert (H : (0 < 2)%nat) by lia.
  split; [exact H|].
  exact (chunked_partitions string ["a"; "b"; "c"; "d"; "e"] 2 H).
Defined.

(** *** More on [request_json] *)

(** X3. The first answer that is neither a 429/5xx nor an error status
    ends the call: after at most [MAX_RETRIES] retried failures
    [request_json] returns its body, having made one attempt per response
    read. Its trace is, for each failure in order, what [_throttle] slept
    at the head of the attempt and then the wait of the failure, and last
    what [_throttle] slept at the head of the answered attempt: the waits
    slept are exactly those of the failures, and [_throttle] slept at most
    once per attempt. [_last_call_ts] is the reading [_throttle] took at
    the answered attempt. *)
Theorem request_json_returns_first_answer :
  ∀ (B : Type) (cfg : Fetcher.config) (u : Z → Q) (clock : Z → Q * Q)
    (last : Q) (pre rest : list (Fetcher.response B)) status ra (b : B),
    cfg = BuildPrebuiltDb.cfg ∨ cfg = BuildPrebuiltTokens.cfg →
    (length pre ≤ 6)%nat →
    (∀ i r, pre !! i = Some r →
            Fetcher.retried cfg u (0 + 1 + Z.of_nat i) r) →
    Fetcher.retryable status = false →
    Fetcher.is_error_status status = false →
    let T := naps_of cfg u clock 0 last pre in
    let G := Fetcher.gate cfg clock (Z.of_nat (length pre) + 1) (snd T) in
    Fetcher.request_json cfg u clock last
                         (pre ++ Fetcher.Http status ra (Some b) :: rest)
    = Fetcher.Run (Some (Ok b)) (Z.of_nat (length pre) + 1)
                  (fst T ++ fst G) (snd G)
    ∧ Fetcher.waited (fst T ++ fst G) = waits_of cfg u 0 pre
    ∧ (length (Fetcher.spaced (fst T ++ fst G)) ≤ length pre + 1)%nat.
Proof.
  intros B cfg u clock last pre rest status ra b Hcfg Hlen Hpre Hretry Herr
         T G.
  split; [|split].
  - unfold Fetcher.request_json.
    rewrite request_loop_retried;
      [|rewrite (cfg_max_retries cfg Hcfg); lia|done].
    cbn [Fetcher.request_loop]. rewrite Hretry, Herr. simpl.
    by rewrite Z.add_0_l.
  - subst T G. by rewrite waited_app, waited_naps_of, waited_gate, app_nil_r.
  - subst T G. rewrite spaced_app, length_app.
    pose proof (length_spaced_naps_of cfg u clock pre 0 last).
    pose proof (length_spaced_gate cfg clock (Z.of_nat (length pre) + 1)
                  (snd (naps_of cfg u clock 0 last pre))).
    lia.
Qed.

Lemma flaky_prefix_retried :
  ∀ i r, flaky_prefix !! i = Some r →
         Fetcher.retried BuildPrebuiltDb.cfg half_jitter
                         (0 + 1 + Z.of_nat i) r.
Proof.
  intros i r Hi.
  destruct i as [|[|i]]; simpl in Hi; [| |done].
  - injection Hi as <-. simpl. split; [done|]. by exists 5%Q.
  - injection Hi as <-. by vm_compute.
Qed.

Lemma request_json_returns_first_answer_witness :
  (BuildPrebuiltDb.cfg = BuildPrebuiltDb.cfg
   ∨ BuildPrebuiltDb.cfg = BuildPrebuiltTokens.cfg)
  ∧ (length flaky_prefix ≤ 6)%nat
  ∧ Fetcher.retryable 200 = false
  ∧ Fetcher.is_error_status 200 = false
  ∧ Fetcher.request_json BuildPrebuiltDb.cfg half_jitter busy_clock 0
      (flaky_prefix ++ [Fetcher.Http 200 Fetcher.NoRetryAfter (Some tt)])
    = Fetcher.Run (Some (Ok tt)) 3
        [ Fetcher.Waited 5;
          Fetcher.Spaced (40 # 4);
          Fetcher.Waited (4728779608739021 # 1125899906842624);
          Fetcher.Spaced (40 # 4) ]
        1700000055.
Proof.
  assert (H1 : BuildPrebuiltDb.cfg = BuildPrebuiltDb.cfg
               ∨ BuildPrebuiltDb.cfg = BuildPrebuiltTokens.cfg)
    by (left; reflexivity).
  assert (H2 : (length flaky_prefix ≤ 6)%nat) by (simpl; lia).
  assert (H3 : Fetcher.retryable 200 = false) by reflexivity.
  assert (H4 : Fetcher.is_error_status 200 = false) by reflexivity.
  repeat (split; [assumption|]).
  rewrite (proj1 (request_json_returns_first_answer unit BuildPrebuiltDb.cfg
                    half_jitter busy_clock 0 flaky_prefix [] 200
                    Fetcher.NoRetryAfter tt H1 H2 flaky_prefix_retried
                    H3 H4)).
  by vm_compute.
Defined.

(** X4. An error status other than 429 and 5xx is not retried: the
    attempt that meets it raises the HTTP error, whatever responses would
    follow, and no sleep follows it. The waits slept before are those of
    the failures that preceded it. *)
Theorem request_json_client_error_not_retried :
  ∀ (B : Type) (cfg : Fetcher.config) (u : Z → Q) (clock : Z → Q * Q)
    (last : Q) (pre rest : list (Fetcher.response B)) status ra body,
    cfg = BuildPrebuiltDb.cfg ∨ cfg = BuildPrebuiltTokens.cfg →
    (length pre ≤ 6)%nat →
    (∀ i r, pre !! i = Some r →
            Fetcher.retried cfg u (0 + 1 + Z.of_nat i) r) →
    Fetcher.retryable status = false →
    Fetcher.is_error_status status = true →
    let T := naps_of cfg u clock 0 last pre in
    let G := Fetcher.gate cfg clock (Z.of_nat (length pre) + 1) (snd T) in
    Fetcher.request_json cfg u clock last
                         (pre ++ Fetcher.Http status ra body :: rest)
    = Fetcher.Run (Some (Raise (HTTPError status)))
                  (Z.of_nat (length pre) + 1) (fst T ++ fst G) (snd G)
    ∧ Fetcher.waited (fst T ++ fst G) = waits_of cfg u 0 pre.
Proof.
  intros B cfg u clock last pre rest status ra body Hcfg Hlen Hpre Hretry
         Herr T G.
  split.
  - unfold Fetcher.request_json.
    rewrite request_loop_retried;
      [|rewrite (cfg_max_retries cfg Hcfg); lia|done].
    cbn [Fetcher.request_loop]. rewrite Hretry, Herr. simpl.
    by rewrite Z.add_0_l.
  - subst T G. by rewrite waited_app, waited_naps_of, waited_gate, app_nil_r.
Qed.

Lemma request_json_client_error_not_retried_witness :
  (BuildPrebuiltDb.cfg = BuildPrebuiltDb.cfg
   ∨ BuildPrebuiltDb.cfg = BuildPrebuiltTokens.cfg)
  ∧ (length flaky_prefix ≤ 6)%nat
  ∧ Fetcher.retryable 404 = false
  ∧ Fetcher.is_error_status 404 = true
  ∧ Fetcher.request_json BuildPrebuiltDb.cfg half_jitter busy_clock 0
      (flaky_prefix ++ Fetcher.Http 404 Fetcher.NoRetryAfter None
                    :: [Fetcher.Http 200 Fetcher.NoRetryAfter (Some tt)])
    = Fetcher.Run (Some (Raise (HTTPError 404))) 3
        [ Fetcher.Waited 5;
          Fetcher.Spaced (40 # 4);
          Fetcher.Waited (4728779608739021 # 1125899906842624);
          Fetcher.Spaced (40 # 4) ]
        1700000055.
Proof.
  assert (H1 : BuildPrebuiltDb.cfg = BuildPrebuiltDb.cfg
               ∨ BuildPrebuiltDb.cfg = BuildPrebuiltTokens.cfg)
    by (left; reflexivity).
  assert (H2 : (length flaky_prefix ≤ 6)%nat) by (simpl; lia).
  assert (H3 : Fetcher.retryable 404 = false) by reflexivity.
  assert (H4 : Fetcher.is_error_status 404 = true) by reflexivity.
  repeat (split; [assumption|]).
  rewrite (proj1 (request_json_client_error_not_retried unit
                    BuildPrebuiltDb.cfg half_jitter busy_clock 0
                    flaky_prefix
                    [Fetcher.Http 200 Fetcher.NoRetryAfter (Some tt)]
                    404 Fetcher.NoRetryAfter None
                    H1 H2 flaky_prefix_retried H3 H4)).
  by vm_compute.
Defined.

(** X5. When the first [MAX_RETRIES] attempts fail and are retried and
    attempt [MAX_RETRIES + 1] fails too, the call raises the error of that
    last attempt, the HTTP error of its status or the timeout or
    connection error, after exactly [MAX_RETRIES + 1] attempts. It has
    slept the [MAX_RETRIES] waits of the retried failures and, on top of
    them, what [_throttle] slept at the head of the attempts, at most
    once for each of the seven. *)
Theorem request_json_raises_last_error :
  ∀ (B : Type) (cfg : Fetcher.config) (u : Z → Q) (clock : Z → Q * Q)
    (last : Q) (pre rest : list (Fetcher.response B)) r_last,
    cfg = BuildPrebuiltDb.cfg ∨ cfg = BuildPrebuiltTokens.cfg →
    length pre = 6%nat →
    (∀ i r, pre !! i = Some r →
            Fetcher.retried cfg u (0 + 1 + Z.of_nat i) r) →
    Fetcher.failed cfg u 7 r_last →
    let T := naps_of cfg u clock 0 last pre in
    let G := Fetcher.gate cfg clock 7 (snd T) in
    Fetcher.request_json cfg u clock last (pre ++ r_last :: rest)
    = Fetcher.Run (Some (Raise (Fetcher.error_of r_last))) 7
                  (fst T ++ fst G) (snd G)
    ∧ Fetcher.waited (fst T ++ fst G) = waits_of cfg u 0 pre
    ∧ length (waits_of cfg u 0 pre) = 6%nat
    ∧ (length (Fetcher.spaced (fst T ++ fst G)) ≤ 7)%nat.
Proof.
  intros B cfg u clock last pre rest r_last Hcfg Hlen Hpre Hlast T G.
  pose proof (cfg_max_retries cfg Hcfg) as Hmax.
  split; [|split; [|split]].
  - unfold Fetcher.request_json.
    rewrite request_loop_exhausted.
    + cbv zeta. rewrite Hmax, app_nil_l. done.
    + rewrite Hmax, Hlen. done.
    + done.
    + by rewrite Hmax.
  - subst T G. by rewrite waited_app, waited_naps_of, waited_gate, app_nil_r.
  - by rewrite length_waits_of.
  - subst T G. rewrite spaced_app, length_app.
    pose proof (length_spaced_naps_of cfg u clock pre 0 last).
    pose proof (length_spaced_gate cfg clock 7
                  (snd (naps_of cfg u clock 0 last pre))).
    lia.
Qed.

Lemma six_timeouts_retried :
  ∀ i r, six_timeouts !! i = Some r →
         Fetcher.retried BuildPrebuiltTokens.cfg half_jitter
                         (0 + 1 + Z.of_nat i) r.
Proof.
  intros i r Hi.
  do 6 (destruct i as [|i]; [injection Hi as <-; by vm_compute|]).
  done.
Qed.

Lemma request_json_raises_last_error_witness :
  (BuildPrebuiltTokens.cfg = BuildPrebuiltDb.cfg
   ∨ BuildPrebuiltTokens.cfg = BuildPrebuiltTokens.cfg)
  ∧ length six_timeouts = 6%nat
  ∧ Fetcher.failed BuildPrebuiltTokens.cfg half_jitter 7
                   (Fetcher.Http 502 (Fetcher.RetryAfterSecs 3)
                                 (None : option unit))
  ∧ Fetcher.outcome
      (Fetcher.request_json BuildPrebuiltTokens.cfg half_jitter idle_clock 0
         (six_timeouts
          ++ [Fetcher.Http 502 (Fetcher.RetryAfterSecs 3) None]))
    = Some (Raise (HTTPError 502)).
Proof.
  assert (H1 : BuildPrebuiltTokens.cfg = BuildPrebuiltDb.cfg
               ∨ BuildPrebuiltTokens.cfg = BuildPrebuiltTokens.cfg)
    by (right; reflexivity).
  assert (H2 : length six_timeouts = 6%nat) by reflexivity.
  assert (H3 : Fetcher.failed BuildPrebuiltTokens.cfg half_jitter 7
                 (Fetcher.Http 502 (Fetcher.RetryAfterSecs 3)
                               (None : option unit)))
    by (split; [reflexivity | by eexists]).
  repeat (split; [assumption|]).
  rewrite (proj1 (request_json_raises_last_error unit BuildPrebuiltTokens.cfg
                    half_jitter idle_clock 0 six_timeouts [] _ H1 H2
                    six_timeouts_retried H3)).
  reflexivity.
Defined.

(** X6. A Retry-After given in seconds is honoured exactly: within a run
    of retried attempts, the [time.sleep(wait)] after a 429/5xx response
    that carries Retry-After [q] lasts [q], not the backoff. *)
Theorem request_json_honours_retry_after :
  ∀ (B : Type) (cfg : Fetcher.config) (u : Z → Q) (clock : Z → Q * Q)
    (last : Q) (pre rest : list (Fetcher.response B)) (i : nat) status q
    body,
    cfg = BuildPrebuiltDb.cfg ∨ cfg = BuildPrebuiltTokens.cfg →
    (length pre ≤ 6)%nat →
    (∀ j r, pre !! j = Some r →
            Fetcher.retried cfg u (0 + 1 + Z.of_nat j) r) →
    pre !! i = Some (Fetcher.Http status (Fetcher.RetryAfterSecs q) body) →
    Fetcher.waited
      (Fetcher.sleeps (Fetcher.request_json cfg u clock last (pre ++ rest)))
      !! i
    = Some q.
Proof.
  intros B cfg u clock last pre rest i status q body Hcfg Hlen Hpre Hi.
  unfold Fetcher.request_json.
  rewrite request_loop_retried;
    [|rewrite (cfg_max_retries cfg Hcfg); lia|done].
  destruct (sleeps_extend cfg u clock rest (0 + Z.of_nat (length pre))
              (snd (naps_of cfg u clock 0 last pre))
              ([] ++ fst (naps_of cfg u clock 0 last pre))) as [more ->].
  rewrite app_nil_l, waited_app, waited_naps_of, lookup_app_l
    by (rewrite length_waits_of; by apply lookup_lt_Some in Hi).
  by rewrite lookup_waits_of, Hi.
Qed.

Lemma request_json_honours_retry_after_witness :
  (BuildPrebuiltDb.cfg = BuildPrebuiltDb.cfg
   ∨ BuildPrebuiltDb.cfg = BuildPrebuiltTokens.cfg)
  ∧ (length flaky_prefix ≤ 6)%nat
  ∧ flaky_prefix !! 0%nat
    = Some (Fetcher.Http 503 (Fetcher.RetryAfterSecs 5) None)
  ∧ Fetcher.waited
      (Fetcher.sleeps
         (Fetcher.request_json BuildPrebuiltDb.cfg half_jitter busy_clock 0
                               (flaky_prefix ++ []))) !! 0%nat
    = Some 5%Q.
Proof.
  assert (H1 : BuildPrebuiltDb.cfg = BuildPrebuiltDb.cfg
               ∨ BuildPrebuiltDb.cfg = BuildPrebuiltTokens.cfg)
    by (left; reflexivity).
  assert (H2 : (length flaky_prefix ≤ 6)%nat) by (simpl; lia).
  assert (H3 : flaky_prefix !! 0%nat
               = Some (Fetcher.Http 503 (Fetcher.RetryAfterSecs 5) None))
    by reflexivity.
  repeat (split; [assumption|]).
  exact (request_json_honours_retry_after unit BuildPrebuiltDb.cfg half_jitter
           busy_clock 0 flaky_prefix [] 0 503 5%Q None H1 H2
           flaky_prefix_retried H3).
Defined.

(** X2. Whatever the responses, the jitter and the clock, a call of
    [request_json] makes at most [MAX_RETRIES + 1] = 7 attempts and has
    returned or raised by the time seven responses were read. The sleeps
    of a finished call are laid out by attempts: at the head of each
    attempt [_throttle] sleeps once, for a positive time, or not at all;
    between two consecutive attempts there is exactly one
    [time.sleep(wait)], of non-negative length; nothing is slept after
    the last attempt. This holds for both copies. *)
Theorem request_json_bounded :
  (∀ (B : Type) (u : Z → Q) (clock : Z → Q * Q) (last : Q)
     (rs : list (Fetcher.response B)),
     let r := BuildPrebuiltDb.request_json u clock last rs in
     Fetcher.attempts r ≤ 7
     ∧ (is_Some (Fetcher.outcome r) →
        ∃ gates ws,
          Fetcher.sleeps r = weave gates ws
          ∧ Z.of_nat (length gates) = Fetcher.attempts r
          ∧ Z.of_nat (length ws) = Fetcher.attempts r - 1
          ∧ Forall gate_shape gates
          ∧ Forall (fun w => (0 <= w)%Q) ws)
     ∧ ((7 ≤ length rs)%nat → is_Some (Fetcher.outcome r)))
  ∧ (∀ (B : Type) (u : Z → Q) (clock : Z → Q * Q) (last : Q)
       (rs : list (Fetcher.response B)),
       let r := BuildPrebuiltTokens.request_json u clock last rs in
       Fetcher.attempts r ≤ 7
       ∧ (is_Some (Fetcher.outcome r) →
          ∃ gates ws,
            Fetcher.sleeps r = weave gates ws
            ∧ Z.of_nat (length gates) = Fetcher.attempts r
            ∧ Z.of_nat (length ws) = Fetcher.attempts r - 1
            ∧ Forall gate_shape gates
            ∧ Forall (fun w => (0 <= w)%Q) ws)
       ∧ ((7 ≤ length rs)%nat → is_Some (Fetcher.outcome r))).
Proof.
  assert (H : ∀ cfg, Fetcher.MAX_RETRIES cfg = 6 →
    ∀ (B : Type) (u : Z → Q) (clock : Z → Q * Q) (last : Q)
      (rs : list (Fetcher.response B)),
      let r := Fetcher.request_json cfg u clock last rs in
      Fetcher.attempts r ≤ 7
      ∧ (is_Some (Fetcher.outcome r) →
         ∃ gates ws,
           Fetcher.sleeps r = weave gates ws
           ∧ Z.of_nat (length gates) = Fetcher.attempts r
           ∧ Z.of_nat (length ws) = Fetcher.attempts r - 1
           ∧ Forall gate_shape gates
           ∧ Forall (fun w => (0 <= w)%Q) ws)
      ∧ ((7 ≤ length rs)%nat → is_Some (Fetcher.outcome r))).
  { intros cfg Hmax B u clock last rs r. subst r.
    unfold Fetcher.request_json. split; [|split].
    - pose proof (request_loop_attempts cfg u clock rs 0 last []) as Ha.
      rewrite Hmax in Ha. apply Ha. lia.
    - intros Hsome.
      destruct (request_loop_weave cfg u clock rs 0 last [] Hsome)
        as (gates & ws & Hs & Hg & Hw & Hgs & Hws).
      exists gates, ws. rewrite Hs, app_nil_l.
      repeat split; try done; lia.
    - intros Hlen. apply request_loop_ends; rewrite Hmax; lia. }
  split; intros B u clock last rs; by apply H.
Qed.

(** *** More on [apply_patches] *)

Lemma coalesce_assoc {A} (a b c : option A) :
  coalesce a (coalesce b c) = coalesce (coalesce a b) c.
Proof. by destruct a, b. Qed.

Lemma coalesce_twice {A} (a c : option A) :
  coalesce a (coalesce a c) = coalesce a c.
Proof. by destruct a. Qed.

(** The net effect of a sequence of patch updates on the rows of one
    identifier: one COALESCE per column and, when a statement addressed the
    identifier, the timestamp. *)
Lemma patch_shape_row_ops ts ops : ∀ key,
  (∀ o, o ∈ ops →
        ∃ d im, ∀ r, snd o r
                     = Token (cgId r) (symbol r) (name r)
                             (coalesce d (description r))
                             (coalesce im (imageUrl r)) (Some ts)) →
  ∃ D I (M : bool), ∀ r,
    cgId r = key →
    row_ops ops r
    = Token (cgId r) (symbol r) (name r) (coalesce D (description r))
            (coalesce I (imageUrl r))
            (if M then Some ts else updatedAt r).
Proof.
  induction ops as [|o ops IH]; intros key Hshape.
  - exists None, None, false. intros r _. by destruct r.
  - destruct (IH key) as (D & I & M & HF).
    { intros o' Ho'. apply Hshape. by apply list_elem_of_further. }
    destruct (Hshape o) as (d & im & Ho); [apply list_elem_of_here|].
    destruct (decide (key = Some (fst o))) as [Hk|Hk].
    + exists (coalesce D d), (coalesce I im), true. intros r Hr.
      rewrite row_ops_cons.
      rewrite (proj2 (has_key_true (fst o) r)) by congruence.
      rewrite HF by (rewrite Ho; simpl; congruence).
      rewrite Ho. simpl. rewrite !coalesce_assoc. by destruct M.
    + exists D, I, M. intros r Hr. rewrite row_ops_cons.
      assert (has_key (fst o) r = false) as ->.
      { apply not_true_is_false. rewrite has_key_true. congruence. }
      by apply HF.
Qed.

Lemma patch_ops_shape ts rs items o :
  o ∈ patch_ops ts rs items →
  ∃ d im, ∀ r, snd o r
               = Token (cgId r) (symbol r) (name r)
                       (coalesce d (description r))
                       (coalesce im (imageUrl r)) (Some ts).
Proof.
  intros Ho. apply elem_of_patch_ops in Ho as (it & _ & _ & _ & Hsnd).
  by eexists _, _.
Qed.

(** X7. [apply_patches] writes description, imageUrl and updatedAt only:
    it never creates or deletes a record and never changes an identifier,
    a symbol or a name; the layout of the table and [user_version] are
    left as they are. *)
Theorem apply_patches_frame :
  ∀ i rs uv p dry ts items,
    normalize p = Some items →
    ∃ rs' c,
      apply_patches (Store (Some (Table i rs)) uv) p dry ts
      = Ok (Store (Some (Table i rs')) uv, c)
      ∧ length rs' = length rs
      ∧ Forall2 (fun r r' => cgId r' = cgId r ∧ symbol r' = symbol r
                             ∧ name r' = name r) rs rs'.
Proof.
  intros i rs uv p dry ts items Hn.
  rewrite (apply_patches_ok _ _ _ _ _ _ items Hn).
  eexists _, _. split; [done|].
  assert (HF : Forall2 (fun r r' => cgId r' = cgId r ∧ symbol r' = symbol r
                                    ∧ name r' = name r)
                       rs (if dry then rs
                           else apply_ops (patch_ops ts rs items) rs)).
  { destruct dry.
    - apply Forall_Forall2_diag, Forall_forall. done.
    - rewrite apply_ops_map. apply Forall2_map_self. intros r _.
      assert (Hsh : ∀ o x, o ∈ patch_ops ts rs items →
                           cgId (snd o x) = cgId x ∧ symbol (snd o x) = symbol x
                           ∧ name (snd o x) = name x).
      { intros o x Ho. apply patch_ops_shape in Ho as (d & im & ->). done. }
      split; [|split].
      + apply (row_ops_preserve cgId). intros o x Ho. by apply Hsh.
      + apply (row_ops_preserve symbol). intros o x Ho. by apply Hsh.
      + apply (row_ops_preserve name). intros o x Ho. by apply Hsh. }
  split; [|exact HF]. symmetry. by apply (Forall2_length _ _ _ HF).
Qed.

Lemma apply_patches_frame_witness :
  normalize other_patch = Some [entry "eth" (PyStr "Another text.") PyNone]
  ∧ ∃ rs' c,
      apply_patches room_store other_patch false 1800000000
      = Ok (Store (Some (Table room_info rs')) 1, c)
      ∧ length rs' = 1%nat.
Proof.
  assert (Hn : normalize other_patch
               = Some [entry "eth" (PyStr "Another text.") PyNone])
    by reflexivity.
  split; [exact Hn|].
  destruct (apply_patches_frame room_info [eth_row] 1 other_patch false
              1800000000 _ Hn) as (rs' & c & Hrun & Hlen & _).
  exists rs', c. split; [exact Hrun | exact Hlen].
Defined.

(** X8. [apply_patches] is idempotent for a given timestamp: run again on
    its own result with the same batch it returns the same counts and
    leaves the store as the first run left it. *)
Theorem apply_patches_idempotent :
  ∀ i rs uv p ts items,
    normalize p = Some items →
    ∃ db1 c,
      apply_patches (Store (Some (Table i rs)) uv) p false ts = Ok (db1, c)
      ∧ apply_patches db1 p false ts = Ok (db1, c).
Proof.
  intros i rs uv p ts items Hn.
  rewrite (apply_patches_ok _ _ _ _ _ _ items Hn).
  eexists _, _. split; [done|].
  rewrite (apply_patches_ok _ _ _ _ _ _ items Hn).
  set (ops := patch_ops ts rs items).
  assert (Hinv : ∀ k, sql_exists k (apply_ops ops rs) = sql_exists k rs).
  { intros k. subst ops. clear Hn.
    assert (∀ ops0 rs0,
              (∀ o, o ∈ ops0 → o ∈ patch_ops ts rs items) →
              sql_exists k (apply_ops ops0 rs0) = sql_exists k rs0) as H.
    { induction ops0 as [|o ops0 IH]; intros rs0 Hsub; [done|].
      simpl. fold (apply_ops ops0). rewrite IH.
      - apply sql_exists_update. intros r.
        destruct (patch_ops_shape ts rs items o) as (d & im & ->); [|done].
        apply Hsub, list_elem_of_here.
      - intros o' Ho'. by apply Hsub, list_elem_of_further. }
    by apply H. }
  rewrite (patch_ops_ext ts _ rs items Hinv). fold ops.
  unfold counts. rewrite !(count_class_ext _ _ rs items Hinv).
  do 5 f_equal.
  rewrite !apply_ops_map, map_map. apply map_ext. intros r.
  destruct (patch_shape_row_ops ts ops (cgId r)) as (D & I & M & HF).
  { intros o Ho. by apply (patch_ops_shape ts rs items). }
  rewrite (HF r eq_refl). rewrite HF by done. simpl.
  rewrite !coalesce_twice. by destruct M.
Qed.

Lemma apply_patches_idempotent_witness :
  normalize other_patch = Some [entry "eth" (PyStr "Another text.") PyNone]
  ∧ ∃ db1 c,
      apply_patches room_store other_patch false 1800000000 = Ok (db1, c)
      ∧ apply_patches db1 other_patch false 1800000000 = Ok (db1, c).
Proof.
  assert (Hn : normalize other_patch
               = Some [entry "eth" (PyStr "Another text.") PyNone])
    by reflexivity.
  split; [exact Hn|].
  exact (apply_patches_idempotent room_info [eth_row] 1 other_patch
           1800000000 _ Hn).
Defined.

(** *** More on the schema guard *)

Lemma compatible_reason db :
  fst (schema_is_room_compatible db) = true →
  schema_is_room_compatible db = (true, ReasonOk).
Proof.
  unfold schema_is_room_compatible.
  destruct (tokens db) as [t|]; [|done].
  destruct (missing_columns (info t)); [|done].
  destruct (negb _); [done|].
  by destruct (filter _ REQUIRED_NOT_NULL).
Qed.

Lemma room_info_compatible rs uv :
  schema_is_room_compatible (Store (Some (Table room_info rs)) uv)
  = (true, ReasonOk).
Proof. reflexivity. Qed.

(** X9. [ensure_schema] either raises, and then only because [tokens]
    exists and lacks one of the six columns, or it returns a store that
    [schema_is_room_compatible] accepts, with [user_version] untouched; on
    such a store a further [ensure_schema] changes nothing. *)
Theorem ensure_schema_establishes_room_schema :
  ∀ db,
    match ensure_schema db with
    | Ok db' =>
      schema_is_room_compatible db' = (true, ReasonOk)
      ∧ ensure_schema db' = Ok db'
      ∧ user_version db' = user_version db
    | Raise e =>
      e = OperationalError
      ∧ ∃ t, tokens db = Some t ∧ missing_columns (info t) ≠ []
    end.
Proof.
  intros [[t|] uv]; unfold ensure_schema; cbn [tokens].
  - destruct (fst (schema_is_room_compatible (Store (Some t) uv))) eqn:Hc.
    + split; [by apply compatible_reason|]. split; [|done].
      cbn [tokens]. by rewrite Hc.
    + unfold rebuild_tokens_table_room_schema. cbn [tokens].
      destruct (missing_columns (info t)) as [|c l] eqn:Hm.
      * split; [apply room_info_compatible|]. split; [|done].
        cbn [tokens]. by rewrite room_info_compatible.
      * split; [done|]. exists t. split; [done|]. by rewrite Hm.
  - split; [apply room_info_compatible|]. split; [|done].
    cbn [tokens]. by rewrite room_info_compatible.
Qed.

Lemma insert_or_replace_keys acc r :
  NoDup (cgId <$> acc) → NoDup (cgId <$> insert_or_replace acc r).
Proof.
  intros Hnd. unfold insert_or_replace.
  rewrite fmap_app. apply NoDup_app. split; [|split].
  - induction acc as [|x acc IH]; [constructor|].
    rewrite fmap_cons in Hnd. apply NoDup_cons in Hnd as [Hx Hnd].
    rewrite filter_cons. destruct (decide (cgId x ≠ cgId r)); [|by apply IH].
    rewrite fmap_cons. apply NoDup_cons. split; [|by apply IH].
    intros Hin. apply Hx.
    apply list_elem_of_fmap in Hin as (y & -> & Hy).
    apply list_elem_of_filter in Hy as [_ Hy].
    apply list_elem_of_fmap. by exists y.
  - intros k Hk Hk'. apply list_elem_of_singleton in Hk'. subst k.
    apply list_elem_of_fmap in Hk as (y & Heq & Hy).
    apply list_elem_of_filter in Hy as [Hne _]. by apply Hne.
  - apply NoDup_singleton.
Qed.

Lemma rebuild_copy_keys l : ∀ acc,
  NoDup (cgId <$> acc) →
  NoDup (cgId <$> fold_left insert_or_replace l acc).
Proof.
  induction l as [|r l IH]; intros acc Hnd; [done|].
  simpl. by apply IH, insert_or_replace_keys.
Qed.

(** The row the copy keeps for an identifier is the last old row that
    carries it. *)
Lemma rebuild_copy_last l :
  ∀ r, r ∈ fold_left insert_or_replace l [] →
       ∃ i, l !! i = Some r
            ∧ ∀ j r2, (i < j)%nat → l !! j = Some r2 → cgId r2 ≠ cgId r.
Proof.
  induction l as [|x l IH] using rev_ind; intros r Hr.
  - by apply elem_of_nil in Hr.
  - rewrite fold_left_app in Hr. simpl in Hr.
    unfold insert_or_replace in Hr. apply elem_of_app in Hr as [Hr|Hr].
    + apply list_elem_of_filter in Hr as [Hne Hr].
      destruct (IH r Hr) as (i & Hi & Hlast).
      exists i. split; [by apply lookup_app_l_Some|].
      intros j r2 Hij Hj.
      apply lookup_app_Some in Hj as [Hj|[Hge Hj]]; [by eapply Hlast|].
      destruct (j - length l)%nat; simpl in Hj; [|done].
      injection Hj as <-. done.
    + apply list_elem_of_singleton in Hr as ->.
      exists (length l). split.
      * by rewrite lookup_app_r, Nat.sub_diag.
      * intros j r2 Hij Hj. apply lookup_lt_Some in Hj.
        rewrite length_app in Hj. simpl in Hj. lia.
Qed.

Lemma rebuild_copy_covers l : ∀ acc r,
  r ∈ acc ∨ r ∈ l →
  ∃ r', r' ∈ fold_left insert_or_replace l acc ∧ cgId r' = cgId r.
Proof.
  induction l as [|x l IH]; intros acc r Hr; simpl.
  - destruct Hr as [Hr|Hr]; [by exists r | by apply elem_of_nil in Hr].
  - destruct (decide (cgId x = cgId r)) as [Heq|Hne].
    + destruct (IH (insert_or_replace acc x) x) as (r' & Hr' & Hk).
      { left. unfold insert_or_replace. apply elem_of_app. right.
        apply list_elem_of_here. }
      exists r'. split; [done | congruence].
    + apply IH. destruct Hr as [Hr|Hr].
      * left. unfold insert_or_replace. apply elem_of_app. left.
        apply list_elem_of_filter. split; [congruence | done].
      * apply elem_of_cons in Hr as [->|Hr]; [done | by right].
Qed.

Lemma NoDup_keys_primary_key rs : NoDup (cgId <$> rs) → primary_key rs.
Proof.
  intros Hnd i j r r' k Hi Hj Hr Hr'.
  apply (NoDup_lookup (cgId <$> rs) i j (Some k)); [done| |];
    rewrite list_lookup_fmap.
  - by rewrite Hi; simpl; rewrite Hr.
  - by rewrite Hj; simpl; rewrite Hr'.
Qed.

(** X10. Whenever [rebuild_tokens_table_room_schema] succeeds, the new
    table has the Room layout and honours it: no two rows share an
    identifier and no identifier is null. Every identifier of the old
    table (null read as the empty string) is still there, and the row kept
    for it is the copy of the last old row that carried it. *)
Theorem rebuild_establishes_primary_key :
  ∀ t uv db',
    rebuild_tokens_table_room_schema (Store (Some t) uv) = Ok db' →
    ∃ rs',
      db' = Store (Some (Table room_info rs')) uv
      ∧ NoDup (cgId <$> rs')
      ∧ primary_key rs'
      ∧ Forall (fun r => is_Some (cgId r)) rs'
      ∧ (∀ r, r ∈ rows t → ∃ r', r' ∈ rs' ∧ cgId r' = cgId (copy_row r))
      ∧ (∀ r', r' ∈ rs' →
               ∃ i r, rows t !! i = Some r ∧ r' = copy_row r
                      ∧ ∀ j r2, (i < j)%nat → rows t !! j = Some r2 →
                                cgId (copy_row r2) ≠ cgId r').
Proof.
  intros t uv db' Hrun. unfold rebuild_tokens_table_room_schema in Hrun.
  cbn [tokens user_version] in Hrun.
  destruct (missing_columns (info t)); [|done]. injection Hrun as <-.
  eexists. split; [done|].
  assert (Hnd : NoDup (cgId <$> fold_left insert_or_replace
                                         (copy_row <$> rows t) []))
    by (apply rebuild_copy_keys; constructor).
  split; [done|]. split; [by apply NoDup_keys_primary_key|].
  split; [|split].
  - apply Forall_forall. intros r Hr.
    apply rebuild_copy_subset in Hr as [Hr|Hr]; [by apply elem_of_nil in Hr|].
    apply list_elem_of_fmap in Hr as (r0 & -> & _).
    unfold copy_row, coalesce; simpl. destruct (cgId r0); eauto.
  - intros r Hr. apply rebuild_copy_covers. right.
    apply list_elem_of_fmap. by exists r.
  - intros r' Hr'. apply rebuild_copy_last in Hr' as (i & Hi & Hlast).
    rewrite list_lookup_fmap in Hi.
    destruct (rows t !! i) as [r|] eqn:Hri; [|done].
    injection Hi as <-. exists i, r. split; [done|]. split; [done|].
    intros j r2 Hij Hj. apply (Hlast j (copy_row r2) Hij).
    by rewrite list_lookup_fmap, Hj.
Qed.

Lemma rebuild_establishes_primary_key_witness :
  rebuild_tokens_table_room_schema legacy_store
  = Ok (Store (Some (Table room_info
                       [ Token (Some "btc") (Some "btc") (Some "Bitcoin")
                               None None (Some 0);
                         Token (Some "eth") (Some "eth") (Some "Ethereum")
                               (Some "A chain.") (Some "eth.png")
                               (Some 1700000000) ])) 1)
  ∧ ∃ rs', NoDup (cgId <$> rs') ∧ length rs' = 2%nat.
Proof.
  assert (H : rebuild_tokens_table_room_schema legacy_store
              = Ok (Store (Some (Table room_info
                       [ Token (Some "btc") (Some "btc") (Some "Bitcoin")
                               None None (Some 0);
                         Token (Some "eth") (Some "eth") (Some "Ethereum")
                               (Some "A chain.") (Some "eth.png")
                               (Some 1700000000) ])) 1))
    by reflexivity.
  split; [exact H|].
  destruct (rebuild_establishes_primary_key _ _ _ H)
    as (rs' & Heq & Hnd & _).
  exists rs'. split; [exact Hnd|].
  by injection Heq as <-.
Defined.

(** *** More on the seed phase *)

Lemma filter_none {A} (P : A → Prop) `{∀ x, Decision (P x)} (l : list A) :
  (∀ x, x ∈ l → ¬ P x) → filter P l = [].
Proof.
  induction l as [|x l IH]; intros Hall; [done|].
  rewrite filter_cons_False by (apply Hall, list_elem_of_here).
  apply IH. intros y Hy. by apply Hall, list_elem_of_further.
Qed.

Lemma upsert_seed_cases rs k sym nm :
  Builder.upsert rs (seed_param_of (k, sym, nm))
  = if sql_exists k rs
    then sql_update k (set_symbol_name sym nm) rs
    else rs ++ [Token (Some k) (Some sym) (Some nm) None None (Some 0)].
Proof.
  unfold Builder.upsert, seed_param_of.
  destruct (sql_exists k rs) eqn:Hex; [done|].
  assert (Hnone : filter (fun r => has_key k r = true) rs = []).
  { apply filter_none. intros r Hr Hk.
    assert (sql_exists k rs = true); [|congruence].
    apply sql_exists_true, Exists_exists. exists r.
    split; [done | by apply has_key_true]. }
  unfold Builder.select_scalar. by rewrite Hnone.
Qed.

Lemma Forall2_compose {A} (R1 R2 R3 : A → A → Prop) (l k m : list A) :
  (∀ x y z, R1 x y → R2 y z → R3 x z) →
  Forall2 R1 l k → Forall2 R2 k m → Forall2 R3 l m.
Proof.
  intros Hc Hlk. revert m.
  induction Hlk as [|x y l k Hxy Hlk IH]; intros m Hkm.
  - inversion Hkm. constructor.
  - inversion Hkm as [|? z ? m' Hyz Hkm']; subst.
    constructor; [by eapply Hc | by apply IH].
Qed.

Lemma seed_keeps_trans x y z : seed_keeps x y → seed_keeps y z → seed_keeps x z.
Proof.
  intros (? & ? & ? & ?) (? & ? & ? & ?). unfold seed_keeps.
  repeat split; congruence.
Qed.

Lemma seed_fold_frame up : ∀ rs,
  ∃ kept new,
    fold_left Builder.upsert (seed_param_of <$> up) rs = kept ++ new
    ∧ Forall2 seed_keeps rs kept
    ∧ Forall freshly_seeded new
    ∧ (length new ≤ length up)%nat.
Proof.
  induction up as [|[[k sym] nm] up IH]; intros rs.
  - exists rs, []. simpl. rewrite app_nil_r. split; [done|].
    split; [|split; [constructor|lia]].
    apply Forall_Forall2_diag, Forall_forall. intros r _. by repeat split.
  - cbn [fmap list_fmap fold_left]. rewrite upsert_seed_cases.
    destruct (sql_exists k rs).
    + destruct (IH (sql_update k (set_symbol_name sym nm) rs))
        as (kept & new & -> & Hkept & Hnew & Hlen).
      exists kept, new. split; [done|]. split; [|split; [done|simpl; lia]].
      eapply Forall2_compose; [apply seed_keeps_trans| |exact Hkept].
      unfold sql_update. apply Forall2_map_self. intros r _.
      destruct (has_key k r); by repeat split.
    + destruct (IH (rs ++ [Token (Some k) (Some sym) (Some nm) None None
                                  (Some 0)]))
        as (kept & new & -> & Hkept & Hnew & Hlen).
      apply Forall2_app_inv_l in Hkept as (kept1 & kept2 & Hk1 & Hk2 & ->).
      inversion Hk2 as [|? r' ? ? Hr' Hnil]; subst. inversion Hnil; subst.
      exists kept1, (r' :: new). rewrite <- app_assoc. split; [done|].
      split; [done|]. split; [|simpl; lia].
      constructor; [|done].
      destruct Hr' as (Hc & Hd & Hi & Hu). simpl in *.
      unfold freshly_seeded. rewrite Hc, Hd, Hi, Hu. eauto.
Qed.

(** X11. The seed phase never deletes or reorders a record and never
    touches the details of one: after [seed_rows_from_crypto_com] the old
    rows come first, in their order, each with its identifier,
    description, imageUrl and updatedAt as before. The rows added, no more
    than one per upstream row, have empty details and timestamp 0. *)
Theorem seed_keeps_existing_details :
  ∀ rs up,
    ∃ kept new,
      BuildPrebuiltDb.seed_rows_from_crypto_com rs up = kept ++ new
      ∧ BuildPrebuiltTokens.seed_rows_from_crypto_com rs up = kept ++ new
      ∧ Forall2 seed_keeps rs kept
      ∧ Forall freshly_seeded new
      ∧ (length new ≤ length up)%nat.
Proof.
  intros rs up.
  destruct (seed_fold_frame up rs) as (kept & new & Heq & Hk & Hn & Hl).
  exists kept, new.
  unfold BuildPrebuiltDb.seed_rows_from_crypto_com,
         BuildPrebuiltTokens.seed_rows_from_crypto_com.
  by rewrite seed_rows_fold.
Qed.

Lemma row_ops_app ops1 ops2 r :
  row_ops (ops1 ++ ops2) r = row_ops ops2 (row_ops ops1 r).
Proof. unfold row_ops. by rewrite fold_left_app. Qed.

(** X12. After the seed phase every upstream identifier is in the store,
    and every row that carries it has the symbol and the name of the last
    upstream row for that identifier. *)
Theorem seed_last_upstream_row_wins :
  ∀ rs up1 up2 k sym nm,
    (∀ e, e ∈ up2 → fst (fst e) ≠ k) →
    let S := BuildPrebuiltDb.seed_rows_from_crypto_com
               rs (up1 ++ (k, sym, nm) :: up2) in
    (∃ r, r ∈ S ∧ cgId r = Some k)
    ∧ ∀ r, r ∈ S → cgId r = Some k →
           symbol r = Some sym ∧ name r = Some nm.
Proof.
  intros rs up1 up2 k sym nm Hlast S. subst S.
  unfold BuildPrebuiltDb.seed_rows_from_crypto_com.
  rewrite seed_rows_fold.
  destruct (seed_fixed rs (up1 ++ (k, sym, nm) :: up2)) as [Ha Hb].
  cbv zeta in Ha, Hb. split.
  - specialize (Ha (k, sym, nm)). simpl in Ha.
    apply Exists_exists, sql_exists_true.
    apply Ha, elem_of_app. right. apply list_elem_of_here.
  - intros r Hr Hk. specialize (Hb r Hr).
    rewrite fmap_app, fmap_cons, row_ops_app, row_ops_cons in Hb.
    cbn [seed_op fst snd] in Hb.
    rewrite has_key_row_ops_seed in Hb.
    rewrite (proj2 (has_key_true k r) Hk) in Hb.
    rewrite row_ops_untouched in Hb.
    + rewrite <- Hb. done.
    + intros o Ho. apply list_elem_of_fmap in Ho as ([[k' s'] n'] & -> & He).
      simpl. rewrite row_ops_seed_cgId, Hk.
      intros [= ->]. by apply (Hlast _ He).
Qed.

Lemma seed_last_upstream_row_wins_witness :
  (∀ e, e ∈ [("eth", "ETH", "Ether")] → fst (fst e) ≠ "btc")
  ∧ ∀ r, r ∈ BuildPrebuiltDb.seed_rows_from_crypto_com
                [eth_row]
                ([("btc", "xbt", "Old name")]
                 ++ ("btc", "btc", "Bitcoin") :: [("eth", "ETH", "Ether")]) →
         cgId r = Some "btc" →
         symbol r = Some "btc" ∧ name r = Some "Bitcoin".
Proof.
  assert (H : ∀ e, e ∈ [("eth", "ETH", "Ether")] → fst (fst e) ≠ "btc").
  { intros e He. apply list_elem_of_singleton in He as ->. done. }
  split; [exact H|].
  exact (proj2 (seed_last_upstream_row_wins [eth_row]
                  [("btc", "xbt", "Old name")] [("eth", "ETH", "Ether")]
                  "btc" "btc" "Bitcoin" H)).
Defined.

Lemma primary_key_update k f rs :
  (∀ r, cgId (f r) = cgId r) →
  primary_key rs → primary_key (sql_update k f rs).
Proof.
  intros Hf Hpk i j r r' k0 Hi Hj Hr Hr'. unfold sql_update in Hi, Hj.
  change (map ?g rs) with (g <$> rs) in Hi, Hj.
  rewrite list_lookup_fmap in Hi, Hj.
  destruct (rs !! i) as [x|] eqn:Hxi; [|done].
  destruct (rs !! j) as [y|] eqn:Hyj; [|done].
  simpl in Hi, Hj. injection Hi as <-. injection Hj as <-.
  apply (Hpk i j x y k0); [done..| |].
  - destruct (has_key k x); [by rewrite <- Hf|done].
  - destruct (has_key k y); [by rewrite <- Hf|done].
Qed.

Lemma primary_key_insert k r rs :
  cgId r = Some k → sql_exists k rs = false →
  primary_key rs → primary_key (rs ++ [r]).
Proof.
  intros Hk Hex Hpk i j x y k0 Hi Hj Hx Hy.
  assert (Hfresh : ∀ n z, rs !! n = Some z → cgId z ≠ Some k).
  { intros n z Hn Hz.
    assert (sql_exists k rs = true); [|congruence].
    apply sql_exists_true, Exists_exists. exists z.
    split; [by eapply list_elem_of_lookup_2|done]. }
  apply lookup_app_Some in Hi as [Hi|[Hgi Hi]];
    apply lookup_app_Some in Hj as [Hj|[Hgj Hj]].
  - by apply (Hpk i j x y k0).
  - destruct (j - length rs)%nat; simpl in Hj; [|done].
    injection Hj as <-. exfalso. apply (Hfresh i x Hi). congruence.
  - destruct (i - length rs)%nat; simpl in Hi; [|done].
    injection Hi as <-. exfalso. apply (Hfresh j y Hj). congruence.
  - destruct (i - length rs)%nat eqn:Hdi; simpl in Hi; [|done].
    destruct (j - length rs)%nat eqn:Hdj; simpl in Hj; [|done]. lia.
Qed.

Lemma seed_fold_primary_key up : ∀ rs,
  primary_key rs →
  primary_key (fold_left Builder.upsert (seed_param_of <$> up) rs).
Proof.
  induction up as [|[[k sym] nm] up IH]; intros rs Hpk; [done|].
  cbn [fmap list_fmap fold_left]. apply IH. rewrite upsert_seed_cases.
  destruct (sql_exists k rs) eqn:Hex.
  - by apply primary_key_update.
  - by apply (primary_key_insert k).
Qed.

(** X13. The seed phase keeps the primary key: on a table where no two
    rows share an identifier, none do after
    [seed_rows_from_crypto_com], whatever the upstream rows, duplicates
    included. *)
Theorem seed_keeps_primary_key :
  ∀ rs up,
    primary_key rs →
    primary_key (BuildPrebuiltDb.seed_rows_from_crypto_com rs up)
    ∧ primary_key (BuildPrebuiltTokens.seed_rows_from_crypto_com rs up).
Proof.
  intros rs up Hpk.
  unfold BuildPrebuiltDb.seed_rows_from_crypto_com,
         BuildPrebuiltTokens.seed_rows_from_crypto_com.
  rewrite seed_rows_fold.
  assert (primary_key (fold_left Builder.upsert (seed_param_of <$> up) rs));
    [|done].
  by apply seed_fold_primary_key.
Qed.

Lemma seed_keeps_primary_key_witness :
  primary_key [eth_row]
  ∧ primary_key (BuildPrebuiltDb.seed_rows_from_crypto_com
                   [eth_row] [("btc", "btc", "Bitcoin");
                              ("eth", "ETH", "Ether");
                              ("btc", "BTC", "Bitcoin")]).
Proof.
  assert (H : primary_key [eth_row]) by apply primary_key_singleton.
  split; [exact H|].
  exact (proj1 (seed_keeps_primary_key [eth_row]
                  [("btc", "btc", "Bitcoin"); ("eth", "ETH", "Ether");
                   ("btc", "BTC", "Bitcoin")] H)).
Defined.

(** *** More on [patch_descriptions.py] *)

Lemma sql_exists_filter k rs :
  sql_exists k rs = true →
  (0 < length (filter (fun r => has_key k r = true) rs))%nat.
Proof.
  unfold sql_exists. induction rs as [|r rs IH]; cbn [existsb]; [done|].
  destruct (has_key k r) eqn:Hk; cbn [orb].
  - intros _. rewrite filter_cons_True by done. simpl. lia.
  - intros H. rewrite filter_cons_False by congruence. by apply IH.
Qed.

Lemma fill_rowcount_positive k rs :
  sql_exists k rs = true →
  PatchDescriptions.had_description k rs = false →
  (0 < length (filter (fun r => has_key k r
                                && null_or_empty (description r) = true)
                      rs))%nat.
Proof.
  unfold sql_exists, PatchDescriptions.had_description.
  induction rs as [|r rs IH]; cbn [existsb]; [done|].
  destruct (has_key k r) eqn:Hk; cbn [orb andb].
  - destruct (null_or_empty (description r)) eqn:Hd; cbn [negb orb]; [|done].
    intros _ _. rewrite filter_cons_True by (by rewrite Hk, Hd). simpl. lia.
  - intros H1 H2. rewrite filter_cons_False by (rewrite Hk; simpl; congruence).
    by apply IH.
Qed.

Lemma pd_loop_stats overwrite updates : ∀ rs st,
  let st' := snd (PatchDescriptions.patch_loop overwrite updates rs st) in
  PatchDescriptions.matched st' - PatchDescriptions.matched st
  = (PatchDescriptions.updated st' - PatchDescriptions.updated st)
    + (PatchDescriptions.skipped_already_has st'
       - PatchDescriptions.skipped_already_has st)
  ∧ 0 ≤ PatchDescriptions.updated st' - PatchDescriptions.updated st
  ∧ 0 ≤ PatchDescriptions.skipped_already_has st'
        - PatchDescriptions.skipped_already_has st
  ∧ PatchDescriptions.matched st' - PatchDescriptions.matched st
    ≤ Z.of_nat (length updates)
  ∧ (overwrite = true →
     PatchDescriptions.skipped_already_has st'
     = PatchDescriptions.skipped_already_has st).
Proof.
  induction updates as [|[cg_id desc] updates IH]; intros rs [m0 u0 s0].
  - simpl. repeat split; lia.
  - cbn [PatchDescriptions.patch_loop length]. rewrite Nat2Z.inj_succ.
    destruct (String.eqb cg_id "" || String.eqb desc "").
    { specialize (IH rs (PatchDescriptions.Stats m0 u0 s0)).
      cbv zeta in IH. simpl in IH |- *. intuition lia. }
    destruct (sql_exists cg_id rs) eqn:Hex; cbn [negb].
    2:{ specialize (IH rs (PatchDescriptions.Stats m0 u0 s0)).
        cbv zeta in IH. simpl in IH |- *. intuition lia. }
    destruct overwrite; cbn [negb andb].
    + cbn [PatchDescriptions.update_overwrite].
      rewrite (proj2 (Z.ltb_lt 0 _))
        by (pose proof (sql_exists_filter cg_id rs Hex); lia).
      match goal with |- context [PatchDescriptions.patch_loop _ _ ?r ?s] =>
        specialize (IH r s) end.
      cbv zeta in IH. simpl in IH |- *. intuition lia.
    + destruct (PatchDescriptions.had_description cg_id rs) eqn:Hhad.
      * match goal with |- context [PatchDescriptions.patch_loop _ _ ?r ?s] =>
          specialize (IH r s) end.
        cbv zeta in IH. simpl in IH |- *.
        intuition (try lia; try discriminate).
      * cbn [PatchDescriptions.update_fill].
        rewrite (proj2 (Z.ltb_lt 0 _))
          by (pose proof (fill_rowcount_positive cg_id rs Hex Hhad); lia).
        match goal with |- context [PatchDescriptions.patch_loop _ _ ?r ?s] =>
          specialize (IH r s) end.
        cbv zeta in IH. simpl in IH |- *.
        intuition (try lia; try discriminate).
Qed.

(** X14. The statistics of [patch_descriptions.py] add up: every entry
    counted as matched is counted either as updated or as skipped because
    the record already had a description; with --overwrite none is
    skipped; no more entries are matched than the input holds. *)
Theorem patch_descriptions_stats_add_up :
  ∀ a updates t uv,
    ∃ db' st,
      PatchDescriptions.main a updates (Store (Some t) uv) = Ok (db', st)
      ∧ PatchDescriptions.matched st
        = PatchDescriptions.updated st
          + PatchDescriptions.skipped_already_has st
      ∧ 0 ≤ PatchDescriptions.updated st
      ∧ 0 ≤ PatchDescriptions.skipped_already_has st
      ∧ PatchDescriptions.matched st ≤ Z.of_nat (length updates)
      ∧ (PatchDescriptions.arg_overwrite a = true →
         PatchDescriptions.skipped_already_has st = 0).
Proof.
  intros a updates t uv. unfold PatchDescriptions.main.
  destruct updates as [|e updates].
  { eexists _, _. split; [done|]. simpl. repeat split; lia. }
  cbn [tokens].
  pose proof (pd_loop_stats (PatchDescriptions.arg_overwrite a)
                (e :: updates) (rows t) (PatchDescriptions.Stats 0 0 0)) as H.
  destruct (PatchDescriptions.patch_loop _ (e :: updates) (rows t) _)
    as [rs st].
  eexists _, _. split; [done|].
  cbv zeta in H. simpl in H. cbn [length]. intuition lia.
Qed.

Lemma Forall2_both {A} (R1 R2 : A → A → Prop) (l k : list A) :
  Forall2 R1 l k → Forall2 R2 l k → Forall2 (fun x y => R1 x y ∧ R2 x y) l k.
Proof.
  intros H1. induction H1; intros H2; inversion H2; subst; constructor; auto.
Qed.

(** One step of the loop of [patch_descriptions.py] as a map over the
    rows. *)
Lemma pd_step_rows overwrite cg_id desc updates rs st :
  ∃ g st1,
    PatchDescriptions.patch_loop overwrite ((cg_id, desc) :: updates) rs st
    = PatchDescriptions.patch_loop overwrite updates (map g rs) st1
    ∧ (∀ r, has_key cg_id r = false → g r = r)
    ∧ (∀ r, g r = r ∨ g r = Token (cgId r) (symbol r) (name r) (Some desc)
                                  (imageUrl r) (updatedAt r))
    ∧ (cg_id ≠ "" → desc ≠ "" →
       ∀ r, r ∈ rs → has_key cg_id r = true →
            overwrite = true
            ∨ PatchDescriptions.had_description cg_id rs = false →
            description (g r) = Some desc).
Proof.
  cbn [PatchDescriptions.patch_loop].
  assert (Hid : ∀ st1,
    PatchDescriptions.patch_loop overwrite updates rs st1
    = PatchDescriptions.patch_loop overwrite updates (map (fun r => r) rs) st1)
    by (intros; by rewrite map_id).
  destruct (String.eqb_spec cg_id "") as [->|Hk]; cbn [orb].
  { exists (fun r => r), st. split; [apply Hid|].
    split; [done|]. split; [by left|]. done. }
  destruct (String.eqb_spec desc "") as [->|Hd].
  { exists (fun r => r), st. split; [apply Hid|].
    split; [done|]. split; [by left|]. done. }
  destruct (sql_exists cg_id rs) eqn:Hex; cbn [negb].
  2:{ exists (fun r => r), st. split; [apply Hid|].
      split; [done|]. split; [by left|].
      intros _ _ r Hr Hkey _.
      assert (sql_exists cg_id rs = true); [|congruence].
      apply sql_exists_true, Exists_exists. exists r.
      split; [done | by apply has_key_true]. }
  destruct overwrite; cbn [negb andb].
  - cbn [PatchDescriptions.update_overwrite]. eexists _, _.
    split; [reflexivity|]. split; [|split].
    + intros r Hr. by rewrite Hr.
    + intros r. destruct (has_key cg_id r); [by right | by left].
    + intros _ _ r _ Hr _. by rewrite Hr.
  - destruct (PatchDescriptions.had_description cg_id rs) eqn:Hhad.
    + eexists (fun r => r), _. split; [apply Hid|].
      split; [done|]. split; [by left|].
      intros _ _ r _ _ [?|?]; discriminate.
    + cbn [PatchDescriptions.update_fill]. eexists _, _.
      split; [reflexivity|]. split; [|split].
      * intros r Hr. by rewrite Hr.
      * intros r. destruct (has_key cg_id r && _); [by right | by left].
      * intros _ _ r Hr Hkey _. rewrite Hkey. cbn [andb].
        destruct (null_or_empty (description r)) eqn:Hne; [done|].
        exfalso.
        assert (PatchDescriptions.had_description cg_id rs = true);
          [|congruence].
        unfold PatchDescriptions.had_description.
        apply existsb_exists. exists r.
        split; [by apply list_elem_of_In|]. by rewrite Hkey, Hne.
Qed.

Lemma pd_loop_frame overwrite updates : ∀ rs st,
  Forall2 (fun r r' => cgId r' = cgId r ∧ symbol r' = symbol r
                       ∧ name r' = name r ∧ imageUrl r' = imageUrl r
                       ∧ updatedAt r' = updatedAt r)
          rs (fst (PatchDescriptions.patch_loop overwrite updates rs st)).
Proof.
  induction updates as [|[cg_id desc] updates IH]; intros rs st.
  - simpl. apply Forall_Forall2_diag, Forall_forall. done.
  - destruct (pd_step_rows overwrite cg_id desc updates rs st)
      as (g & st1 & -> & _ & Hg & _).
    eapply Forall2_chain; [|apply Forall2_map_self|apply IH].
    + intros x y z (? & ? & ? & ? & ?) (? & ? & ? & ? & ?).
      repeat split; congruence.
    + intros r _. destruct (Hg r) as [-> | ->]; done.
Qed.

(** X15. [patch_descriptions.py] writes descriptions only: it never
    creates or deletes a record and leaves identifier, symbol, name,
    imageUrl and updatedAt of every record as they are; the layout of the
    table is kept. [user_version] is left as it is or, with
    --bump-user-version, set with [PRAGMA user_version=old + 1], once:
    below the ceiling of the 32-bit field it moves by one at most. *)
Theorem patch_descriptions_frame :
  ∀ a updates t uv,
    ∃ st rs' uv',
      PatchDescriptions.main a updates (Store (Some t) uv)
      = Ok (Store (Some (Table (info t) rs')) uv', st)
      ∧ Forall2 (fun r r' => cgId r' = cgId r ∧ symbol r' = symbol r
                             ∧ name r' = name r ∧ imageUrl r' = imageUrl r
                             ∧ updatedAt r' = updatedAt r)
                (rows t) rs'
      ∧ (uv' = uv ∨ uv' = pragma_int32 (uv + 1))
      ∧ (PatchDescriptions.arg_bump_user_version a = false → uv' = uv)
      ∧ (-2147483648 ≤ uv < 2147483647 → uv' = uv ∨ uv' = uv + 1).
Proof.
  intros a updates [i rs] uv. unfold PatchDescriptions.main.
  destruct updates as [|e updates].
  { eexists _, rs, uv. split; [done|]. split; [|by auto].
    apply Forall_Forall2_diag, Forall_forall. done. }
  cbn [tokens rows info user_version].
  pose proof (pd_loop_frame (PatchDescriptions.arg_overwrite a) (e :: updates)
                rs (PatchDescriptions.Stats 0 0 0)) as Hf.
  destruct (PatchDescriptions.patch_loop _ (e :: updates) rs _) as [rs' st].
  destruct (PatchDescriptions.arg_bump_user_version a
            && (0 <? PatchDescriptions.updated st)) eqn:Hb.
  - eexists st, rs', (pragma_int32 (uv + 1)).
    split; [done|]. split; [exact Hf|].
    split; [by right|]. split; [intros Hno; by rewrite Hno in Hb|].
    intros Huv. right. apply pragma_int32_in_range. lia.
  - eexists st, rs', uv. split; [done|]. split; [exact Hf|]. by auto.
Qed.

Lemma pd_loop_untouched overwrite updates : ∀ rs st,
  Forall2 (fun r r' => (∀ e, e ∈ updates → cgId r ≠ Some (fst e)) → r' = r)
          rs (fst (PatchDescriptions.patch_loop overwrite updates rs st)).
Proof.
  induction updates as [|[cg_id desc] updates IH]; intros rs st.
  - simpl. apply Forall_Forall2_diag, Forall_forall. done.
  - destruct (pd_step_rows overwrite cg_id desc updates rs st)
      as (g & st1 & -> & Hother & Hg & _).
    eapply (Forall2_compose
              (fun x y => y = g x)
              (fun y z => (∀ e, e ∈ updates → cgId y ≠ Some (fst e)) → z = y));
      [|by apply Forall2_map_self|apply IH].
    intros x y z -> Hyz Hx.
    assert (g x = x) as Hgx.
    { apply Hother, not_true_is_false. rewrite has_key_true.
      apply (Hx (cg_id, desc)), list_elem_of_here. }
    rewrite Hgx in *. apply Hyz. intros e He. apply Hx.
    by apply list_elem_of_further.
Qed.

Lemma had_description_other k cg_id g rs :
  k ≠ cg_id →
  (∀ r, has_key cg_id r = false → g r = r) →
  (∀ r, cgId (g r) = cgId r) →
  PatchDescriptions.had_description k (map g rs)
  = PatchDescriptions.had_description k rs.
Proof.
  intros Hne Hother Hc. unfold PatchDescriptions.had_description.
  induction rs as [|r rs IH]; [done|]. cbn [map existsb]. rewrite IH.
  f_equal. destruct (has_key k r) eqn:Hk.
  - rewrite Hother; [by rewrite Hk|].
    apply not_true_is_false. rewrite has_key_true.
    apply has_key_true in Hk. congruence.
  - unfold has_key in *. by rewrite Hc, Hk.
Qed.

Lemma pd_loop_effect overwrite updates :
  NoDup (fst <$> updates) →
  ∀ rs st,
    Forall2 (fun r r' =>
               ∀ k d, (k, d) ∈ updates → k ≠ "" → d ≠ "" →
                      cgId r = Some k →
                      overwrite = true
                      ∨ PatchDescriptions.had_description k rs = false →
                      description r' = Some d)
            rs (fst (PatchDescriptions.patch_loop overwrite updates rs st)).
Proof.
  induction updates as [|[cg_id desc] updates IH]; intros Hnd rs st.
  - simpl. apply Forall_Forall2_diag, Forall_forall.
    intros r _ k d Hin. by apply elem_of_nil in Hin.
  - rewrite fmap_cons in Hnd. apply NoDup_cons in Hnd as [Hfresh Hnd].
    destruct (pd_step_rows overwrite cg_id desc updates rs st)
      as (g & st1 & -> & Hother & Hg & Hset).
    assert (Hcg : ∀ r, cgId (g r) = cgId r).
    { intros r. by destruct (Hg r) as [-> | ->]. }
    eapply (Forall2_compose
              (fun x y => x ∈ rs ∧ y = g x)
              (fun y z =>
                 (∀ k d, (k, d) ∈ updates → k ≠ "" → d ≠ "" →
                         cgId y = Some k →
                         overwrite = true
                         ∨ PatchDescriptions.had_description k (map g rs)
                           = false →
                         description z = Some d)
                 ∧ ((∀ e, e ∈ updates → cgId y ≠ Some (fst e)) → z = y)));
      [|by apply Forall2_map_self
       |apply Forall2_both; [by apply IH | apply pd_loop_untouched]].
    intros x y z [Hx ->] [Hyz Hsame] k d Hin Hk Hd Hkey Hmode.
    apply elem_of_cons in Hin as [[= -> ->]|Hin].
    + rewrite Hsame.
      * apply Hset; [done..|by apply has_key_true|done].
      * intros e He. rewrite Hcg, Hkey. intros [= ->].
        apply Hfresh, list_elem_of_fmap. by exists e.
    + assert (k ≠ cg_id) as Hne.
      { intros ->. apply Hfresh, list_elem_of_fmap. by exists (cg_id, d). }
      apply (Hyz k d); [done..| |].
      * by rewrite Hcg.
      * destruct Hmode as [?|Hhad]; [by left|right].
        by rewrite (had_description_other k cg_id).
Qed.

Lemma patch_descriptions_frame_shape a updates i rs uv :
  ∃ st uv',
    PatchDescriptions.main a updates (Store (Some (Table i rs)) uv)
    = Ok (Store (Some (Table i (fst (PatchDescriptions.patch_loop
                                       (PatchDescriptions.arg_overwrite a)
                                       updates rs
                                       (PatchDescriptions.Stats 0 0 0)))))
                uv', st).
Proof.
  unfold PatchDescriptions.main. destruct updates as [|e updates].
  { by eexists _, _. }
  cbn [tokens rows info user_version].
  destruct (PatchDescriptions.patch_loop _ (e :: updates) rs _) as [rs' st].
  destruct (PatchDescriptions.arg_bump_user_version a
            && (0 <? PatchDescriptions.updated st)); by eexists _, _.
Qed.

(** X16. What [patch_descriptions.py] writes. The input is a JSON object,
    so no identifier occurs twice. With --overwrite every record whose
    identifier has a non-empty description in the input ends with that
    description. Without it this holds for the identifiers of which no
    record had a description before. A record whose identifier the input
    does not name is left exactly as it was. *)
Theorem patch_descriptions_effect :
  ∀ a updates t uv,
    NoDup (fst <$> updates) →
    ∃ st rs' uv',
      PatchDescriptions.main a updates (Store (Some t) uv)
      = Ok (Store (Some (Table (info t) rs')) uv', st)
      ∧ Forall2
          (fun r r' =>
             (∀ k d, (k, d) ∈ updates → k ≠ "" → d ≠ "" →
                     cgId r = Some k →
                     PatchDescriptions.arg_overwrite a = true
                     ∨ PatchDescriptions.had_description k (rows t) = false →
                     description r' = Some d)
             ∧ ((∀ e, e ∈ updates → cgId r ≠ Some (fst e)) → r' = r))
          (rows t) rs'.
Proof.
  intros a updates [i rs] uv Hnd.
  destruct (patch_descriptions_frame_shape a updates i rs uv)
    as (st & uv' & Hrun).
  exists st, (fst (PatchDescriptions.patch_loop
                     (PatchDescriptions.arg_overwrite a) updates rs
                     (PatchDescriptions.Stats 0 0 0))), uv'.
  split; [exact Hrun|]. cbn [rows].
  apply Forall2_both; [by apply pd_loop_effect | apply pd_loop_untouched].
Qed.

Lemma patch_descriptions_effect_witness :
  NoDup (fst <$> two_descriptions)
  ∧ ∃ st rs' uv',
      PatchDescriptions.main (PatchDescriptions.Args true false)
                             two_descriptions room_store
      = Ok (Store (Some (Table room_info rs')) uv', st)
      ∧ length rs' = 1%nat.
Proof.
  assert (H : NoDup (fst <$> two_descriptions)).
  { simpl. apply NoDup_cons. split; [|apply NoDup_singleton].
    intros Hx. apply list_elem_of_singleton in Hx. discriminate. }
  split; [exact H|].
  destruct (patch_descriptions_effect (PatchDescriptions.Args true false)
              two_descriptions (Table room_info [eth_row]) 1 H)
    as (st & rs' & uv' & Hrun & Hall).
  exists st, rs', uv'. split; [exact Hrun|].
  apply Forall2_length in Hall. simpl in Hall. by rewrite <- Hall.
Defined.

(** *** More on [main] of [safe_patch_prebuilt_db.py] *)

Lemma apply_all_dry ps : ∀ t uv tot,
  Forall (fun p => is_Some (normalize (fst p))) ps →
  ∃ tot', apply_all true ps (Store (Some t) uv) tot
          = Ok (Store (Some t) uv, tot').
Proof.
  induction ps as [|[p ts] ps IH]; intros [i rs] uv [[tu tm] tsk] Hall.
  - by eexists.
  - apply Forall_cons in Hall as [[items Hn] Hall]. cbn [apply_all].
    rewrite (apply_patches_ok _ _ _ _ _ _ items Hn). cbn [bind].
    destruct (counts rs items) as [[u m] s]. by apply IH.
Qed.

(** X17. Under --dry-run [main] still runs the schema guard and nothing
    else: for parseable patch files it returns exactly the store
    [ensure_schema] produced, so a table the guard rebuilds is rebuilt in a
    dry run too, while no patch is applied and [user_version] is kept
    whatever --bump-user-version and --set-user-version say. *)
Theorem main_dry_run_is_schema_guard_only :
  ∀ ps bump set t uv,
    missing_columns (info t) = [] →
    Forall (fun p => is_Some (normalize (fst p))) ps →
    ∃ db1 tot,
      ensure_schema (Store (Some t) uv) = Ok db1
      ∧ SafePatch.main (SafePatch.Args ps bump set true) (Store (Some t) uv)
        = Ok (db1, tot)
      ∧ user_version db1 = uv.
Proof.
  intros ps bump set t uv Hmiss Hall.
  destruct (ensure_schema_ok t uv Hmiss) as [t1 He].
  destruct (apply_all_dry ps t1 uv (0, 0, 0) Hall) as (tot & Ha).
  exists (Store (Some t1) uv), tot. split; [done|]. split; [|done].
  unfold SafePatch.main. rewrite He. cbn [bind arg_dry_run arg_patch].
  by rewrite Ha.
Qed.

Lemma main_dry_run_is_schema_guard_only_witness :
  missing_columns builder_info = []
  ∧ Forall (fun p => is_Some (normalize (fst p))) [(other_patch, 1800000000)]
  ∧ ∃ db1 tot,
      ensure_schema legacy_store = Ok db1
      ∧ SafePatch.main (SafePatch.Args [(other_patch, 1800000000)] true
                                       (Some 9) true) legacy_store
        = Ok (db1, tot)
      ∧ user_version db1 = 1.
Proof.
  assert (H1 : missing_columns builder_info = []) by (vm_compute; reflexivity).
  assert (H2 : Forall (fun p => is_Some (normalize (fst p)))
                      [(other_patch, 1800000000)])
    by (repeat constructor; eexists; reflexivity).
  split; [exact H1|]. split; [exact H2|].
  exact (main_dry_run_is_schema_guard_only
           [(other_patch, 1800000000)] true (Some 9)
           (Table builder_info
                  [ Token (Some "btc") (Some "btc") (Some "Bitcoin")
                          None None (Some 0);
                    Token (Some "eth") (Some "eth") (Some "Ethereum")
                          (Some "A chain.") (Some "eth.png")
                          (Some 1700000000) ]) 1 H1 H2).
Defined.

Lemma apply_all_totals dry ps : ∀ t uv tu tm tsk,
  Forall (fun p => is_Some (normalize (fst p))) ps →
  ∃ t' tu' tm' tsk',
    apply_all dry ps (Store (Some t) uv) (tu, tm, tsk)
    = Ok (Store (Some t') uv, (tu', tm', tsk'))
    ∧ tu' + tm' + tsk' = tu + tm + tsk + patch_entries ps
    ∧ tu ≤ tu' ∧ tm ≤ tm' ∧ tsk ≤ tsk'.
Proof.
  induction ps as [|[p ts] ps IH]; intros [i rs] uv tu tm tsk Hall.
  - eexists _, _, _, _. split; [done|]. simpl. lia.
  - apply Forall_cons in Hall as [[items Hn] Hall]. cbn [apply_all].
    rewrite (apply_patches_ok _ _ _ _ _ _ items Hn). cbn [bind].
    pose proof (counts_partition rs items) as Hpart.
    unfold counts. cbn [fst snd].
    match goal with |- context [apply_all dry ps (Store (Some ?t1) uv) ?tt] =>
      destruct (IH t1 uv (tu + count_class Updated rs items)
                   (tm + count_class MissingInStore rs items)
                   (tsk + count_class Skipped rs items) Hall)
        as (t' & tu' & tm' & tsk' & -> & Hsum & Hu & Hm & Hs) end.
    eexists _, _, _, _. split; [done|].
    cbn [patch_entries fold_right fst]. fold (patch_entries ps).
    simpl in Hn. rewrite Hn. cbn [default]. change (id items) with items.
    assert (0 ≤ count_class Updated rs items
            ∧ 0 ≤ count_class MissingInStore rs items
            ∧ 0 ≤ count_class Skipped rs items) as (? & ? & ?)
      by (unfold count_class; lia).
    repeat split; lia.
Qed.

(** X18. Outside a dry run, for parseable patch files on a table that has
    the six columns, [main] returns totals that account for every entry of
    every file, each entry counted once as updated, missing or skipped;
    and with --set-user-version [v] the counter is set with
    [PRAGMA user_version=v], with or without --bump-user-version: it ends
    at [v] when [v] fits the signed 32-bit field, at 0 when it does
    not. *)
Theorem main_totals_and_set_user_version :
  ∀ ps bump set dry t uv,
    missing_columns (info t) = [] →
    Forall (fun p => is_Some (normalize (fst p))) ps →
    ∃ db' tu tm tsk,
      SafePatch.main (SafePatch.Args ps bump set dry) (Store (Some t) uv)
      = Ok (db', (tu, tm, tsk))
      ∧ tu + tm + tsk = patch_entries ps
      ∧ 0 ≤ tu ∧ 0 ≤ tm ∧ 0 ≤ tsk
      ∧ (dry = false →
         ∀ v, set = Some v →
              user_version db' = pragma_int32 v
              ∧ (-2147483648 ≤ v ≤ 2147483647 → user_version db' = v)
              ∧ (v < -2147483648 ∨ 2147483647 < v → user_version db' = 0)).
Proof.
  intros ps bump set dry t uv Hmiss Hall.
  destruct (ensure_schema_ok t uv Hmiss) as [t1 He].
  destruct (apply_all_totals dry ps t1 uv 0 0 0 Hall)
    as (t' & tu & tm & tsk & Ha & Hsum & Hu & Hm & Hs).
  eexists _, tu, tm, tsk. unfold SafePatch.main. rewrite He.
  cbn [bind arg_dry_run arg_patch]. rewrite Ha. cbn [bind fst snd].
  split; [done|]. split; [lia|]. do 3 (split; [done|]).
  intros -> v ->. cbn [handle_user_version arg_dry_run negb
                       arg_set_user_version set_user_version user_version].
  split; [done|]. split.
  - apply pragma_int32_in_range.
  - intros Hv. unfold pragma_int32.
    destruct (Z.leb_spec (-2147483648) v), (Z.leb_spec v 2147483647);
      simpl; lia.
Qed.

Lemma main_totals_and_set_user_version_witness :
  missing_columns room_info = []
  ∧ Forall (fun p => is_Some (normalize (fst p)))
           [(other_patch, 1800000000); (stray_patch, 1800000001)]
  ∧ ∃ db' tu tm tsk,
      SafePatch.main (SafePatch.Args [(other_patch, 1800000000);
                                      (stray_patch, 1800000001)]
                                     true (Some 9) false) room_store
      = Ok (db', (tu, tm, tsk))
      ∧ tu + tm + tsk = 2.
Proof.
  assert (H1 : missing_columns room_info = []) by (vm_compute; reflexivity).
  assert (H2 : Forall (fun p => is_Some (normalize (fst p)))
                      [(other_patch, 1800000000); (stray_patch, 1800000001)])
    by (repeat constructor; eexists; reflexivity).
  split; [exact H1|]. split; [exact H2|].
  destruct (main_totals_and_set_user_version
              [(other_patch, 1800000000); (stray_patch, 1800000001)]
              true (Some 9) false (Table room_info [eth_row]) 1 H1 H2)
    as (db' & tu & tm & tsk & Hrun & Hsum & _).
  exists db', tu, tm, tsk. split; [exact Hrun | exact Hsum].
Defined.

(** *** More on the enrich phase *)

Lemma row_ops_touched_key (P : token → Prop) k ops : ∀ r,
  cgId r = Some k →
  (∀ o x, o ∈ ops → cgId (snd o x) = cgId x) →
  (∀ o x, o ∈ ops → fst o = k → P (snd o x)) →
  (∃ o, o ∈ ops ∧ fst o = k) →
  P (row_ops ops r).
Proof.
  assert (Hkeep : ∀ ops r,
            cgId r = Some k →
            (∀ o x, o ∈ ops → cgId (snd o x) = cgId x) →
            (∀ o x, o ∈ ops → fst o = k → P (snd o x)) →
            P r → P (row_ops ops r)).
  { clear. induction ops as [|o ops IH]; intros r Hk Hid HP Hr; [done|].
    rewrite row_ops_cons.
    assert (Hid' : ∀ o' x, o' ∈ ops → cgId (snd o' x) = cgId x)
      by (intros; by apply Hid, list_elem_of_further).
    assert (HP' : ∀ o' x, o' ∈ ops → fst o' = k → P (snd o' x))
      by (intros; by apply HP; [apply list_elem_of_further|]).
    destruct (has_key (fst o) r) eqn:Hkey; [|by apply IH].
    apply has_key_true in Hkey.
    apply IH; [|done..|].
    - rewrite Hid; [done|apply list_elem_of_here].
    - apply HP; [apply list_elem_of_here|congruence]. }
  induction ops as [|o ops IH]; intros r Hk Hid HP (o' & Ho' & Hfst).
  - by apply elem_of_nil in Ho'.
  - rewrite row_ops_cons.
    assert (Hid' : ∀ o' x, o' ∈ ops → cgId (snd o' x) = cgId x)
      by (intros; by apply Hid, list_elem_of_further).
    assert (HP' : ∀ o' x, o' ∈ ops → fst o' = k → P (snd o' x))
      by (intros; by apply HP; [apply list_elem_of_further|]).
    destruct (has_key (fst o) r) eqn:Hkey.
    + apply has_key_true in Hkey. apply Hkeep; [|done..|].
      * rewrite Hid; [done|apply list_elem_of_here].
      * apply HP; [apply list_elem_of_here|congruence].
    + apply elem_of_cons in Ho' as [->|Ho'].
      * exfalso. apply not_true_iff_false in Hkey. apply Hkey.
        apply has_key_true. congruence.
      * apply IH; eauto.
Qed.

Lemma db_desc_apply strip_html (fetch : string → result Builder.coin) now
      need_desc : ∀ rs,
  fold_left
    (fun rs cid =>
       match fetch cid with
       | Ok data =>
         BuildPrebuiltDb.update_description
           now (Builder.coin_desc strip_html data) cid rs
       | Raise _ => rs
       end) need_desc rs
  = apply_ops (db_desc_ops strip_html fetch now need_desc) rs.
Proof.
  unfold db_desc_ops. induction need_desc as [|cid l IH]; intros rs; [done|].
  csimpl. destruct (fetch cid) as [data|e]; apply IH.
Qed.

Lemma elem_of_db_desc_ops strip_html fetch now need_desc o :
  o ∈ db_desc_ops strip_html fetch now need_desc
  ↔ fst o ∈ need_desc
    ∧ ∃ data, fetch (fst o) = Ok data
              ∧ o = (fst o,
                     fun r => Token (cgId r) (symbol r) (name r)
                       (Builder.bind_param (Builder.coin_desc strip_html data))
                       (imageUrl r) (Some now)).
Proof.
  unfold db_desc_ops. rewrite list_elem_of_omap. split.
  - intros (cid & Hcid & Ho). destruct (fetch cid) as [data|e] eqn:Hf; [|done].
    injection Ho as <-. simpl. split; [done|]. by exists data.
  - intros (Hin & data & Hf & Ho). exists (fst o). split; [done|].
    by rewrite Hf, <- Ho.
Qed.

(** The statements of the markets pass write imageUrl and updatedAt
    only. *)
Lemma enrich_images_shape markets now ids rs :
  ∃ ops,
    (∀ o, o ∈ ops →
          ∃ img, ∀ r, snd o r = Token (cgId r) (symbol r) (name r)
                                      (description r) img (Some now))
    ∧ BuildPrebuiltDb.enrich_images_via_markets markets now rs ids
      = apply_ops ops rs.
Proof.
  assert (Hbatch : ∀ arr,
    ∃ ops,
      (∀ o, o ∈ ops →
            ∃ img, ∀ r, snd o r = Token (cgId r) (symbol r) (name r)
                                        (description r) img (Some now))
      ∧ ∀ rs0, BuildPrebuiltDb.markets_batch now arr rs0 = apply_ops ops rs0).
  { unfold BuildPrebuiltDb.markets_batch.
    induction arr as [|it arr (ops & Hk & IH)].
    - exists []. split; [|done]. intros o Ho. by apply elem_of_nil in Ho.
    - cbn [fold_left]. destruct (get it "id") as [|k] eqn:Hid.
      { exists ops. split; [done|]. intros rs0. apply IH. }
      destruct (truthy (PyStr k) && truthy (get it "image")).
      + exists ((k, fun r => Token (cgId r) (symbol r) (name r) (description r)
                                (Builder.bind_param (get it "image"))
                                (Some now)) :: ops).
        split.
        * intros o Ho. apply elem_of_cons in Ho as [->|Ho]; [|by apply Hk].
          by eexists.
        * intros rs0. rewrite IH. reflexivity.
      + exists ops. split; [done|]. intros rs0. apply IH. }
  unfold BuildPrebuiltDb.enrich_images_via_markets.
  set (to_fill := BuildPrebuiltDb.select_ids_in _ ids rs).
  assert (Hfold : ∀ batches rs0,
    ∃ ops,
      (∀ o, o ∈ ops →
            ∃ img, ∀ r, snd o r = Token (cgId r) (symbol r) (name r)
                                        (description r) img (Some now))
      ∧ fold_left
          (fun rs batch =>
             match markets batch with
             | Ok arr => BuildPrebuiltDb.markets_batch now arr rs
             | Raise _ => rs
             end) batches rs0
        = apply_ops ops rs0).
  { induction batches as [|b batches IH]; intros rs0.
    - exists []. split; [|done]. intros o Ho. by apply elem_of_nil in Ho.
    - cbn [fold_left]. destruct (markets b) as [arr|e].
      + destruct (Hbatch arr) as (ops1 & Hk1 & H1).
        destruct (IH (BuildPrebuiltDb.markets_batch now arr rs0))
          as (ops2 & Hk2 & H2).
        exists (ops1 ++ ops2). split.
        * intros o Ho. apply elem_of_app in Ho as [Ho|Ho]; eauto.
        * by rewrite H2, H1, apply_ops_app.
      + apply IH. }
  destruct to_fill as [|k to_fill].
  - exists []. split; [|done]. intros o Ho. by apply elem_of_nil in Ho.
  - apply Hfold.
Qed.

(** [enrich_details] of [build_prebuilt_db.py] as two sequences of
    statements. *)
Lemma db_enrich_two_passes strip_html markets fetch now rs ids skip :
  ∃ ops1,
    (∀ o, o ∈ ops1 →
          ∃ img, ∀ r, snd o r = Token (cgId r) (symbol r) (name r)
                                      (description r) img (Some now))
    ∧ BuildPrebuiltDb.enrich_details strip_html markets fetch now rs ids skip
      = apply_ops
          (db_desc_ops strip_html fetch now
             (BuildPrebuiltDb.select_ids_in
                (fun r => null_or_empty (description r)) ids
                (apply_ops ops1 rs)))
          (apply_ops ops1 rs).
Proof.
  unfold BuildPrebuiltDb.enrich_details.
  destruct (negb skip && negb (bool_decide (ids = []))).
  - destruct (enrich_images_shape markets now ids rs) as (ops1 & Hs & ->).
    exists ops1. split; [done|]. apply db_desc_apply.
  - exists []. split; [intros o Ho; by apply elem_of_nil in Ho|].
    apply db_desc_apply.
Qed.


(** X20. Neither enrich pass creates or deletes a record or changes an
    identifier, a symbol or a name: [enrich_details] of both builders
    returns the rows in their order with these three columns as they
    were. *)
Theorem enrich_details_frame :
  (∀ strip_html markets fetch now rs ids skip,
     Forall2 (fun r r' => cgId r' = cgId r ∧ symbol r' = symbol r
                          ∧ name r' = name r)
             rs
             (BuildPrebuiltDb.enrich_details strip_html markets fetch now rs
                                             ids skip))
  ∧ (∀ strip_html fetch now rs ids skip,
       Forall2 (fun r r' => cgId r' = cgId r ∧ symbol r' = symbol r
                            ∧ name r' = name r)
               rs
               (BuildPrebuiltTokens.enrich_details strip_html fetch now rs
                                                   ids skip)).
Proof.
  split.
  - intros strip_html markets fetch now rs ids skip.
    destruct (db_enrich_two_passes strip_html markets fetch now rs ids skip)
      as (ops1 & Hs1 & ->).
    rewrite !apply_ops_map, map_map. apply Forall2_map_self. intros r _.
    set (ops2 := db_desc_ops _ _ _ _).
    assert (H2 : ∀ o x, o ∈ ops2 →
                        cgId (snd o x) = cgId x ∧ symbol (snd o x) = symbol x
                        ∧ name (snd o x) = name x).
    { intros o x Ho. apply elem_of_db_desc_ops in Ho as (_ & d & _ & ->).
      done. }
    assert (H1 : ∀ o x, o ∈ ops1 →
                        cgId (snd o x) = cgId x ∧ symbol (snd o x) = symbol x
                        ∧ name (snd o x) = name x).
    { intros o x Ho. destruct (Hs1 o Ho) as [img ->]. done. }
    split; [|split].
    + rewrite (row_ops_preserve cgId) by (intros; by apply H2).
      apply (row_ops_preserve cgId). intros; by apply H1.
    + rewrite (row_ops_preserve symbol) by (intros; by apply H2).
      apply (row_ops_preserve symbol). intros; by apply H1.
    + rewrite (row_ops_preserve name) by (intros; by apply H2).
      apply (row_ops_preserve name). intros; by apply H1.
  - intros strip_html fetch now rs ids skip.
    rewrite tokens_enrich_apply, apply_ops_map.
    apply Forall2_map_self. intros r _.
    assert (H : ∀ o x, o ∈ tokens_enrich_ops strip_html fetch now skip ids →
                       cgId (snd o x) = cgId x ∧ symbol (snd o x) = symbol x
                       ∧ name (snd o x) = name x).
    { intros o x Ho. unfold tokens_enrich_ops in Ho.
      apply list_elem_of_omap in Ho as (cid & _ & Ho).
      destruct (fetch cid); [|done]. injection Ho as <-. done. }
    split; [|split].
    + apply (row_ops_preserve cgId). intros; by apply H.
    + apply (row_ops_preserve symbol). intros; by apply H.
    + apply (row_ops_preserve name). intros; by apply H.
Qed.

(** *** [main] of the builders *)

Lemma elem_of_non_null ids k : k ∈ Mains.non_null ids ↔ Some k ∈ ids.
Proof.
  unfold Mains.non_null. rewrite list_elem_of_omap. split.
  - intros (x & Hx & ->). done.
  - intros H. by exists (Some k).
Qed.

Lemma elem_of_tokens_enrich_ops strip_html fetch now skip ids o :
  o ∈ tokens_enrich_ops strip_html fetch now skip ids
  ↔ fst o ∈ ids
    ∧ ∃ data, fetch (fst o) = Ok data
              ∧ o = (fst o,
                     fun r => Token (cgId r) (symbol r) (name r)
                       (Builder.bind_param (Builder.coin_desc strip_html data))
                       (Builder.bind_param
                          (if skip then PyNone
                           else BuildPrebuiltTokens._pick_image
                                  (Builder.coin_image data)))
                       (Some now)).
Proof.
  unfold tokens_enrich_ops. rewrite list_elem_of_omap. split.
  - intros (cid & Hcid & Ho). destruct (fetch cid) as [data|e] eqn:Hf; [|done].
    injection Ho as <-. simpl. split; [done|]. by exists data.
  - intros (Hin & data & Hf & Ho). exists (fst o). split; [done|].
    by rewrite Hf, <- Ho.
Qed.

(** What [list_ids_needing_enrich] of [build_prebuilt_tokens.py] lists,
    in either mode. *)
Lemma tokens_listed rs skip k :
  k ∈ BuildPrebuiltTokens.list_ids_needing_enrich rs skip
  ↔ ∃ r, r ∈ rs ∧ cgId r = k
         ∧ (¬ filled (description r)
            ∨ (skip = false ∧ ¬ filled (imageUrl r))).
Proof.
  unfold BuildPrebuiltTokens.list_ids_needing_enrich. destruct skip.
  - rewrite (elem_of_select (fun r => null_or_empty (description r))).
    setoid_rewrite null_or_empty_true. split.
    + intros (r & ? & ? & ?). exists r. by auto.
    + intros (r & ? & ? & [?|[? _]]); [|done]. by exists r.
  - rewrite (elem_of_select
               (fun r => null_or_empty (description r)
                         || null_or_empty (imageUrl r))).
    setoid_rewrite orb_true_iff. setoid_rewrite null_or_empty_true. split.
    + intros (r & ? & ? & [?|?]); exists r; by auto.
    + intros (r & ? & ? & [?|[_ ?]]); exists r; by auto.
Qed.

(** One record under the statements of [enrich_details] of
    [build_prebuilt_tokens.py]. *)
Lemma tokens_enrich_row strip_html fetch now (skip : bool) ids r k :
  cgId r = Some k → k ∈ ids →
  match fetch k with
  | Ok data =>
    row_ops (tokens_enrich_ops strip_html fetch now skip ids) r
    = Token (cgId r) (symbol r) (name r)
        (Builder.bind_param (Builder.coin_desc strip_html data))
        (Builder.bind_param
           (if skip then PyNone
            else BuildPrebuiltTokens._pick_image (Builder.coin_image data)))
        (Some now)
  | Raise _ =>
    row_ops (tokens_enrich_ops strip_html fetch now skip ids) r = r
  end.
Proof.
  intros Hk Hin.
  set (ops := tokens_enrich_ops strip_html fetch now skip ids).
  assert (Hshape : ∀ o x, o ∈ ops →
            cgId (snd o x) = cgId x ∧ symbol (snd o x) = symbol x
            ∧ name (snd o x) = name x).
  { intros o x Ho. apply elem_of_tokens_enrich_ops in Ho
      as (_ & data & _ & ->). done. }
  destruct (fetch k) as [data|e] eqn:Hf.
  - assert (HP : description (row_ops ops r)
                 = Builder.bind_param (Builder.coin_desc strip_html data)
                 ∧ imageUrl (row_ops ops r)
                   = Builder.bind_param
                       (if skip then PyNone
                        else BuildPrebuiltTokens._pick_image
                               (Builder.coin_image data))
                 ∧ updatedAt (row_ops ops r) = Some now).
    { apply (row_ops_touched_key
               (fun x => description x
                         = Builder.bind_param
                             (Builder.coin_desc strip_html data)
                         ∧ imageUrl x
                           = Builder.bind_param
                               (if skip then PyNone
                                else BuildPrebuiltTokens._pick_image
                                       (Builder.coin_image data))
                         ∧ updatedAt x = Some now) k); [done| | |].
      - intros o x Ho. by apply Hshape.
      - intros o x Ho Hfst.
        apply elem_of_tokens_enrich_ops in Ho as (_ & data' & Hf' & ->).
        simpl in Hfst. rewrite Hfst, Hf in Hf'. by inversion Hf'.
      - eexists (k, _). split; [|done].
        apply elem_of_tokens_enrich_ops. simpl. split; [done|].
        exists data. split; [done|reflexivity]. }
    destruct HP as (Hd & Hi & Hu).
    assert (Hc : cgId (row_ops ops r) = cgId r)
      by (apply row_ops_preserve; intros o x Ho; by apply Hshape).
    assert (Hs : symbol (row_ops ops r) = symbol r)
      by (apply row_ops_preserve; intros o x Ho; by apply Hshape).
    assert (Hn : name (row_ops ops r) = name r)
      by (apply row_ops_preserve; intros o x Ho; by apply Hshape).
    destruct (row_ops ops r) as [c s n d i u]. simpl in *. by subst.
  - apply row_ops_untouched. intros o Ho Hko.
    apply elem_of_tokens_enrich_ops in Ho as (_ & data & Hf' & _).
    rewrite Hk in Hko. inversion Hko; subst. congruence.
Qed.

(** The enrich pass of [build_prebuilt_tokens.py] on the identifiers
    [list_ids_needing_enrich] lists. *)
Lemma tokens_enrich_listed_only strip_html fetch now skip rs :
  primary_key rs →
  Forall2 (fun r r' =>
             (cgId r ∉ BuildPrebuiltTokens.list_ids_needing_enrich rs skip
              → r' = r)
             ∧ (filled (description r)
                ∧ (skip = true ∨ filled (imageUrl r)) → r' = r))
          rs
          (BuildPrebuiltTokens.enrich_details strip_html fetch now rs
             (Mains.non_null
                (BuildPrebuiltTokens.list_ids_needing_enrich rs skip))
             skip).
Proof.
  intros Hpk.
  rewrite tokens_enrich_apply, apply_ops_map.
  apply Forall2_map_self. intros r Hr. split.
  - intros Hnot. apply row_ops_untouched. intros o Ho Hk.
    apply elem_of_tokens_enrich_ops in Ho as (Hin & _).
    apply elem_of_non_null in Hin. apply Hnot. by rewrite Hk.
  - intros [Hdesc Himg]. apply row_ops_untouched. intros o Ho Hk.
    apply elem_of_tokens_enrich_ops in Ho as (Hin & _).
    apply elem_of_non_null in Hin.
    apply tokens_listed in Hin as (r0 & Hr0 & Hk0 & Hlisted).
    apply list_elem_of_lookup in Hr as [i Hi].
    apply list_elem_of_lookup in Hr0 as [j Hj].
    assert (i = j) as -> by (by apply (Hpk i j r r0 (fst o))).
    assert (r0 = r) as -> by congruence.
    destruct Hlisted as [Hd|[-> Hi']]; [done|].
    by destruct Himg.
Qed.

(** X21. A resume run of [build_prebuilt_tokens.py] writes to listed
    records only. A record whose identifier [list_ids_needing_enrich] does
    not list is exactly as it was after [main]; on a table that honours
    its primary key this covers every complete record and, with
    --skip-images, every record that has its description. *)
Theorem tokens_resume_keeps_complete :
  ∀ strip_html fetch now force skip upstream rs,
    primary_key rs →
    ∃ rs',
      Mains.tokens_main strip_html fetch now true force skip upstream rs
      = Ok rs'
      ∧ Forall2 (fun r r' =>
                   (cgId r ∉ BuildPrebuiltTokens.list_ids_needing_enrich
                               rs skip → r' = r)
                   ∧ (filled (description r)
                      ∧ (skip = true ∨ filled (imageUrl r)) → r' = r))
                rs rs'.
Proof.
  intros strip_html fetch now force skip upstream rs Hpk.
  unfold Mains.tokens_main. cbn [negb andb].
  pose proof (tokens_enrich_listed_only strip_html fetch now skip rs Hpk)
    as Hgoal.
  destruct (BuildPrebuiltTokens.list_ids_needing_enrich rs skip)
    as [|x ids'] eqn:Hids.
  - exists rs. split; [done|].
    apply Forall_Forall2_diag, Forall_forall. done.
  - eexists. split; [done|]. exact Hgoal.
Qed.

Lemma tokens_resume_keeps_complete_witness :
  primary_key [eth_no_image]
  ∧ ∃ rs',
      Mains.tokens_main (fun s => s) fetch_text 1800000000 true false true
                        (Ok []) [eth_no_image] = Ok rs'
      ∧ Forall2 (fun r r' =>
                   (cgId r ∉ BuildPrebuiltTokens.list_ids_needing_enrich
                               [eth_no_image] true → r' = r)
                   ∧ (filled (description r)
                      ∧ (true = true ∨ filled (imageUrl r)) → r' = r))
                [eth_no_image] rs'.
Proof.
  assert (H : primary_key [eth_no_image]) by apply primary_key_singleton.
  split; [exact H|].
  exact (tokens_resume_keeps_complete (fun s => s) fetch_text 1800000000
           false true (Ok []) [eth_no_image] H).
Defined.

(** X22. [enrich_details] of [build_prebuilt_tokens.py], record by record.
    A record whose identifier is among [ids] and whose fetch succeeds ends
    with the fetched description, the fetched image (NULL under
    --skip-images) and the timestamp of the pass, whatever it held before;
    identifier, symbol and name are kept. When the fetch of its identifier
    fails the record is exactly as it was. *)
Theorem tokens_enrich_overwrites :
  ∀ strip_html fetch now rs ids (skip : bool),
    Forall2
      (fun r r' =>
         ∀ k, cgId r = Some k → k ∈ ids →
              match fetch k with
              | Ok data =>
                r' = Token (cgId r) (symbol r) (name r)
                       (Builder.bind_param (Builder.coin_desc strip_html data))
                       (Builder.bind_param
                          (if skip then PyNone
                           else BuildPrebuiltTokens._pick_image
                                  (Builder.coin_image data)))
                       (Some now)
              | Raise _ => r' = r
              end)
      rs
      (BuildPrebuiltTokens.enrich_details strip_html fetch now rs ids skip).
Proof.
  intros strip_html fetch now rs ids skip.
  rewrite tokens_enrich_apply, apply_ops_map.
  apply Forall2_map_self. intros r _ k Hk Hin.
  by apply tokens_enrich_row.
Qed.

(** X23. A resume run of [build_prebuilt_tokens.py] without --skip-images
    completes the catalogue when upstream has what is missing: if every
    record has an identifier and the fetch of every listed identifier
    succeeds with a non-empty description and an image, then [main]
    returns, no record is incomplete afterwards, and
    [list_ids_needing_enrich] lists nothing on the next run. *)
Theorem tokens_resume_completes :
  ∀ strip_html fetch now force upstream rs,
    Forall (fun r => is_Some (cgId r)) rs →
    (∀ k, Some k ∈ BuildPrebuiltTokens.list_ids_needing_enrich rs false →
          ∃ data,
            fetch k = Ok data
            ∧ filled (Builder.bind_param (Builder.coin_desc strip_html data))
            ∧ filled (Builder.bind_param
                        (BuildPrebuiltTokens._pick_image
                           (Builder.coin_image data)))) →
    ∃ rs',
      Mains.tokens_main strip_html fetch now true force false upstream rs
      = Ok rs'
      ∧ Forall (fun r => ¬ incomplete r) rs'
      ∧ BuildPrebuiltTokens.list_ids_needing_enrich rs' false = [].
Proof.
  intros strip_html fetch now force upstream rs Hids Hfetch.
  assert (Hdone : ∀ rs', Forall (fun r => ¬ incomplete r) rs' →
            BuildPrebuiltTokens.list_ids_needing_enrich rs' false = []).
  { intros rs' Hall. unfold BuildPrebuiltTokens.list_ids_needing_enrich.
    rewrite filter_none; [done|].
    intros r Hr. rewrite Forall_forall in Hall.
    rewrite orb_true_iff, !null_or_empty_true. apply (Hall r Hr). }
  unfold Mains.tokens_main. cbn [negb andb].
  set (ids := BuildPrebuiltTokens.list_ids_needing_enrich rs false).
  assert (Hall :
    Forall (fun r => ¬ incomplete r)
           (BuildPrebuiltTokens.enrich_details strip_html fetch now rs
              (Mains.non_null ids) false)).
  { rewrite tokens_enrich_apply, apply_ops_map.
    apply Forall_forall. intros r' Hr'.
    change (map ?f) with (fmap (M:=list) f) in Hr'.
    apply list_elem_of_fmap in Hr' as (r & -> & Hr).
    rewrite Forall_forall in Hids. destruct (Hids r Hr) as [k Hk].
    destruct (decide (Some k ∈ ids)) as [Hin|Hnot].
    - destruct (Hfetch k Hin) as (data & Hf & Hd & Hi).
      pose proof (tokens_enrich_row strip_html fetch now false
                    (Mains.non_null ids) r k Hk
                    (proj2 (elem_of_non_null ids k) Hin)) as Hrow.
      rewrite Hf in Hrow. rewrite Hrow. unfold incomplete. simpl. tauto.
    - rewrite row_ops_untouched.
      + intros Hinc. apply Hnot. apply tokens_listed. exists r.
        split; [done|]. split; [done|].
        destruct Hinc as [Hd|Hi]; by auto.
      + intros o Ho Hko.
        apply elem_of_tokens_enrich_ops in Ho as (Hin & _).
        apply elem_of_non_null in Hin. apply Hnot. congruence. }
  destruct ids as [|x ids'] eqn:Heq.
  - exists rs. split; [done|].
    assert (Hrs : Forall (fun r => ¬ incomplete r) rs).
    { apply Forall_forall. intros r Hr Hinc.
      assert (Hin : cgId r ∈ ids).
      { apply tokens_listed. exists r. split; [done|]. split; [done|].
        destruct Hinc as [Hd|Hi]; by auto. }
      rewrite Heq in Hin. by apply elem_of_nil in Hin. }
    split; [exact Hrs|by apply Hdone].
  - eexists. split; [done|]. split; [exact Hall|by apply Hdone].
Qed.

Lemma tokens_resume_completes_witness :
  Forall (fun r => is_Some (cgId r)) [eth_no_image]
  ∧ ∃ rs',
      Mains.tokens_main (fun s => s) fetch_full 1800000000 true false false
                        (Ok []) [eth_no_image] = Ok rs'
      ∧ Forall (fun r => ¬ incomplete r) rs'
      ∧ BuildPrebuiltTokens.list_ids_needing_enrich rs' false = [].
Proof.
  assert (H : Forall (fun r => is_Some (cgId r)) [eth_no_image]).
  { constructor; [by eexists|constructor]. }
  split; [exact H|].
  apply (tokens_resume_completes (fun s => s) fetch_full 1800000000 false
           (Ok []) [eth_no_image] H).
  intros k _. eexists. split; [reflexivity|].
  split; eexists; (split; [vm_compute; reflexivity|done]).
Defined.

(** *** [_throttle] *)

(** X24. [_throttle] spaces the requests: on a clock where [time.sleep]
    suspends for at least the time asked and time does not run backwards
    within a call, any two consecutive values of [_last_call_ts] are at
    least [spacing] apart, and so is the first one from the initial
    value. *)
Theorem throttle_spaces_requests :
  ∀ spacing last clock,
    Throttle.clock_ok spacing last clock →
    ∀ i a b,
      (last :: Throttle.stamps spacing last clock) !! i = Some a →
      (last :: Throttle.stamps spacing last clock) !! S i = Some b →
      (a + spacing <= b)%Q.
Proof.
  intros spacing last clock. revert last.
  induction clock as [|[now after] rest IH]; intros last Hok i a b Hi Hj.
  - destruct i; simpl in Hj; done.
  - simpl in Hok. destruct Hok as [Hcall Hrest].
    destruct i as [|i].
    + simpl in Hi, Hj. inversion Hi; inversion Hj; subst. clear Hi Hj.
      destruct (Qle_bool spacing (now - a)) eqn:Hb.
      * apply Qle_bool_iff in Hb. lra.
      * assert (¬ (spacing <= now - a)%Q) as Hlt
          by (rewrite <- Qle_bool_iff; congruence).
        lra.
    + apply (IH after Hrest i); assumption.
Qed.

Lemma throttle_spaces_requests_witness :
  Throttle.clock_ok Throttle.SPACING_SEC_tokens 0 two_calls
  ∧ (0 + Throttle.SPACING_SEC_tokens <= 15)%Q
  ∧ (15 + Throttle.SPACING_SEC_tokens <= 35)%Q.
Proof.
  assert (H : Throttle.clock_ok Throttle.SPACING_SEC_tokens 0 two_calls).
  { vm_compute. repeat split; discriminate. }
  split; [exact H|]. split.
  - exact (throttle_spaces_requests Throttle.SPACING_SEC_tokens 0 two_calls
             H 0%nat 0%Q 15%Q eq_refl eq_refl).
  - exact (throttle_spaces_requests Throttle.SPACING_SEC_tokens 0 two_calls
             H 1%nat 15%Q 35%Q eq_refl eq_refl).
Defined.

(** *** [map_symbols_to_cg_ids] and [fetch_crypto_com_symbols] *)

Section UniverseFacts.
Variable upper : string -> string.

(** What the index [by_sym] holds under a key: the coins of that symbol,
    in the order of the list, and no entry when there is none. *)
Lemma index_coins_lookup_from skip coins :
  ∀ (acc : gmap string (list (gmap string pyval))) key,
  fold_left (fun by_sym c =>
               let sym := Universe.sym_key upper c in
               if skip && String.eqb sym "" then by_sym
               else <[ sym := default [] (by_sym !! sym) ++ [c] ]> by_sym)
            coins acc !! key
  = match filter (fun c => Universe.sym_key upper c = key
                           ∧ (skip = true → Universe.sym_key upper c ≠ ""))
                 coins with
    | [] => acc !! key
    | l => Some (default [] (acc !! key) ++ l)
    end.
Proof.
  induction coins as [|c coins IH]; intros acc key; [done|].
  cbn [fold_left]. rewrite IH. clear IH.
  set (P := fun c => Universe.sym_key upper c = key
                     ∧ (skip = true → Universe.sym_key upper c ≠ "")).
  destruct (skip && String.eqb (Universe.sym_key upper c) "") eqn:Hskip.
  - apply andb_true_iff in Hskip as [-> Heq].
    apply String.eqb_eq in Heq.
    rewrite (filter_cons_False P) by (intros [_ H]; by apply H).
    done.
  - assert (Hkeep : skip = true → Universe.sym_key upper c ≠ "").
    { intros ->. simpl in Hskip. by apply String.eqb_neq. }
    destruct (decide (Universe.sym_key upper c = key)) as [Heq|Hne].
    + rewrite (filter_cons_True P) by done.
      rewrite Heq, lookup_insert_eq. simpl.
      destruct (filter P coins); [done|].
      by rewrite <- app_assoc.
    + rewrite (filter_cons_False P) by (intros [H _]; done).
      by rewrite lookup_insert_ne.
Qed.

Lemma index_coins_lookup skip coins key :
  Universe.index_coins upper skip coins !! key
  = match filter (fun c => Universe.sym_key upper c = key
                           ∧ (skip = true → Universe.sym_key upper c ≠ ""))
                 coins with
    | [] => None
    | l => Some l
    end.
Proof.
  unfold Universe.index_coins. rewrite index_coins_lookup_from.
  rewrite lookup_empty. by destruct (filter _ coins).
Qed.

Lemma map_loop_spec skip coins symbols : ∀ mapped,
  Universe.map_loop upper (Universe.index_coins upper skip coins) symbols
                    mapped
  = app mapped <$> Universe.spec_map upper skip coins symbols.
Proof.
  induction symbols as [|sym rest IH]; intros mapped.
  - simpl. by rewrite app_nil_r.
  - cbn [Universe.map_loop Universe.spec_map]. unfold Universe.first_match.
    rewrite index_coins_lookup.
    destruct (filter _ coins) as [|chosen l]; [apply IH|]. simpl.
    destruct (Universe.triple_of chosen) as [t|]; [|done].
    rewrite IH. destruct (Universe.spec_map upper skip coins rest); simpl;
      [|done].
    by rewrite <- app_assoc.
Qed.

(** X25. [map_symbols_to_cg_ids] does what its docstring says, in both
    builders: the index [by_sym] and the [lst[0]] read from it give, for
    each symbol in turn, the entry of the first coin of the CoinGecko list
    whose upper-cased symbol equals the upper-cased symbol asked for
    (coins without symbol left aside in [build_prebuilt_tokens.py]);
    symbols without such a coin give no entry, and a chosen coin without
    "id" or "symbol" raises KeyError. So at most one entry per symbol
    comes out. *)
Theorem map_symbols_first_match :
  ∀ skip_empty coins symbols,
    Universe.map_symbols_to_cg_ids upper skip_empty coins symbols
    = Universe.spec_map upper skip_empty coins symbols
    ∧ ∀ mapped,
        Universe.map_symbols_to_cg_ids upper skip_empty coins symbols
        = Some mapped →
        (length mapped <= length symbols)%nat.
Proof.
  intros skip coins symbols.
  assert (Heq : Universe.map_symbols_to_cg_ids upper skip coins symbols
                = Universe.spec_map upper skip coins symbols).
  { unfold Universe.map_symbols_to_cg_ids. rewrite map_loop_spec.
    by destruct (Universe.spec_map upper skip coins symbols). }
  split; [exact Heq|]. rewrite Heq. clear Heq.
  induction symbols as [|sym rest IH]; intros mapped Hm.
  - inversion Hm. simpl. lia.
  - cbn [Universe.spec_map] in Hm.
    destruct (Universe.first_match upper skip coins sym) as [chosen|].
    + destruct (Universe.triple_of chosen) as [t|]; [|done].
      destruct (Universe.spec_map upper skip coins rest) as [m|] eqn:Hr;
        [|done].
      inversion Hm; subst. simpl. specialize (IH m eq_refl). lia.
    + specialize (IH mapped Hm). simpl. lia.
Qed.

Lemma collect_bases_elem (accepts : gmap string pyval → bool)
      (base_of : gmap string pyval → string) items :
  ∀ (acc : gset string) b,
  b ∈ fold_left (fun bases it =>
                   if accepts it && negb (String.eqb (base_of it) "")
                   then {[ base_of it ]} ∪ bases else bases)
                items acc
  ↔ b ∈ acc ∨ ∃ it, it ∈ items ∧ accepts it = true ∧ base_of it = b
                    ∧ b ≠ "".
Proof.
  induction items as [|it items IH]; intros acc b.
  - simpl. split; [by left|]. intros [H|(it & Hit & _)]; [done|].
    by apply elem_of_nil in Hit.
  - cbn [fold_left]. rewrite IH. clear IH.
    destruct (accepts it && negb (String.eqb (base_of it) "")) eqn:Hc.
    + apply andb_true_iff in Hc as [Ha Hb].
      apply negb_true_iff, String.eqb_neq in Hb.
      rewrite elem_of_union, elem_of_singleton. split.
      * intros [[->|H]|(it' & Hit' & H)].
        -- right. exists it. split; [apply list_elem_of_here|done].
        -- by left.
        -- right. exists it'. split; [by apply list_elem_of_further|done].
      * intros [H|(it' & Hit' & Ha' & Hb' & Hne)]; [by auto|].
        apply elem_of_cons in Hit' as [->|Hit']; [by auto|].
        right. by exists it'.
    + split.
      * intros [H|(it' & Hit' & H)]; [by left|].
        right. exists it'. split; [by apply list_elem_of_further|done].
      * intros [H|(it' & Hit' & Ha' & Hb' & Hne)]; [by left|].
        apply elem_of_cons in Hit' as [->|Hit'].
        -- rewrite Ha' in Hc. simpl in Hc.
           apply negb_false_iff, String.eqb_eq in Hc. congruence.
        -- right. by exists it'.
Qed.

Lemma sorted_bases accepts base_of items :
  let out := Universe.sorted
               (Universe.collect_bases accepts base_of items) in
  Sorted Universe.string_le out
  ∧ NoDup out
  ∧ ∀ b, b ∈ out ↔ ∃ it, it ∈ items ∧ accepts it = true
                         ∧ base_of it = b ∧ b ≠ "".
Proof.
  unfold Universe.sorted. cbn zeta.
  split; [|split].
  - apply Sorted_merge_sort. intros x y. apply String.leb_total.
  - rewrite merge_sort_Permutation. apply NoDup_elements.
  - intros b. rewrite merge_sort_Permutation, elem_of_elements.
    unfold Universe.collect_bases. rewrite collect_bases_elem.
    rewrite elem_of_empty. tauto.
Qed.

(** X26. [fetch_crypto_com_symbols] returns what its docstring says, in
    both builders: the list is in the order of [sorted], holds no symbol
    twice, and holds exactly the non-empty base symbols of the accepted
    instruments. *)
Theorem fetch_crypto_com_symbols_sorted_unique :
  ∀ items,
    (Sorted Universe.string_le
            (Universe.db_fetch_crypto_com_symbols upper items)
     ∧ NoDup (Universe.db_fetch_crypto_com_symbols upper items)
     ∧ ∀ b, b ∈ Universe.db_fetch_crypto_com_symbols upper items
            ↔ ∃ it, it ∈ items ∧ Universe.db_accepts upper it = true
                    ∧ Universe.db_base upper it = b ∧ b ≠ "")
    ∧ (Sorted Universe.string_le
              (Universe.tokens_fetch_crypto_com_symbols upper items)
       ∧ NoDup (Universe.tokens_fetch_crypto_com_symbols upper items)
       ∧ ∀ b, b ∈ Universe.tokens_fetch_crypto_com_symbols upper items
              ↔ ∃ it, it ∈ items ∧ Universe.tokens_accepts upper it = true
                      ∧ Universe.tokens_base upper it = b ∧ b ≠ "").
Proof.
  intros items. split.
  - apply (sorted_bases (Universe.db_accepts upper) (Universe.db_base upper)).
  - apply (sorted_bases (Universe.tokens_accepts upper)
                        (Universe.tokens_base upper)).
Qed.

End UniverseFacts.

(** *** A full run of the builders *)


Lemma primary_key_same_ids (l k : list token) :
  Forall2 (fun r r' => cgId r' = cgId r) l k →
  primary_key l → primary_key k.
Proof.
  intros HF Hpk i j r1 r2 key Hi Hj H1 H2.
  destruct (Forall2_lookup_r _ _ _ _ _ HF Hi) as (x1 & Hx1 & Hc1).
  destruct (Forall2_lookup_r _ _ _ _ _ HF Hj) as (x2 & Hx2 & Hc2).
  apply (Hpk i j x1 x2 key); congruence.
Qed.

Lemma Forall2_elem_l {A} (R : A → A → Prop) (l k : list A) x :
  Forall2 R l k → x ∈ l → ∃ y, y ∈ k ∧ R x y.
Proof.
  intros HF Hx. apply list_elem_of_lookup in Hx as [i Hi].
  destruct (Forall2_lookup_l _ _ _ _ _ HF Hi) as (y & Hy & HR).
  exists y. split; [|done]. by apply list_elem_of_lookup_2 in Hy.
Qed.

Lemma seed_fold_present up rs e :
  e ∈ up →
  ∃ r, r ∈ fold_left Builder.upsert (seed_param_of <$> up) rs
       ∧ cgId r = Some (fst (fst e)).
Proof.
  intros He. destruct (seed_fixed rs up) as [Ha _]. cbv zeta in Ha.
  apply Exists_exists, sql_exists_true. by apply Ha.
Qed.



(** X28. A full run of [build_prebuilt_tokens.py] over an existing
    catalogue (no --resume). When the upstream requests fail the run ends
    with their exception. Otherwise [main] returns and the old records
    come first, in their order, each with its identifier; a record that
    was complete (with --skip-images: that had its description) keeps
    description, imageUrl and updatedAt; at most one record per upstream
    row is added; every upstream identifier is in the catalogue; and no
    two records share an identifier. *)
Theorem tokens_main_full_run :
  ∀ strip_html fetch now force skip upstream rs,
    primary_key rs →
    match upstream with
    | Raise e =>
      Mains.tokens_main strip_html fetch now false force skip upstream rs
      = Raise e
    | Ok rows =>
      ∃ kept new,
        Mains.tokens_main strip_html fetch now false force skip upstream rs
        = Ok (kept ++ new)
        ∧ Forall2 (fun r r' =>
                     cgId r' = cgId r
                     ∧ (filled (description r)
                        ∧ (skip = true ∨ filled (imageUrl r)) →
                        description r' = description r
                        ∧ imageUrl r' = imageUrl r
                        ∧ updatedAt r' = updatedAt r))
                  (if force then [] else rs) kept
        ∧ (length new ≤ length rows)%nat
        ∧ (∀ e, e ∈ rows →
                ∃ r', r' ∈ kept ++ new ∧ cgId r' = Some (fst (fst e)))
        ∧ primary_key (kept ++ new)
    end.
Proof.
  intros strip_html fetch now force skip upstream rs Hpk.
  destruct upstream as [rows|e]; [|done].
  unfold Mains.tokens_main. cbn [negb andb Py.bind].
  set (start := if force then [] else rs).
  assert (Hpk0 : primary_key start).
  { subst start. destruct force; [|done].
    intros i j r r' k Hi. by rewrite lookup_nil in Hi. }
  unfold BuildPrebuiltTokens.seed_rows_from_crypto_com.
  rewrite seed_rows_fold.
  destruct (seed_fold_frame rows start) as (kept0 & new0 & HS & Hk0 & _ & Hlen).
  pose proof (seed_fold_primary_key rows start Hpk0) as HpkS.
  set (S := fold_left Builder.upsert (seed_param_of <$> rows) start) in *.
  set (E := BuildPrebuiltTokens.enrich_details strip_html fetch now S
              (Mains.non_null
                 (BuildPrebuiltTokens.list_ids_needing_enrich S skip))
              skip).
  assert (Hids : Forall2 (fun r r' => cgId r' = cgId r) S E).
  { subst E. rewrite tokens_enrich_apply, apply_ops_map.
    apply Forall2_map_self. intros r _.
    apply (row_ops_preserve cgId). intros o x Ho.
    apply elem_of_tokens_enrich_ops in Ho as (_ & data & _ & ->). done. }
  assert (HSE : Forall2 (fun r r' =>
                           cgId r' = cgId r
                           ∧ (filled (description r)
                              ∧ (skip = true ∨ filled (imageUrl r)) →
                              r' = r)) S E).
  { apply Forall2_both; [done|].
    eapply Forall2_impl;
      [apply (tokens_enrich_listed_only strip_html fetch now skip S HpkS)|].
    intros x y [_ H]. exact H. }
  pose proof HSE as HSE'. rewrite HS in HSE'.
  apply Forall2_app_inv_l in HSE' as (kept & new & Hkept & Hnew & HE).
  exists kept, new. split; [by rewrite <- HE|].
  split; [|split; [|split]].
  - apply (Forall2_compose seed_keeps
             (fun r r' => cgId r' = cgId r
                          ∧ (filled (description r)
                             ∧ (skip = true ∨ filled (imageUrl r)) →
                             r' = r))
             _ start kept0 kept); [|done|done].
    intros x y z (Hc & Hd & Hi & Hu) (Hc' & Hsame). split; [congruence|].
    intros Hf. rewrite Hsame; [done|]. by rewrite Hd, Hi.
  - apply Forall2_length in Hnew. lia.
  - intros e He. rewrite <- HE.
    destruct (seed_fold_present rows start e He) as (r & Hr & Hk).
    destruct (Forall2_elem_l _ _ _ r Hids Hr) as (r' & Hr' & Hc).
    exists r'. split; [done|congruence].
  - rewrite <- HE. by apply (primary_key_same_ids S E).
Qed.

Lemma tokens_main_full_run_witness :
  primary_key [eth_row]
  ∧ ∃ kept new,
      Mains.tokens_main (fun s => s) fetch_bare 1800000000
                        false false false (Ok [("btc", "btc", "Bitcoin")])
                        [eth_row]
      = Ok (kept ++ new)
      ∧ Forall2 (fun r r' =>
                   cgId r' = cgId r
                   ∧ (filled (description r)
                      ∧ (false = true ∨ filled (imageUrl r)) →
                      description r' = description r
                      ∧ imageUrl r' = imageUrl r
                      ∧ updatedAt r' = updatedAt r))
                [eth_row] kept
      ∧ (length new ≤ 1)%nat
      ∧ (∀ e, e ∈ [("btc", "btc", "Bitcoin")] →
              ∃ r', r' ∈ kept ++ new ∧ cgId r' = Some (fst (fst e)))
      ∧ primary_key (kept ++ new).
Proof.
  assert (H : primary_key [eth_row]) by apply primary_key_singleton.
  split; [exact H|].
  exact (tokens_main_full_run (fun s => s) fetch_bare 1800000000
           false false (Ok [("btc", "btc", "Bitcoin")]) [eth_row] H).
Defined.
